(** * Parthenon: variable packs, the BiCGStab solver, the Poisson package
      and the block timer, embedded from the C++ sources.

    Layout: the embedding of each source file in a module of its own, then
    the theorems about them. *)

From Stdlib Require Import ZArith List Bool Lia Floats.
From stdpp Require Import base strings gmap list.

Local Open Scope Z_scope.

(* ===================================================================== *)
(** * Scalars *)
(* ===================================================================== *)

(** [Real] is a build-time typedef of the sources (single or double
    precision).  The tasks only use the operations below, so the embedding
    is written once over this interface. *)
Class RealOps (R : Type) := {
  Rzero : R;
  Rone : R;
  Radd : R -> R -> R;
  Rsub : R -> R -> R;
  Rmul : R -> R -> R;
  Rdiv : R -> R -> R;
  Ropp : R -> R;
  Rsqrt : R -> R;
  Rpow : R -> Z -> R;   (* std::pow(x, n) with an int exponent *)
  Rltb : R -> R -> bool;
  Reqb : R -> R -> bool;
  Rof_Z : Z -> R        (* conversion of an integer literal or value *)
}.

(** IEEE 754 binary64, the default [Real] and the C++ [double]: the
    Standard Library's executable specification of the format
    ([prec = 53], [emax = 1024], round to nearest even). *)
Definition double : Type := spec_float.

Definition double_of_Z (z : Z) : double := binary_normalize prec emax z 0 false.

(** std::pow(x, n) for an [int] exponent (<cmath>): the power x^n rounded
    once to the nearest double, with the special values of IEEE 754
    (pow(x, 0) is 1 for every x; the sign of the result is that of x when n
    is odd). *)
Definition double_pow (x : double) (n : Z) : double :=
  if n =? 0 then double_of_Z 1
  else
    let negative := andb (match x with
                          | S754_zero s | S754_infinity s | S754_finite s _ _ => s
                          | S754_nan => false
                          end) (Z.odd n) in
    match x with
    | S754_nan => S754_nan
    | S754_zero _ => if n <? 0 then S754_infinity negative else S754_zero negative
    | S754_infinity _ => if n <? 0 then S754_zero negative else S754_infinity negative
    | S754_finite _ m e =>
        let k := Z.to_pos (Z.abs n) in
        if n <? 0
        then SFdiv prec emax (double_of_Z 1)
                   (S754_finite negative (Pos.pow m k) (e * Zpos k))
        else binary_normalize prec emax (cond_Zopp negative (Zpos (Pos.pow m k)))
                              (e * Zpos k) false
    end.

#[export] Instance binary64 : RealOps double := {
  Rzero := S754_zero false;
  Rone := double_of_Z 1;
  Radd := SF64add;
  Rsub := SF64sub;
  Rmul := SF64mul;
  Rdiv := SF64div;
  Ropp := SFopp;
  Rsqrt := SF64sqrt;
  Rpow := double_pow;
  Rltb := SFltb;
  Reqb := SFeqb;
  Rof_Z := double_of_Z
}.

(* ===================================================================== *)
(** * utils/block_timer.hpp *)
(* ===================================================================== *)

Module BlockTimer.

  (** std::numeric_limits<uint64_t>::max() *)
Definition uint64_max : Z := 2 ^ 64 - 1.

  (** Arithmetic on uint64_t wraps modulo 2^64. *)
Definition wrap64 (z : Z) : Z := z mod 2 ^ 64.
Definition sub64 (a b : Z) : Z := wrap64 (a - b).

  (** static_cast<double>(uint64_t) rounds to the nearest double. *)
Definition double_of_uint64 (z : Z) : double := double_of_Z z.

Record t := { cost_ : double; start_ : Z }.

  (** The value [diff] of the destructor, for the clock reading [stop]. *)
Definition diff (bt : t) (stop : Z) : double :=
    if stop <? start_ bt
    then SF64add (double_of_uint64 (sub64 uint64_max (start_ bt)))
                 (double_of_uint64 stop)
    else double_of_uint64 (sub64 stop (start_ bt)).

  (** ~BlockTimer(): Kokkos::atomic_add(cost_, diff). *)
Definition destroy (bt : t) (stop : Z) : double :=
    SF64add (cost_ bt) (diff bt stop).

End BlockTimer.

(* ===================================================================== *)
(** * Outcomes of a call *)
(* ===================================================================== *)

(** What a call of the embedded code does: it returns a value, it ends the
    program through [std::exit] after printing a message, or it reaches an
    operation for which C++ defines no behaviour. *)
Inductive Outcome (E A : Type) : Type :=
| Returns (a : A)
| Exits (e : E)
| Undefined.
Arguments Returns {E A} a.
Arguments Exits {E A} e.
Arguments Undefined {E A}.

Definition obind {E A B} (m : Outcome E A) (f : A -> Outcome E B) : Outcome E B :=
  match m with
  | Returns a => f a
  | Exits e => Exits e
  | Undefined => Undefined
  end.

(** The error kinds of the specification's section 7 that concern packing. *)
Inductive PackErrorKind := FieldNotFound | AmbiguousField | EmptySelection.

(* ===================================================================== *)
(** * interface/container_iterator.hpp *)
(* ===================================================================== *)

Module ContainerIterator.
Section WithSlice.

  (** [decltype(fvar.Get(0, 0, 0))]: the view of one component's cells. *)
Context {Slice : Type}.

  (** CellVariable<T> (interface/variable.hpp is not among the files), as
      the functions below use it: the extents [GetDim(1..6)], which are
      never negative, and the component views [data.Get(k, j, i)].  The
      [int] counters of the functions below are not bounded in the
      embedding (signed overflow has no defined behaviour in the source). *)
Record CellVariable := {
    GetDim : Z -> nat;
    Get : nat -> nat -> nat -> Slice
  }.

  (** SparseVariable<T>::GetVector() *)
Record SparseVariable := { GetVector : list CellVariable }.

  (** Container<T>: GetCellVariableMap() and GetSparseMap(). *)
Record Container := {
    GetCellVariableMap : gmap string CellVariable;
    GetSparseMap : gmap string SparseVariable
  }.

  (** VarList<T> = std::forward_list<std::shared_ptr<CellVariable<T>>> *)
Definition VarList := list CellVariable.

  (** An entry of the outer view is a default-constructed (unassigned) view
      until the copy loop assigns it. *)
Record VariablePack := {
    v_ : list (option Slice);
    dims_ : nat * nat * nat * nat
  }.

Record IndexedVariablePack := {
    pack : VariablePack;
    ilo : list Z;
    ihi : list Z
  }.

  (** The two messages [MakeListFromNames] prints before [std::exit(1)]. *)
Inductive ExitMessage :=
  | found_in_both (name : string)   (* "... found in both var_map and sparse_map ..." *)
  | not_found (name : string).      (* "... not found in var_map or sparse_map ..." *)

Definition kind_of (m : ExitMessage) : PackErrorKind :=
    match m with
    | found_in_both _ => AmbiguousField
    | not_found _ => FieldNotFound
    end.

  (** for k < GetDim(6), for j < GetDim(5), for i < GetDim(4):
        host_view(vindex++) = v->data.Get(k, j, i) *)
Definition copy_variable (v : CellVariable)
      (st : list (option Slice) * nat) : list (option Slice) * nat :=
    fold_left (fun st k =>
      fold_left (fun st j =>
        fold_left (fun '(host_view, vindex) i =>
          (<[vindex := Some (Get v k j i)]> host_view, S vindex))
          (seq 0 (GetDim v 4)) st)
        (seq 0 (GetDim v 5)) st)
      (seq 0 (GetDim v 6)) st.

  (** vsize += v->GetDim(6) * v->GetDim(5) * v->GetDim(4) *)
Definition count_size (vars : VarList) : nat :=
    fold_left (fun vsize v => vsize + GetDim v 6 * GetDim v 5 * GetDim v 4)%nat vars 0%nat.

  (** [vars.front()] has no defined behaviour on an empty list. *)
Definition front {E} (vars : VarList) : Outcome E CellVariable :=
    match vars with
    | [] => Undefined
    | v :: _ => Returns v
    end.

Definition MakePack {E} (vars : VarList) : Outcome E VariablePack :=
    let vsize := count_size vars in
    obind (front vars) (fun fvar =>
    let cv := replicate vsize None in
    let '(host_view, _) :=
      fold_left (fun st v => copy_variable v st) vars (cv, 0%nat) in
    Returns {| v_ := host_view;
               dims_ := (GetDim fvar 1, GetDim fvar 2, GetDim fvar 3, vsize) |}).

Definition MakeIndexedPack {E} (vars : VarList) : Outcome E IndexedVariablePack :=
    let vsize := count_size vars in
    let nvars := fold_left (fun nvars _ => S nvars) vars 0%nat in
    let index_lo := replicate nvars 0 in
    let index_hi := replicate nvars 0 in
    obind (front vars) (fun fvar =>
    let cv := replicate vsize None in
    let '(host_view, h_ilo, h_ihi, _, _) :=
      fold_left (fun '(host_view, h_ilo, h_ihi, vindex, ivar) v =>
        let h_ilo := <[ivar := Z.of_nat vindex]> h_ilo in
        let '(host_view, vindex) := copy_variable v (host_view, vindex) in
        let h_ihi := <[ivar := Z.of_nat vindex - 1]> h_ihi in
        (host_view, h_ilo, h_ihi, vindex, S ivar))
        vars (cv, index_lo, index_hi, 0%nat, 0%nat) in
    Returns {| pack := {| v_ := host_view;
                          dims_ := (GetDim fvar 1, GetDim fvar 2, GetDim fvar 3, vsize) |};
               ilo := h_ilo; ihi := h_ihi |}).

  (** One turn of the loop over [names.rbegin() .. names.rend()].  The
      source declares the map as [var_map] and reads it as [varMap]. *)
Definition add_name (c : Container) (vars : VarList) (name : string)
      : Outcome ExitMessage VarList :=
    let var_map := GetCellVariableMap c in
    let sparse_map := GetSparseMap c in
    let '(vars, found) :=
      match var_map !! name with
      | Some v => (v :: vars, true)
      | None => (vars, false)
      end in
    match sparse_map !! name with
    | Some sv =>
        if found then Exits (found_in_both name)
        else Returns (fold_left (fun vars its => its :: vars) (rev (GetVector sv)) vars)
    | None =>
        if found then Returns vars else Exits (not_found name)
    end.

Definition MakeListFromNames (c : Container) (names : list string)
      : Outcome ExitMessage VarList :=
    fold_left (fun acc name => obind acc (fun vars => add_name c vars name))
              (rev names) (Returns []).

  (** The source names [vars] in the next two functions without binding it;
      it is the list the call on the line above returns. *)
Definition PackVariables (c : Container) (names : list string)
      : Outcome ExitMessage VariablePack :=
    obind (MakeListFromNames c names) (fun vars => MakePack vars).

Definition PackIndexedVariables (c : Container) (names : list string)
      : Outcome ExitMessage IndexedVariablePack :=
    obind (MakeListFromNames c names) (fun vars => MakeIndexedPack vars).

End WithSlice.
Arguments CellVariable : clear implicits.
Arguments SparseVariable : clear implicits.
Arguments Container : clear implicits.
Arguments VarList : clear implicits.
Arguments VariablePack : clear implicits.
Arguments IndexedVariablePack : clear implicits.
End ContainerIterator.

(* ===================================================================== *)
(** * Mesh data and its variable packs *)
(* ===================================================================== *)

(** Modelled from the spec: TaskStatus (basic_types.hpp is not among the
    files).  Section 3: a task returns a status in {complete, incomplete,
    iterate}. *)
Inductive TaskStatus := complete | incomplete | iterate.

Module Mesh.
Section WithReal.

Context {R : Type} {RO : RealOps R}.

  (** IndexRange: the inclusive bounds [s .. e]. *)
Record IndexRange := { s : Z; e : Z }.

  (** A cell of a partition: block [b] and indices [k], [j], [i]. *)
Definition Cell : Type := nat * Z * Z * Z.

  (** Modelled from the spec: MeshData<Real> (or MeshBlockData<Real>;
      interface/mesh_data.hpp is not among the files), as far as the tasks
      look at it.  Sections 3 and 6: a partition owns a mapping from field
      name to field and answers get-bounds(domain); here also the number of
      blocks, the dimension and the spacings of the coordinates the tasks
      reach through [GetParentPointer]. *)
Record MeshData := {
    NumBlocks : nat;
    GetBoundsI : IndexRange;
    GetBoundsJ : IndexRange;
    GetBoundsK : IndexRange;
    GetNdim : Z;
    Dx : Z -> R;
    NumComponents : string -> nat;
    data : string -> nat -> Cell -> R
  }.

  (** The tasks receive pointers ([T *u], [T *du]) that may name the same
      object: the store maps a pointer to the object it points to. *)
Definition Ptr : Type := nat.
Definition Store : Type := Ptr -> MeshData.

Definition set_data (md : MeshData) (nm : string) (c : nat) (cell : Cell) (x : R)
      : MeshData :=
    {| NumBlocks := NumBlocks md;
       GetBoundsI := GetBoundsI md;
       GetBoundsJ := GetBoundsJ md;
       GetBoundsK := GetBoundsK md;
       GetNdim := GetNdim md;
       Dx := Dx md;
       NumComponents := NumComponents md;
       data := fun nm' c' cell' =>
                 if decide (nm' = nm /\ c' = c /\ cell' = cell) then x
                 else data md nm' c' cell' |}.

Definition store_set (st : Store) (u : Ptr) (md : MeshData) : Store :=
    fun p => if decide (p = u) then md else st p.

  (** Modelled from the spec: [PackVariables(names, imap)] of MeshData (its
      source, interface/mesh_data.hpp, is not among the files).  Section 4.1:
      the variable axis concatenates each field's component range in list
      order, and the index map records per field the [lo, hi] offsets into
      that axis; the pack is a view, so reads and writes through it reach
      the fields themselves.  A name that contributes no entry has the
      offsets (-1, -1), which is what the callers test ([isp_hi < 0]). *)
Record MeshPack := {
    owner : Ptr;
    slots : list (string * nat)
  }.

Definition PackVariables (st : Store) (u : Ptr) (names : list string) : MeshPack :=
    {| owner := u;
       slots := flat_map (fun nm => map (pair nm) (seq 0 (NumComponents (st u) nm)))
                         names |}.

Fixpoint first_index (nm : string) (sl : list (string * nat)) (n : Z) : Z :=
    match sl with
    | [] => -1
    | (nm', _) :: sl' => if decide (nm' = nm) then n else first_index nm sl' (n + 1)
    end.

Fixpoint last_index (nm : string) (sl : list (string * nat)) (n : Z) (found : Z) : Z :=
    match sl with
    | [] => found
    | (nm', _) :: sl' =>
        last_index nm sl' (n + 1) (if decide (nm' = nm) then n else found)
    end.

  (** imap[name].first and imap[name].second *)
Definition imap_first (v : MeshPack) (nm : string) : Z := first_index nm (slots v) 0.
Definition imap_second (v : MeshPack) (nm : string) : Z := last_index nm (slots v) 0 (-1).

Definition slot (v : MeshPack) (n : Z) : option (string * nat) :=
    if n <? 0 then None else slots v !! Z.to_nat n.

  (** v(b, n, k, j, i) read and written.  An index outside the pack has no
      defined behaviour in the source; the embedding reads zero and drops
      the write there. *)
Definition pack_get (st : Store) (v : MeshPack) (b : nat) (n k j i : Z) : R :=
    match slot v n with
    | Some (nm, c) => data (st (owner v)) nm c (b, k, j, i)
    | None => Rzero
    end.

Definition pack_set (st : Store) (v : MeshPack) (b : nat) (n k j i : Z) (x : R) : Store :=
    match slot v n with
    | Some (nm, c) => store_set st (owner v) (set_data (st (owner v)) nm c (b, k, j, i) x)
    | None => st
    end.

  (** v.GetDim(5): the number of blocks of the pack. *)
Definition GetDim5 (st : Store) (v : MeshPack) : Z := Z.of_nat (NumBlocks (st (owner v))).

  (** The integers [lo .. hi], in increasing order. *)
Definition range (lo hi : Z) : list Z :=
    map (fun n => lo + Z.of_nat n) (seq 0 (Z.to_nat (hi - lo + 1))).

  (** The index space of [par_for] and [par_reduce]: blocks [bs .. be] and
      the three index ranges, nested in this order. *)
Definition cells (bs be ks ke js je is_ ie : Z) : list Cell :=
    b ← range bs be; k ← range ks ke; j ← range js je; i ← range is_ ie;
    [(Z.to_nat b, k, j, i)].

  (** Modelled from the spec: [par_for] and [par_reduce]
      (kokkos_abstraction.hpp is not among the files).  Section 6: the
      device execution collaborator accepts a (range, body) pair and a
      (range, body, reduction-op) -> scalar pair.  The embedding runs the
      body one cell after the other in the order of [cells]. *)
Definition par_for (bs be ks ke js je is_ ie : Z)
      (body : Store -> nat -> Z -> Z -> Z -> Store) (st : Store) : Store :=
    fold_left (fun st '(b, k, j, i) => body st b k j i)
              (cells bs be ks ke js je is_ ie) st.

  (** [par_reduce] with [Kokkos::Sum]: the sum starts from zero. *)
Definition par_reduce (bs be ks ke js je is_ ie : Z)
      (body : Store -> nat -> Z -> Z -> Z -> R -> Store * R) (st : Store) : Store * R :=
    fold_left (fun '(st, lsum) '(b, k, j, i) => body st b k j i lsum)
              (cells bs be ks ke js je is_ ie) (st, Rzero).

End WithReal.
Arguments MeshData : clear implicits.
Arguments Store : clear implicits.
End Mesh.

(* ===================================================================== *)
(** * solvers/bicgstab_solver.hpp: the solver object and its tasks *)
(* ===================================================================== *)

Module BiCGStab.
Import Mesh.

  (** The six [AllReduce<Real>] members of the solver.  A task that takes a
      [Real *] receives the address of the [val] of one of them. *)
Inductive Handle := global_res0 | global_res | rhoi | r0_dot_vk | t_dot_s | t_dot_t.

#[export] Instance Handle_eq_dec : EqDecision Handle.
Proof. solve_decision. Defined.

Section WithReal.

Context {R : Type} {RO : RealOps R}.

  (** Modelled from the spec: SparseMatrixAccessor (solvers/solver_utils.hpp
      is not among the files).  Section 4.5: the coefficients are an extra
      field with one component per stencil offset, and the product sums
      coefficient(offset) * operand(cell + offset) over the fixed list of
      index offsets.  The offsets are the three rows the package passes to
      the constructor. *)
Record SparseMatrixAccessor := {
    ioff : list Z;
    joff : list Z;
    koff : list Z
  }.

Definition off (l : list Z) (m : Z) : Z := nth (Z.to_nat m) l 0.

Definition sp_MatVec (sp : SparseMatrixAccessor) (st : Store R)
      (spmat : MeshPack) (imat_lo imat_hi : Z) (v : MeshPack) (iv : Z)
      (b : nat) (k j i : Z) : R :=
    fold_left (fun matvec n =>
                 let m := n - imat_lo in
                 Radd matvec
                      (Rmul (pack_get st spmat b n k j i)
                            (pack_get st v b iv (k + off (koff sp) m)
                                      (j + off (joff sp) m) (i + off (ioff sp) m))))
              (range imat_lo imat_hi) Rzero.

  (** BiCGStabSolver.  The tasks assign and read a member [alpha]; the class
      declares [rhoi_old] and [omega] only, so the embedding declares
      [alpha] beside them. *)
Record Solver := {
    error_tol : R;
    sp_accessor : SparseMatrixAccessor;
    max_iters : Z;
    check_interval : Z;
    bicgstab_cntr : Z;
    fail_flag : bool;
    warn_flag : bool;
    spm_name : string;
    sol_name : string;
    rhs_name : string;
    res : string;
    res0 : string;
    vk : string;
    pk : string;
    tk : string;
    solver_name : string;
    rhoi_old : R;
    omega : R;
    alpha : R;
    val : Handle -> R        (* h.val for each AllReduce member h *)
  }.

  (** Assignment to the members the tasks change. *)
Definition with_state (s : Solver) (cntr : Z) (ro om al : R) (vl : Handle -> R) : Solver :=
    {| error_tol := error_tol s; sp_accessor := sp_accessor s;
       max_iters := max_iters s; check_interval := check_interval s;
       bicgstab_cntr := cntr;
       fail_flag := fail_flag s; warn_flag := warn_flag s;
       spm_name := spm_name s; sol_name := sol_name s; rhs_name := rhs_name s;
       res := res s; res0 := res0 s; vk := vk s; pk := pk s; tk := tk s;
       solver_name := solver_name s;
       rhoi_old := ro; omega := om; alpha := al; val := vl |}.

Definition set_bicgstab_cntr (s : Solver) (n : Z) : Solver :=
    with_state s n (rhoi_old s) (omega s) (alpha s) (val s).
Definition set_rhoi_old (s : Solver) (x : R) : Solver :=
    with_state s (bicgstab_cntr s) x (omega s) (alpha s) (val s).
Definition set_omega (s : Solver) (x : R) : Solver :=
    with_state s (bicgstab_cntr s) (rhoi_old s) x (alpha s) (val s).
Definition set_alpha (s : Solver) (x : R) : Solver :=
    with_state s (bicgstab_cntr s) (rhoi_old s) (omega s) x (val s).
Definition set_val (s : Solver) (h : Handle) (x : R) : Solver :=
    with_state s (bicgstab_cntr s) (rhoi_old s) (omega s) (alpha s)
               (fun h' => if decide (h' = h) then x else val s h').

  (** The result of a task: the solver object, the mesh data and the status. *)
Definition TaskResult : Type := Solver * Store R * TaskStatus.

Definition InitializeBiCGStab (sv : Solver) (st : Store R) (u du : Ptr) (gres0 : Handle)
      : TaskResult :=
    let ib := GetBoundsI (st u) in
    let jb := GetBoundsJ (st u) in
    let kb := GetBoundsK (st u) in
    let vars := [res sv; res0 sv; vk sv; pk sv; rhs_name sv] in
    let v := PackVariables st u vars in
    let ires := imap_first v (res sv) in
    let ires0 := imap_first v (res0 sv) in
    let ivk := imap_first v (vk sv) in
    let ipk := imap_first v (pk sv) in
    let irhs := imap_first v (rhs_name sv) in
    let dv := PackVariables st du [sol_name sv] in
    let sv := set_rhoi_old sv Rone in
    let sv := set_alpha sv Rone in
    let sv := set_omega sv Rone in
    let '(st, err) :=
      par_reduce 0 (GetDim5 st v - 1) (s kb) (e kb) (s jb) (e jb) (s ib) (e ib)
        (fun st b k j i lerr =>
           let st := pack_set st v b ires k j i (pack_get st v b irhs k j i) in
           let st := pack_set st v b ires0 k j i (pack_get st v b irhs k j i) in
           let lerr := Radd lerr (pack_get st v b irhs k j i) in
           let st := pack_set st v b ivk k j i Rzero in
           let st := pack_set st v b ipk k j i Rzero in
           (* initialize guess for solution to zero *)
           let st := pack_set st dv b 0 k j i Rzero in
           (st, lerr)) st in
    let sv := set_val sv gres0 (Radd (val sv gres0) err) in
    (sv, st, complete).

Definition DotProduct (sv : Solver) (st : Store R) (u : Ptr) (vec1 vec2 : string)
      (reduce_sum : Handle) : TaskResult :=
    let ib := GetBoundsI (st u) in
    let jb := GetBoundsJ (st u) in
    let kb := GetBoundsK (st u) in
    let v := PackVariables st u [vec1; vec2] in
    let '(st, gsum) :=
      par_reduce 0 (GetDim5 st v - 1) (s kb) (e kb) (s jb) (e jb) (s ib) (e ib)
        (fun st b k j i lsum =>
           (st, Radd lsum (Rmul (pack_get st v b 0 k j i) (pack_get st v b 1 k j i)))) st in
    let sv := set_val sv reduce_sum (Radd (val sv reduce_sum) gsum) in
    (sv, st, complete).

Definition Compute_pk (sv : Solver) (st : Store R) (u : Ptr) : TaskResult :=
    let ib := GetBoundsI (st u) in
    let jb := GetBoundsJ (st u) in
    let kb := GetBoundsK (st u) in
    let v := PackVariables st u [pk sv; res sv; vk sv] in
    let ipk := imap_first v (pk sv) in
    let ires := imap_first v (res sv) in
    let ivk := imap_first v (vk sv) in
    let beta := Rmul (Rdiv (val sv rhoi) (rhoi_old sv)) (Rdiv (alpha sv) (omega sv)) in
    let sv := set_rhoi_old sv (val sv rhoi) in
    let w := omega sv in
    let st :=
      par_for 0 (GetDim5 st v - 1) (s kb) (e kb) (s jb) (e jb) (s ib) (e ib)
        (fun st b k j i =>
           pack_set st v b ipk k j i
             (Radd (pack_get st v b ires k j i)
                   (Rmul beta (Rsub (pack_get st v b ipk k j i)
                                    (Rmul w (pack_get st v b ivk k j i)))))) st in
    (sv, st, complete).

Definition MatVec (sv : Solver) (st : Store R) (u : Ptr) (in_vec out_vec : string)
      : TaskResult :=
    let ib := GetBoundsI (st u) in
    let jb := GetBoundsJ (st u) in
    let kb := GetBoundsK (st u) in
    let v := PackVariables st u [in_vec; out_vec; spm_name sv] in
    let iin := imap_first v in_vec in
    let iout := imap_first v out_vec in
    let isp_lo := imap_first v (spm_name sv) in
    let isp_hi := imap_second v (spm_name sv) in
    let st :=
      par_for 0 (GetDim5 st v - 1) (s kb) (e kb) (s jb) (e jb) (s ib) (e ib)
        (fun st b k j i =>
           pack_set st v b iout k j i
             (sp_MatVec (sp_accessor sv) st v isp_lo isp_hi v iin b k j i)) st in
    (sv, st, complete).

  (** [du] is a parameter of the next task, which packs both of its views
      from [u]. *)
Definition Update_h (sv : Solver) (st : Store R) (u du : Ptr) : TaskResult :=
    let ib := GetBoundsI (st u) in
    let jb := GetBoundsJ (st u) in
    let kb := GetBoundsK (st u) in
    let v := PackVariables st u [pk sv] in
    let dv := PackVariables st u [sol_name sv] in
    let a := Rdiv (val sv rhoi) (val sv r0_dot_vk) in
    let st :=
      par_for 0 (GetDim5 st v - 1) (s kb) (e kb) (s jb) (e jb) (s ib) (e ib)
        (fun st b k j i =>
           pack_set st dv b 0 k j i
             (Radd (pack_get st dv b 0 k j i) (Rmul a (pack_get st v b 0 k j i)))) st in
    (sv, st, complete).

Definition Update_s (sv : Solver) (st : Store R) (u : Ptr) : TaskResult :=
    let ib := GetBoundsI (st u) in
    let jb := GetBoundsJ (st u) in
    let kb := GetBoundsK (st u) in
    let v := PackVariables st u [res sv; vk sv] in
    let ires := imap_first v (res sv) in
    let ivk := imap_first v (vk sv) in
    let a := Rdiv (val sv rhoi) (val sv r0_dot_vk) in
    let st :=
      par_for 0 (GetDim5 st v - 1) (s kb) (e kb) (s jb) (e jb) (s ib) (e ib)
        (fun st b k j i =>
           pack_set st v b ires k j i
             (Rsub (pack_get st v b ires k j i) (Rmul a (pack_get st v b ivk k j i)))) st in
    (sv, st, complete).

Definition OmegaDotProd (sv : Solver) (st : Store R) (u : Ptr) (t_dot_s t_dot_t : Handle)
      : TaskResult :=
    let ib := GetBoundsI (st u) in
    let jb := GetBoundsJ (st u) in
    let kb := GetBoundsK (st u) in
    let v := PackVariables st u [tk sv; res sv] in
    let '(st, ts_sum) :=
      par_reduce 0 (GetDim5 st v - 1) (s kb) (e kb) (s jb) (e jb) (s ib) (e ib)
        (fun st b k j i lsum =>
           (st, Radd lsum (Rmul (pack_get st v b 0 k j i) (pack_get st v b 1 k j i)))) st in
    let sv := set_val sv t_dot_s (Radd (val sv t_dot_s) ts_sum) in
    let '(st, tt_sum) :=
      par_reduce 0 (GetDim5 st v - 1) (s kb) (e kb) (s jb) (e jb) (s ib) (e ib)
        (fun st b k j i lsum =>
           (st, Radd lsum (Rmul (pack_get st v b 0 k j i) (pack_get st v b 0 k j i)))) st in
    let sv := set_val sv t_dot_t (Radd (val sv t_dot_t) tt_sum) in
    (sv, st, complete).

Definition Update_x_res (sv : Solver) (st : Store R) (u du : Ptr) (gres : Handle)
      : TaskResult :=
    let ib := GetBoundsI (st u) in
    let jb := GetBoundsJ (st u) in
    let kb := GetBoundsK (st u) in
    let v := PackVariables st u [res sv; tk sv] in
    let ires := imap_first v (res sv) in
    let itk := imap_first v (tk sv) in
    let dv := PackVariables st u [sol_name sv] in
    let sv := set_omega sv (Rdiv (val sv t_dot_s) (val sv t_dot_t)) in
    let w := omega sv in
    let '(st, err) :=
      par_reduce 0 (GetDim5 st v - 1) (s kb) (e kb) (s jb) (e jb) (s ib) (e ib)
        (fun st b k j i lerr =>
           let st := pack_set st dv b 0 k j i
                       (Radd (pack_get st dv b 0 k j i) (Rmul w (pack_get st v b ires k j i))) in
           let st := pack_set st v b ires k j i
                       (Rsub (pack_get st v b ires k j i) (Rmul w (pack_get st v b itk k j i))) in
           let lerr := Radd lerr (Rmul (pack_get st v b ires k j i)
                                       (pack_get st v b ires k j i)) in
           (st, lerr)) st in
    let sv := set_val sv gres (Radd (val sv gres) err) in
    (sv, st, complete).

  (** CheckConvergence: the printing of the report is left out. *)
Definition CheckConvergence (sv : Solver) (i : Z) (report : bool) : Solver * TaskStatus :=
    if negb (i =? 0) then (sv, complete)
    else
      let sv := set_bicgstab_cntr sv (bicgstab_cntr sv + 1) in
      let sv := if bicgstab_cntr sv =? 1
                then set_val sv global_res0 (Rsqrt (val sv global_res0)) else sv in
      let sv := if report
                then set_val sv global_res (Rsqrt (val sv global_res)) else sv in
      let converged := Rltb (Rdiv (val sv global_res) (val sv global_res0)) (error_tol sv) in
      let sv := set_val sv global_res Rzero in
      let sv := set_val sv rhoi Rzero in
      let sv := set_val sv r0_dot_vk Rzero in
      let sv := set_val sv t_dot_s Rzero in
      let sv := set_val sv t_dot_t Rzero in
      (sv, if converged then complete else iterate).

  (** The first statements of CreateTaskList: "initialize some shared state". *)
Definition initialize_shared_state (sv : Solver) : Solver :=
    let sv := set_bicgstab_cntr sv 0 in
    let sv := set_val sv global_res0 Rzero in
    let sv := set_val sv global_res Rzero in
    let sv := set_val sv rhoi Rzero in
    let sv := set_val sv r0_dot_vk Rzero in
    let sv := set_val sv t_dot_s Rzero in
    let sv := set_val sv t_dot_t Rzero in
    sv.

  (** ** The tasks of one partition, run by a single process

      Modelled from the spec: the scheduler (tasks/task_list.hpp is not
      among the files).  Section 4.4 lists the steps of a cycle in
      dependency order, which is the order of the edges CreateTaskList
      declares.  With one process a reduction leaves [val] as it is, so the
      StartReduce and CheckReduce tasks do not appear; the boundary
      exchange belongs to a collaborator and is the parameter
      [exchange].  CreateTaskList passes no mesh data to DotProduct and
      OmegaDotProd although they take one; they get [md] like the tasks
      around them. *)
Section Run.

Variable exchange : Store R -> Store R.
Variables md mout : Ptr.
Variable i : Z.

Definition run_init (sv : Solver) (st : Store R) : Solver * Store R :=
      let sv := initialize_shared_state sv in
      let '(sv, st, _) := InitializeBiCGStab sv st md mout global_res0 in
      (sv, st).

    (** Steps 1 to 5: up to the reduction of r0 . v. *)
Definition run_to_r0dotv (sv : Solver) (st : Store R) : Solver * Store R :=
      let '(sv, st, _) := DotProduct sv st md (res0 sv) (res sv) rhoi in
      let '(sv, st, _) := Compute_pk sv st md in
      let st := exchange st in
      let '(sv, st, _) := MatVec sv st md (pk sv) (vk sv) in
      let '(sv, st, _) := DotProduct sv st md (res0 sv) (vk sv) r0_dot_vk in
      (sv, st).

    (** Steps 6 to 12. *)
Definition run_from_h (sv : Solver) (st : Store R) : Solver * Store R * TaskStatus :=
      let '(sv, st, _) := Update_h sv st md mout in
      let '(sv, st, _) := Update_s sv st md in
      let st := exchange st in
      let '(sv, st, _) := MatVec sv st md (res sv) (tk sv) in
      let '(sv, st, _) := OmegaDotProd sv st md t_dot_s t_dot_t in
      let '(sv, st, _) := Update_x_res sv st md mout global_res in
      let '(sv, status) := CheckConvergence sv i true in
      (sv, st, status).

Definition run_cycle (sv : Solver) (st : Store R) : Solver * Store R * TaskStatus :=
      let '(sv, st) := run_to_r0dotv sv st in
      run_from_h sv st.

End Run.

End WithReal.
Arguments Solver : clear implicits.
Arguments TaskResult : clear implicits.
End BiCGStab.

(* ===================================================================== *)
(** * solvers/bicgstab_solver.hpp: CreateTaskList *)
(* ===================================================================== *)

Module TaskLists.
Import BiCGStab.

  (** The callable of a task with the arguments that identify it. *)
Inductive TaskFn :=
  | T_InitializeBiCGStab (gres0 : Handle)
  | T_StartReduce (h : Handle)
  | T_CheckReduce (h : Handle)
  | T_DotProduct (vec1 vec2 : string) (reduce_sum : Handle)
  | T_Compute_pk
  | T_StartReceiving
  | T_SendBoundaryBuffers
  | T_ReceiveBoundaryBuffers
  | T_SetBoundaries
  | T_ClearBoundary
  | T_MatVec (in_vec out_vec : string)
  | T_Update_h
  | T_Update_s
  | T_OmegaDotProd (t_dot_s t_dot_t : Handle)
  | T_Update_x_res (gres : Handle)
  | T_CheckConvergence (i : Z) (report : bool).

  (** Modelled from the spec: TaskID, TaskList, IterativeTasks and
      TaskRegion (tasks/task_id.hpp and tasks/task_list.hpp are not among
      the files).  Section 3: a task has an identity, a dependency set and a
      callable; a list is an ordered sequence of tasks for one partition; an
      iteration is a sub-list of it with one completion task; a region
      records regional and global dependencies per list. *)
Definition TaskID : Type := list nat.

(** [a | b] on task identities *)
Definition task_or (a b : TaskID) : TaskID := a ++ b.

Record Task := {
    id : nat;
    dependency : TaskID;
    fn : TaskFn;
    in_iteration : bool;
    is_completion : bool
  }.

  (** The list [tr[i]] under construction, the RegionCounter and what was
      declared to the region for this list. *)
Record Builder := {
    tasks : list Task;
    reg : nat;
    regional : list (nat * Z * TaskID);
    global : list (nat * Z * TaskID)
  }.

Definition empty_builder : Builder :=
    {| tasks := []; reg := 0; regional := []; global := [] |}.

Definition Build (A : Type) : Type := Builder -> A * Builder.

Definition ret {A} (a : A) : Build A := fun b => (a, b).
Definition bind {A B} (m : Build A) (f : A -> Build B) : Build B :=
    fun b => let '(a, b') := m b in f a b'.

Declare Scope build_scope.
Delimit Scope build_scope with build.
Notation "x <- m ;; k" := (bind m (fun x => k))
    (at level 100, m at next level, right associativity) : build_scope.
Notation "m ;;; k" := (bind m (fun _ => k))
    (at level 100, right associativity) : build_scope.

Definition add (dep : TaskID) (f : TaskFn) (iter completion : bool) : Build TaskID :=
    fun b =>
      let n := S (length (tasks b)) in
      ([n],
       {| tasks := tasks b ++ [{| id := n; dependency := dep; fn := f;
                                  in_iteration := iter; is_completion := completion |}];
          reg := reg b; regional := regional b; global := global b |}).

  (** tl.AddTask, solver.AddTask and solver.SetCompletionTask *)
Definition tl_AddTask dep f := add dep f false false.
Definition solver_AddTask dep f := add dep f true false.
Definition solver_SetCompletionTask dep f := add dep f true true.

  (** reg.ID() *)
Definition reg_ID : Build nat :=
    fun b => (reg b, {| tasks := tasks b; reg := S (reg b);
                        regional := regional b; global := global b |}).

Definition AddRegionalDependencies (rid : nat) (i : Z) (t : TaskID) : Build unit :=
    fun b => (tt, {| tasks := tasks b; reg := reg b;
                     regional := regional b ++ [(rid, i, t)]; global := global b |}).

Definition AddGlobalDependencies (rid : nat) (i : Z) (t : TaskID) : Build unit :=
    fun b => (tt, {| tasks := tasks b; reg := reg b;
                     regional := regional b; global := global b ++ [(rid, i, t)] |}).

Local Open Scope build_scope.

  (** The private CreateTaskList, after its assignments to the shared state
      ([BiCGStab.initialize_shared_state]).  The source declares [recv1] and
      [finish_global_r0dotv] a second time and then names [recv2] and
      [finish_global_tdots], which it declares nowhere: the embedding reads
      the two second declarations as the declarations of these names. *)
Definition CreateTaskList {R} (sv : Solver R) (begin : TaskID) (i : Z) : Build TaskID :=
    let none : TaskID := [] in
    init_bicgstab <- tl_AddTask begin (T_InitializeBiCGStab global_res0) ;;
    rid <- reg_ID ;; AddRegionalDependencies rid i init_bicgstab ;;;
    (* global reduction for initial residual *)
    start_global_res0 <- (if i =? 0
                          then tl_AddTask init_bicgstab (T_StartReduce global_res0)
                          else ret init_bicgstab) ;;
    finish_global_res0 <- tl_AddTask start_global_res0 (T_CheckReduce global_res0) ;;
    (* 1. \hat{r}_0 \cdot r_{i-1} *)
    get_rhoi <- solver_AddTask init_bicgstab (T_DotProduct (res0 sv) (res sv) rhoi) ;;
    rid <- reg_ID ;; AddRegionalDependencies rid i get_rhoi ;;;
    (* global reduction for rhoi *)
    start_global_rhoi <- (if i =? 0
                          then solver_AddTask get_rhoi (T_StartReduce rhoi)
                          else ret get_rhoi) ;;
    finish_global_rhoi <- solver_AddTask start_global_rhoi (T_CheckReduce rhoi) ;;
    (* 2., 3. *)
    update_pk <- solver_AddTask finish_global_rhoi T_Compute_pk ;;
    (* ghost exchange for pk *)
    start_recv1 <- solver_AddTask none T_StartReceiving ;;
    send1 <- solver_AddTask update_pk T_SendBoundaryBuffers ;;
    recv1 <- solver_AddTask start_recv1 T_ReceiveBoundaryBuffers ;;
    setb1 <- solver_AddTask (task_or recv1 update_pk) T_SetBoundaries ;;
    clear1 <- solver_AddTask (task_or send1 setb1) T_ClearBoundary ;;
    (* 4. v = A p *)
    get_v <- solver_AddTask clear1 (T_MatVec (pk sv) (vk sv)) ;;
    (* 5. alpha = rho_i / (\hat{r}_0 \cdot v_i) *)
    get_r0dotv <- solver_AddTask get_v (T_DotProduct (res0 sv) (vk sv) r0_dot_vk) ;;
    rid <- reg_ID ;; AddRegionalDependencies rid i get_r0dotv ;;;
    start_global_r0dotv <- (if i =? 0
                            then solver_AddTask get_r0dotv (T_StartReduce r0_dot_vk)
                            else ret get_rhoi) ;;
    finish_global_r0dotv <- solver_AddTask start_global_r0dotv (T_CheckReduce r0_dot_vk) ;;
    (* 6. h = x_{i-1} + alpha p *)
    get_h <- solver_AddTask finish_global_r0dotv T_Update_h ;;
    (* 8. s = r_{i-1} - alpha v *)
    get_s <- solver_AddTask finish_global_r0dotv T_Update_s ;;
    (* ghost exchange for sk *)
    start_recv2 <- solver_AddTask clear1 T_StartReceiving ;;
    send2 <- solver_AddTask get_s T_SendBoundaryBuffers ;;
    recv2 <- solver_AddTask start_recv2 T_ReceiveBoundaryBuffers ;;
    setb2 <- solver_AddTask (task_or recv2 get_s) T_SetBoundaries ;;
    clear2 <- solver_AddTask (task_or send1 setb1) T_ClearBoundary ;;
    (* 9. t = A s *)
    get_t <- solver_AddTask clear2 (T_MatVec (res sv) (tk sv)) ;;
    (* 10. omega = (t \cdot s) / (t \cdot t) *)
    get_tdots <- solver_AddTask get_t (T_OmegaDotProd t_dot_s t_dot_t) ;;
    rid <- reg_ID ;; AddRegionalDependencies rid i get_tdots ;;;
    start_global_tdots <- (if i =? 0
                           then solver_AddTask get_tdots (T_StartReduce t_dot_s)
                           else ret get_tdots) ;;
    finish_global_tdots <- solver_AddTask start_global_tdots (T_CheckReduce t_dot_s) ;;
    start_global_tdott <- (if i =? 0
                           then solver_AddTask get_tdots (T_StartReduce t_dot_t)
                           else ret get_tdots) ;;
    finish_global_tdott <- solver_AddTask start_global_tdott (T_CheckReduce t_dot_t) ;;
    (* 11. update x and residual *)
    update_x <- solver_AddTask (task_or finish_global_tdots finish_global_tdott)
                               (T_Update_x_res global_res) ;;
    rid <- reg_ID ;; AddRegionalDependencies rid i update_x ;;;
    start_global_res <- (if i =? 0
                         then solver_AddTask update_x (T_StartReduce global_res)
                         else ret get_tdots) ;;
    finish_global_res <- solver_AddTask start_global_res (T_CheckReduce global_res) ;;
    (* 12. check for convergence *)
    check <- solver_SetCompletionTask finish_global_res (T_CheckConvergence i true) ;;
    rid <- reg_ID ;; AddGlobalDependencies rid i check ;;;
    ret check.

  (** The list CreateTaskList builds for partition [i], from an empty one. *)
Definition task_list {R} (sv : Solver R) (begin : TaskID) (i : Z) : list Task :=
    tasks (snd (CreateTaskList sv begin i empty_builder)).

Definition issues (l : list Task) (f : TaskFn) : Prop := In f (map fn l).

(** The task of [l] whose callable is [f] has the dependency [d]. *)
Definition dependency_of (l : list Task) (f : TaskFn) (d : TaskID) : Prop :=
  In (f, d) (map (fun t => (fn t, dependency t)) l).

(** The task of [l] whose callable is [f] has the identity [n]. *)
Definition id_of (l : list Task) (f : TaskFn) (n : nat) : Prop :=
  In (f, n) (map (fun t => (fn t, id t)) l).

End TaskLists.

(* ===================================================================== *)
(** * example/poisson_cg/poisson_cg_package.cpp *)
(* ===================================================================== *)

Module poisson_package.
Import Mesh.

  (** What PARTHENON_REQUIRE_THROWS (utils/error_checking.hpp, not among
      the files) throws when its condition is false. *)
Inductive Exception := runtime_error (what : string).

Section WithReal.

Context {R : Type} {RO : RealOps R}.

  (** The coordinate directions of defs.hpp, which is not among the files. *)
Variables X1DIR X2DIR : Z.

  (** Stencil<Real> and SparseMatrixAccessor of solvers/solver_utils.hpp,
      which is not among the files: the types of the objects UpdatePhi
      looks up in the package, and their kernels Stencil<Real>::Jacobi and
      SparseMatrixAccessor::Jacobi. *)
Variables Stencil_t SparseMatrixAccessor_t : Type.
Variable stencil_Jacobi :
    Stencil_t -> Store R -> MeshPack -> Z -> nat -> Z -> Z -> Z -> R -> R.
Variable sp_accessor_Jacobi :
    SparseMatrixAccessor_t ->
    Store R -> MeshPack -> Z -> Z -> MeshPack -> Z -> nat -> Z -> Z -> Z -> R -> R.

  (** A parameter of a package: a value of one of the types the package
      of this file stores. *)
Inductive Param :=
  | param_int (n : Z)
  | param_Real (x : R)
  | param_bool (b : bool)
  | param_string (s : string)
  | param_Stencil (s : Stencil_t)
  | param_SparseMatrixAccessor (a : SparseMatrixAccessor_t)
  | param_solver.   (* the shared pointer to the CG solver *)

  (** StateDescriptor (interface/state_descriptor.hpp is not among the
      files), as far as this file uses it: the parameters by key and the
      fields in the order they were added, each with the flags of its
      Metadata and the extra shape, if any. *)
Inductive MetadataFlag :=
  | Metadata_Cell | Metadata_Derived | Metadata_OneCopy
  | Metadata_Independent | Metadata_FillGhost.

Record StateDescriptor := {
    label : string;
    params : gmap string Param;
    fields : list (string * (list MetadataFlag * list Z))
  }.

Definition AddParam (key : string) (value : Param) (pkg : StateDescriptor)
      : StateDescriptor :=
    {| label := label pkg; params := <[key := value]> (params pkg); fields := fields pkg |}.

Definition AddField (name : string) (flags : list MetadataFlag) (shape : list Z)
      (pkg : StateDescriptor) : StateDescriptor :=
    {| label := label pkg; params := params pkg;
       fields := fields pkg ++ [(name, (flags, shape))] |}.

  (** pkg->Param<Stencil_t>(key) and pkg->Param<SparseMatrixAccessor>(key):
      the object stored under the key with this type, if there is one. *)
Definition Param_Stencil (pkg : StateDescriptor) (key : string) : option Stencil_t :=
    match params pkg !! key with
    | Some (param_Stencil s) => Some s
    | _ => None
    end.

Definition Param_SparseMatrixAccessor (pkg : StateDescriptor) (key : string)
      : option SparseMatrixAccessor_t :=
    match params pkg !! key with
    | Some (param_SparseMatrixAccessor a) => Some a
    | _ => None
    end.

  (** What stops a task before it returns a status: an exception of
      PARTHENON_REQUIRE_THROWS, or a look-up, in the package dictionary or
      in a package, of a key that is not held.  What the look-up does then
      is in utils/params.hpp, which is not among the files; the task does
      not go on past it. *)
Inductive Stopped :=
  | threw (ex : Exception)
  | not_held (key : string).

  (** ParameterInput (parameter_input.hpp is not among the files): the
      values its getters give for a block, a name and, for GetOrAdd, a
      default. *)
Record ParameterInput := {
    GetOrAddInteger : string -> string -> Z -> Z;
    GetOrAddReal : string -> string -> R -> R;
    GetOrAddBoolean : string -> string -> bool -> bool;
    GetInteger : string -> string -> Z
  }.

  (** The constructors of Stencil<Real> and of SparseMatrixAccessor, and
      what the constructor of CG_Solver, which receives the package, leaves
      of it (solvers/solver_utils.hpp and solvers/cg_solver.hpp are not
      among the files). *)
Variable make_Stencil : string -> Z -> list R -> list (list Z) -> Stencil_t.
Variable make_SparseMatrixAccessor : string -> Z -> list (list Z) -> SparseMatrixAccessor_t.
Variable CG_Solver :
    StateDescriptor -> R -> Stencil_t + SparseMatrixAccessor_t -> StateDescriptor.

  (** Initialize: the printing is left out. *)
Definition Initialize (pin : ParameterInput) : StateDescriptor :=
    let pkg := {| label := "poisson_package"; params := ∅; fields := [] |} in
    let max_poisson_iterations := GetOrAddInteger pin "poisson" "max_iterations" 10000 in
    let pkg := AddParam "max_iterations" (param_int max_poisson_iterations) pkg in
    let check_interval := GetOrAddInteger pin "poisson" "check_interval" 100 in
    let pkg := AddParam "check_interval" (param_int check_interval) pkg in
    let err_tol := GetOrAddReal pin "poisson" "error_tolerance"
                                (Rdiv Rone (Rpow (Rof_Z 10) 8)) (* 1.e-8 *) in
    let pkg := AddParam "error_tolerance" (param_Real err_tol) pkg in
    let fail_flag := GetOrAddBoolean pin "poisson" "fail_without_convergence" false in
    let pkg := AddParam "fail_without_convergence" (param_bool fail_flag) pkg in
    let warn_flag := GetOrAddBoolean pin "poisson" "warn_without_convergence" true in
    let pkg := AddParam "warn_without_convergence" (param_bool warn_flag) pkg in
    let mrho := [Metadata_Cell; Metadata_Derived; Metadata_OneCopy] in
    let pkg := AddField "density" mrho [] pkg in
    let pkg := AddField "rhs" mrho [] pkg in
    let mphi := [Metadata_Cell; Metadata_Independent; Metadata_FillGhost] in
    let pkg := AddField "potential" mphi [] pkg in
    let ndim := 1 + (if GetInteger pin "parthenon/mesh" "nx2" >? 1 then 1 else 0)
                  + (if GetInteger pin "parthenon/mesh" "nx3" >? 1 then 1 else 0) in
    let nstencil := 1 + 2 * ndim in
    let offsets := [[-1; 0; 1; 0; 0; 0; 0]; [0; 0; 0; -1; 1; 0; 0]; [0; 0; 0; 0; 0; -1; 1]] in
    let use_jacobi := GetOrAddBoolean pin "poisson" "use_jacobi" true in
    let pkg := AddParam "use_jacobi" (param_bool use_jacobi) pkg in
    let use_stencil := GetOrAddBoolean pin "poisson" "use_stencil" true in
    let pkg := AddParam "use_stencil" (param_bool use_stencil) pkg in
    let pkg := AddParam "spm_name" (param_string "poisson_sparse_matrix") pkg in
    let pkg := AddParam "rhs_name" (param_string "rhs") pkg in
    let pkg := AddParam "sol_name" (param_string "potential") pkg in
    if use_stencil then
      let m1 := Rof_Z (-1) in
      let wgts := [m1; Rmul (Rof_Z 2) (Rof_Z ndim); m1; m1; m1; m1; m1] in
      let stencil := make_Stencil "stencil" nstencil wgts offsets in
      let pkg := CG_Solver pkg err_tol (inl stencil) in
      AddParam "cg_solver" param_solver pkg
    else
      (* setup the sparse matrix *)
      let msp := [Metadata_Cell; Metadata_Derived; Metadata_OneCopy] in
      let pkg := AddField "poisson_sparse_matrix" msp [nstencil] pkg in
      let sp_accessor := make_SparseMatrixAccessor "accessor" nstencil offsets in
      (* pkg->AddParam("sparse_accessor", sp_accessor); is commented out *)
      let pkg := CG_Solver pkg err_tol (inr sp_accessor) in
      AddParam "cg_solver" param_solver pkg.

  (** for (int i = X2DIR; i <= ndim; i++)
        PARTHENON_REQUIRE_THROWS(dx == coords.Dx(i), msg); *)
Fixpoint require_equal_spacing (md : MeshData R) (dx : R) (axes : list Z) (msg : string)
      : option Exception :=
    match axes with
    | [] => None
    | i :: axes =>
        let dy := Dx md i in
        if Reqb dx dy then require_equal_spacing md dx axes msg
        else Some (runtime_error msg)
    end.

Definition SumMass (st : Store R) (u : Ptr) (reduce_sum : R)
      : (Exception + TaskStatus) * Store R * R :=
    let ib := GetBoundsI (st u) in
    let jb := GetBoundsJ (st u) in
    let kb := GetBoundsK (st u) in
    let v := PackVariables st u ["density"] in
    let irho := imap_first v "density" in
    let coords := st u in
    let ndim := GetNdim (st u) in
    let dx := Dx coords X1DIR in
    match require_equal_spacing coords dx (range X2DIR ndim)
            "SumMass requires that DX be equal in all directions." with
    | Some ex => (inl ex, st, reduce_sum)
    | None =>
        let '(st, total) :=
          par_reduce 0 (GetDim5 st v - 1) (s kb) (e kb) (s jb) (e jb) (s ib) (e ib)
            (fun st b k j i sum =>
               (st, Radd sum (Rmul (pack_get st v b irho k j i) (Rpow dx ndim)))) st in
        (inr complete, st, Radd reduce_sum total)
    end.

  (** UpdatePhi.  [packages] is [pm->packages] of the mesh [u] belongs
      to. *)
Definition UpdatePhi (packages : gmap string StateDescriptor) (st : Store R) (u du : Ptr)
      : (Stopped + TaskStatus) * Store R :=
    let ib := GetBoundsI (st u) in
    let jb := GetBoundsJ (st u) in
    let kb := GetBoundsK (st u) in
    let vars := ["poisson_sparse_matrix"; "density"; "rhs"; "potential"] in
    let v := PackVariables st u vars in
    let isp_lo := imap_first v "poisson_sparse_matrix" in
    let isp_hi := imap_second v "poisson_sparse_matrix" in
    let irho := imap_first v "density" in
    let irhs := imap_first v "rhs" in
    let iphi := imap_first v "potential" in
    let dv := PackVariables st du ["potential"] in
    let idphi := imap_first dv "potential" in
    let coords := st u in
    let ndim := GetNdim (st u) in
    let dx := Dx coords X1DIR in
    match require_equal_spacing coords dx (range X2DIR ndim)
            "UpdatePhi requires that DX be equal in all directions." with
    | Some ex => (inl (threw ex), st)
    | None =>
        let dV := Rpow dx ndim in
        let finish (st : Store R) : (Stopped + TaskStatus) * Store R :=
          let st :=
            par_for 0 (GetDim5 st dv - 1) (s kb) (e kb) (s jb) (e jb) (s ib) (e ib)
              (fun st b k j i =>
                 pack_set st v b iphi k j i
                   (Radd (pack_get st v b iphi k j i) (pack_get st dv b idphi k j i))) st in
          (inr complete, st) in
        match packages !! "poisson_package" with
        | None => (inl (not_held "poisson_package"), st)
        | Some pkg =>
            if isp_hi <? 0 then
              (* there is no sparse matrix, so we must be using the stencil *)
              match Param_Stencil pkg "stencil" with
              | None => (inl (not_held "stencil"), st)
              | Some stencil =>
                  finish
                    (par_for 0 (GetDim5 st v - 1) (s kb) (e kb) (s jb) (e jb) (s ib) (e ib)
                       (fun st b k j i =>
                          let rhs := Rmul dV (pack_get st v b irho k j i) in
                          let phi_new := stencil_Jacobi stencil st v iphi b k j i rhs in
                          pack_set st dv b idphi k j i
                                   (Rsub phi_new (pack_get st v b iphi k j i))) st)
              end
            else
              match Param_SparseMatrixAccessor pkg "sparse_accessor" with
              | None => (inl (not_held "sparse_accessor"), st)
              | Some sp_accessor =>
                  finish
                    (par_for 0 (GetDim5 st v - 1) (s kb) (e kb) (s jb) (e jb) (s ib) (e ib)
                       (fun st b k j i =>
                          let rhs := Rmul dV (pack_get st v b irho k j i) in
                          let phi_new :=
                            sp_accessor_Jacobi sp_accessor st v isp_lo isp_hi v iphi
                                               b k j i rhs in
                          pack_set st dv b idphi k j i
                                   (Rsub phi_new (pack_get st v b iphi k j i))) st)
              end
        end
    end.

Definition SetRHS (st : Store R) (u : Ptr) : (Exception + TaskStatus) * Store R :=
    let ib := GetBoundsI (st u) in
    let jb := GetBoundsJ (st u) in
    let kb := GetBoundsK (st u) in
    let v := PackVariables st u ["density"; "rhs"] in
    let irho := imap_first v "density" in
    let irhs := imap_first v "rhs" in
    let coords := st u in
    let ndim := GetNdim (st u) in
    let dx := Dx coords X1DIR in
    match require_equal_spacing coords dx (range X2DIR ndim)
            "UpdatePhi requires that DX be equal in all directions." with
    | Some ex => (inl ex, st)
    | None =>
        let dV := Rpow dx ndim in
        let st :=
          par_for 0 (GetDim5 st v - 1) (s kb) (e kb) (s jb) (e jb) (s ib) (e ib)
            (fun st b k j i =>
               pack_set st v b irhs k j i (Rmul (Ropp dV) (pack_get st v b irho k j i))) st in
        (inr complete, st)
    end.

End WithReal.
Arguments Param : clear implicits.
Arguments StateDescriptor : clear implicits.
Arguments ParameterInput : clear implicits.
Arguments param_int {R Stencil_t SparseMatrixAccessor_t} n.
Arguments param_Real {R Stencil_t SparseMatrixAccessor_t} x.
Arguments param_bool {R Stencil_t SparseMatrixAccessor_t} b.
Arguments param_string {R Stencil_t SparseMatrixAccessor_t} s.
Arguments param_Stencil {R Stencil_t SparseMatrixAccessor_t} s.
Arguments param_SparseMatrixAccessor {R Stencil_t SparseMatrixAccessor_t} a.
Arguments param_solver {R Stencil_t SparseMatrixAccessor_t}.
Arguments AddParam {R Stencil_t SparseMatrixAccessor_t} key value pkg.
Arguments AddField {R Stencil_t SparseMatrixAccessor_t} name flags shape pkg.
Arguments Param_Stencil {R Stencil_t SparseMatrixAccessor_t} pkg key.
Arguments Param_SparseMatrixAccessor {R Stencil_t SparseMatrixAccessor_t} pkg key.
Arguments UpdatePhi {R RO} X1DIR X2DIR {Stencil_t SparseMatrixAccessor_t}
  stencil_Jacobi sp_accessor_Jacobi packages st u du.
Arguments Initialize {R RO Stencil_t SparseMatrixAccessor_t}
  make_Stencil make_SparseMatrixAccessor CG_Solver pin.
End poisson_package.

(* ===================================================================== *)
(** * Theorems *)
(* ===================================================================== *)

(** A double that is neither NaN nor below zero. *)
Definition double_nonneg (x : double) : bool := SFleb (S754_zero false) x.

Section RoundingSign.

Lemma shr_1_nonneg mrs : 0 <= shr_m mrs -> 0 <= shr_m (shr_1 mrs).
Proof.
    destruct mrs as [m r s]; simpl.
    destruct m as [|p|p]; simpl; try lia; destruct p; simpl; lia.
Qed.

Lemma iter_pos_shr_1_nonneg p mrs :
    0 <= shr_m mrs -> 0 <= shr_m (SpecFloat.iter_pos shr_1 p mrs).
Proof.
    revert mrs; induction p as [p IH|p IH|]; intros mrs H; simpl.
    - apply IH, IH, shr_1_nonneg, H.
    - apply IH, IH, H.
    - apply shr_1_nonneg, H.
Qed.

Lemma shr_record_of_loc_m m l : shr_m (shr_record_of_loc m l) = m.
Proof. destruct l as [|[]]; reflexivity. Qed.

Lemma shr_fexp_nonneg pr em m e l :
    0 <= m -> 0 <= shr_m (fst (shr_fexp pr em m e l)).
Proof.
    intros H. unfold shr_fexp, shr.
    destruct (fexp pr em (Zdigits2 m + e) - e) as [|p|p]; simpl;
      rewrite ?shr_record_of_loc_m; try exact H.
    apply iter_pos_shr_1_nonneg. rewrite shr_record_of_loc_m. exact H.
Qed.

Lemma round_nearest_even_nonneg m l : 0 <= m -> 0 <= round_nearest_even m l.
Proof.
    intros H. unfold round_nearest_even.
    destruct l as [|[]]; try lia. destruct (Z.even m); lia.
Qed.

Lemma binary_round_aux_nonneg pr em mx ex lx :
    0 <= mx -> double_nonneg (binary_round_aux pr em false mx ex lx) = true.
Proof.
    intros H. unfold binary_round_aux.
    pose proof (shr_fexp_nonneg pr em mx ex lx H) as H1.
    destruct (shr_fexp pr em mx ex lx) as [mrs' e']. simpl in H1.
    pose proof (shr_fexp_nonneg pr em _ e' loc_Exact
                  (round_nearest_even_nonneg _ (loc_of_shr_record mrs') H1)) as H2.
    destruct (shr_fexp pr em _ e' loc_Exact) as [mrs'' e'']. simpl in H2.
    destruct (shr_m mrs'') as [|p|p]; try reflexivity; try lia.
    destruct (e'' <=? em - pr); reflexivity.
Qed.

Lemma binary_normalize_nonneg pr em m e :
    0 <= m -> double_nonneg (binary_normalize pr em m e false) = true.
Proof.
    intros H. destruct m as [|p|p]; simpl; try reflexivity; try lia.
    unfold binary_round. destruct (shl_align p e _) as [mz ez].
    apply binary_round_aux_nonneg. lia.
Qed.

Lemma SFadd_nonneg pr em x y :
    double_nonneg x = true -> double_nonneg y = true ->
    double_nonneg (SFadd pr em x y) = true.
Proof.
    destruct x as [sx|sx| |sx mx ex], y as [sy|sy| |sy my ey];
      try destruct sx; try destruct sy; simpl; intros Hx Hy;
      try discriminate; try reflexivity.
    apply (binary_normalize_nonneg pr em (Z.pos _) _). lia.
Qed.

End RoundingSign.

(** C10. For every pair of 64-bit clock readings, the value the BlockTimer
    destructor adds to the cost accumulator is a non-negative double (in
    particular not NaN); when the stop reading is smaller than the start
    reading it is the distance from start to the largest 64-bit value plus
    the stop reading. *)
Theorem BlockTimer_diff_nonneg (cost : double) (start stop : Z) :
  0 <= start < 2 ^ 64 -> 0 <= stop < 2 ^ 64 ->
  let bt := {| BlockTimer.cost_ := cost; BlockTimer.start_ := start |} in
  double_nonneg (BlockTimer.diff bt stop) = true /\
  (stop < start ->
   BlockTimer.diff bt stop =
   SF64add (double_of_Z (BlockTimer.uint64_max - start)) (double_of_Z stop)).
Proof.
  intros Hs Hp bt. unfold BlockTimer.diff, bt; simpl. split.
  - destruct (stop <? start) eqn:E.
    + apply SFadd_nonneg; apply binary_normalize_nonneg.
      * unfold BlockTimer.sub64, BlockTimer.wrap64. apply Z.mod_pos_bound. lia.
      * lia.
    + apply binary_normalize_nonneg.
      unfold BlockTimer.sub64, BlockTimer.wrap64. apply Z.mod_pos_bound. lia.
  - intros Hlt. apply Z.ltb_lt in Hlt. rewrite Hlt.
    unfold BlockTimer.double_of_uint64, BlockTimer.sub64, BlockTimer.wrap64.
    rewrite Z.mod_small; [reflexivity|]. unfold BlockTimer.uint64_max. lia.
Qed.

(* --------------------------------------------------------------------- *)
(** ** The Poisson package: the spacing check *)
(* --------------------------------------------------------------------- *)

Lemma In_range (lo hi i : Z) : In i (Mesh.range lo hi) <-> lo <= i <= hi.
Proof.
  unfold Mesh.range. rewrite in_map_iff. split.
  - intros (n & <- & Hn). apply in_seq in Hn. lia.
  - intros Hi. exists (Z.to_nat (i - lo)). split; [lia|].
    apply in_seq. lia.
Qed.

Section SpacingCheck.

Import Mesh poisson_package.
Context {R : Type} {RO : RealOps R}.

Lemma require_equal_spacing_throws (md : MeshData R) dx axes msg :
    (exists i, In i axes /\ Reqb dx (Dx md i) = false) ->
    require_equal_spacing md dx axes msg = Some (runtime_error msg).
Proof.
    induction axes as [|a axes IH]; intros (i & Hin & Hne); simpl.
    - destruct Hin.
    - destruct (Reqb dx (Dx md a)) eqn:E; [|reflexivity].
      apply IH. destruct Hin as [->|Hin]; [congruence|]. exists i. auto.
Qed.

Lemma require_equal_spacing_passes (md : MeshData R) dx axes msg :
    (forall i, In i axes -> Reqb dx (Dx md i) = true) ->
    require_equal_spacing md dx axes msg = None.
Proof.
    induction axes as [|a axes IH]; intros Hall; simpl; [reflexivity|].
    rewrite Hall by (left; reflexivity). apply IH. intros i Hi. apply Hall. right. exact Hi.
Qed.

End SpacingCheck.

(** C8 (as amended). When the spacing along some axis from X2DIR up to the
    problem dimension differs from the X1 spacing, SetRHS, UpdatePhi and
    SumMass throw before any cell update (UpdatePhi also before it looks
    anything up in the package), leaving the mesh data and the accumulator
    as they were.  When every such spacing equals the X1 spacing, SetRHS
    and SumMass complete, and UpdatePhi completes when the package
    "poisson_package" holds the object it looks up: the stencil under
    "stencil" when the pack has no sparse-matrix entry, the accessor under
    "sparse_accessor" otherwise. *)
Theorem spacing_mismatch_throws_before_any_update
    {R : Type} {RO : RealOps R} (X1DIR X2DIR : Z)
    (Stencil_t SparseMatrixAccessor_t : Type)
    (stencil_Jacobi :
       Stencil_t -> Mesh.Store R -> Mesh.MeshPack -> Z -> nat -> Z -> Z -> Z -> R -> R)
    (sp_accessor_Jacobi :
       SparseMatrixAccessor_t ->
       Mesh.Store R -> Mesh.MeshPack -> Z -> Z -> Mesh.MeshPack -> Z -> nat ->
       Z -> Z -> Z -> R -> R)
    (packages : gmap string (poisson_package.StateDescriptor R Stencil_t SparseMatrixAccessor_t))
    (st : Mesh.Store R) (u du : Mesh.Ptr) (reduce_sum : R) :
  let dx := Mesh.Dx (st u) X1DIR in
  let ndim := Mesh.GetNdim (st u) in
  let UpdatePhi :=
    poisson_package.UpdatePhi X1DIR X2DIR stencil_Jacobi sp_accessor_Jacobi
                              packages st u du in
  let v := Mesh.PackVariables st u ["poisson_sparse_matrix"; "density"; "rhs"; "potential"] in
  ((exists i, X2DIR <= i <= ndim /\ Reqb dx (Mesh.Dx (st u) i) = false) ->
   (exists msg, poisson_package.SetRHS X1DIR X2DIR st u
                = (inl (poisson_package.runtime_error msg), st)) /\
   (exists msg, UpdatePhi
                = (inl (poisson_package.threw (poisson_package.runtime_error msg)), st)) /\
   (exists msg, poisson_package.SumMass X1DIR X2DIR st u reduce_sum
                = (inl (poisson_package.runtime_error msg), st, reduce_sum))) /\
  ((forall i, X2DIR <= i <= ndim -> Reqb dx (Mesh.Dx (st u) i) = true) ->
   (exists st', poisson_package.SetRHS X1DIR X2DIR st u = (inr complete, st')) /\
   (exists st' total, poisson_package.SumMass X1DIR X2DIR st u reduce_sum
                      = (inr complete, st', Radd reduce_sum total)) /\
   (forall pkg,
      packages !! "poisson_package" = Some pkg ->
      (if Mesh.imap_second v "poisson_sparse_matrix" <? 0
       then is_Some (poisson_package.Param_Stencil pkg "stencil")
       else is_Some (poisson_package.Param_SparseMatrixAccessor pkg "sparse_accessor")) ->
      exists st', UpdatePhi = (inr complete, st'))).
Proof.
  intros dx ndim UpdatePhi v. subst UpdatePhi. split.
  - intros (i & Hi & Hne).
    assert (Hthrow : forall msg,
      poisson_package.require_equal_spacing (st u) dx (Mesh.range X2DIR ndim) msg
      = Some (poisson_package.runtime_error msg)).
    { intros msg. apply require_equal_spacing_throws.
      exists i. split; [apply In_range; exact Hi | exact Hne]. }
    unfold poisson_package.SetRHS, poisson_package.UpdatePhi, poisson_package.SumMass.
    fold dx ndim. rewrite !Hthrow. repeat split; eexists; reflexivity.
  - intros Hall.
    assert (Hpass : forall msg,
      poisson_package.require_equal_spacing (st u) dx (Mesh.range X2DIR ndim) msg = None).
    { intros msg. apply require_equal_spacing_passes.
      intros i Hi. apply Hall, In_range, Hi. }
    unfold poisson_package.SetRHS, poisson_package.UpdatePhi, poisson_package.SumMass.
    fold dx ndim v. rewrite !Hpass. split; [|split].
    + eexists; reflexivity.
    + destruct (Mesh.par_reduce _ _ _ _ _ _ _ _ _ st) as [st' total].
      exists st', total. reflexivity.
    + intros pkg Hpkg Hheld. rewrite Hpkg.
      destruct (Mesh.imap_second v "poisson_sparse_matrix" <? 0);
        destruct Hheld as [x Hx]; rewrite Hx; eexists; reflexivity.
Qed.

(* --------------------------------------------------------------------- *)
(** ** Variable packs: name resolution *)
(* --------------------------------------------------------------------- *)

Section NameResolution.

Import ContainerIterator.
Context {Slice : Type}.
Implicit Types (c : Container Slice) (vars : VarList Slice) (name : string).

  (** The name is found in exactly one of the two maps. *)
Definition resolvable c name : Prop :=
    (is_Some (GetCellVariableMap c !! name) /\ GetSparseMap c !! name = None) \/
    (GetCellVariableMap c !! name = None /\ is_Some (GetSparseMap c !! name)).

Definition in_both c name : Prop :=
    is_Some (GetCellVariableMap c !! name) /\ is_Some (GetSparseMap c !! name).

Definition in_neither c name : Prop :=
    GetCellVariableMap c !! name = None /\ GetSparseMap c !! name = None.

  (** The variables a name stands for: the cell variable of that name, or
      the variables of the sparse variable of that name, in their order. *)
Definition resolve c name : VarList Slice :=
    match GetCellVariableMap c !! name, GetSparseMap c !! name with
    | Some v, None => [v]
    | None, Some sv => GetVector sv
    | _, _ => []
    end.

Lemma push_front_rev (l vars : VarList Slice) :
    fold_left (fun vars its => its :: vars) (rev l) vars = l ++ vars.
Proof.
    revert vars. induction l as [|x l IH]; intros vars; simpl; [reflexivity|].
    rewrite fold_left_app. simpl. rewrite IH. reflexivity.
Qed.

Lemma add_name_resolvable c vars name :
    resolvable c name -> add_name c vars name = Returns (resolve c name ++ vars).
Proof.
    unfold resolvable, add_name, resolve.
    intros [[[v Hv] Hs]|[Hv [sv Hs]]]; rewrite Hv, Hs; simpl; [reflexivity|].
    rewrite push_front_rev. reflexivity.
Qed.

Lemma add_name_in_both c vars name :
    in_both c name -> add_name c vars name = Exits (found_in_both name).
Proof.
    unfold in_both, add_name. intros [[v Hv] [sv Hs]]. rewrite Hv, Hs. reflexivity.
Qed.

Lemma add_name_in_neither c vars name :
    in_neither c name -> add_name c vars name = Exits (not_found name).
Proof.
    unfold in_neither, add_name. intros [Hv Hs]. rewrite Hv, Hs. reflexivity.
Qed.

Let step c := fun (acc : Outcome ExitMessage (VarList Slice)) name =>
    obind acc (fun vars => add_name c vars name).

Lemma fold_after_exit c (l : list string) m :
    fold_left (step c) l (Exits m) = Exits m.
Proof. induction l as [|x l IH]; simpl; [reflexivity | exact IH]. Qed.

Lemma fold_resolvable c (l : list string) vars :
    Forall (resolvable c) l ->
    fold_left (step c) l (Returns vars) = Returns (flat_map (resolve c) (rev l) ++ vars).
Proof.
    revert vars. induction l as [|x l IH]; intros vars Hall; simpl; [reflexivity|].
    inversion Hall as [|? ? Hx Hl]; subst.
    rewrite add_name_resolvable by exact Hx. rewrite IH by exact Hl.
    rewrite flat_map_app. simpl. rewrite app_nil_r, <- app_assoc. reflexivity.
Qed.

Lemma MakeListFromNames_resolvable c (names : list string) :
    Forall (resolvable c) names ->
    MakeListFromNames c names = Returns (flat_map (resolve c) names).
Proof.
    intros Hall. unfold MakeListFromNames. fold (step c).
    rewrite fold_resolvable by (apply Forall_rev; exact Hall).
    rewrite rev_involutive, app_nil_r. reflexivity.
Qed.

Lemma MakeListFromNames_last_offender c (pre post : list string) name m :
    Forall (resolvable c) post ->
    (forall vars, add_name c vars name = Exits m) ->
    MakeListFromNames c (pre ++ name :: post) = Exits m.
Proof.
    intros Hpost Hname. unfold MakeListFromNames. fold (step c).
    rewrite rev_app_distr. simpl. rewrite <- app_assoc, !fold_left_app.
    rewrite fold_resolvable by (apply Forall_rev; exact Hpost).
    simpl. rewrite Hname. apply fold_after_exit.
Qed.

End NameResolution.

(** C5 (as amended). Pack construction has no test for an empty selection:
    for the empty list MakePack and MakeIndexedPack count zero components
    and go on to [vars.front()], which has no defined behaviour on an empty
    list; MakeListFromNames returns the empty list for an empty list of
    names, so packing by names ends the same way; and no message the code
    prints before it exits is of the kind EmptySelection. *)
Theorem empty_selection_reaches_front {Slice : Type} (c : ContainerIterator.Container Slice) :
  @ContainerIterator.MakePack Slice ContainerIterator.ExitMessage [] = Undefined /\
  @ContainerIterator.MakeIndexedPack Slice ContainerIterator.ExitMessage [] = Undefined /\
  ContainerIterator.MakeListFromNames c [] = Returns [] /\
  ContainerIterator.PackVariables c [] = Undefined /\
  ContainerIterator.PackIndexedVariables c [] = Undefined /\
  (forall m, ContainerIterator.kind_of m <> EmptySelection).
Proof.
  repeat split; try reflexivity. intros [name|name]; discriminate.
Qed.

(** C5 (as stated) fails: for the empty list neither MakePack nor
    MakeIndexedPack exits with a message of the kind EmptySelection. *)
Lemma empty_selection_reports_no_error :
  ~ (exists m, @ContainerIterator.MakePack Z ContainerIterator.ExitMessage [] = Exits m /\
               ContainerIterator.kind_of m = EmptySelection) /\
  ~ (exists m, @ContainerIterator.MakeIndexedPack Z ContainerIterator.ExitMessage [] = Exits m /\
               ContainerIterator.kind_of m = EmptySelection).
Proof.
  split; intros (m & H & _); discriminate H.
Qed.

(** C6 (as amended). A list of names with an offending name is always
    rejected, never resolved by priority, and the message is that of the
    last offending name of the list (the loop runs from the back): when the
    names after it are each found in exactly one map, a name found in both
    maps gives the found-in-both message (AmbiguousField) and a name found
    in neither gives the not-found message (FieldNotFound), whatever
    precedes it; PackVariables and PackIndexedVariables exit likewise. *)
Theorem last_offending_name_decides_the_error {Slice : Type}
    (c : ContainerIterator.Container Slice) (pre post : list string) (name : string) :
  Forall (resolvable c) post ->
  (in_both c name ->
   ContainerIterator.MakeListFromNames c (pre ++ name :: post)
     = Exits (ContainerIterator.found_in_both name) /\
   ContainerIterator.PackVariables c (pre ++ name :: post)
     = Exits (ContainerIterator.found_in_both name) /\
   ContainerIterator.PackIndexedVariables c (pre ++ name :: post)
     = Exits (ContainerIterator.found_in_both name) /\
   ContainerIterator.kind_of (ContainerIterator.found_in_both name) = AmbiguousField) /\
  (in_neither c name ->
   ContainerIterator.MakeListFromNames c (pre ++ name :: post)
     = Exits (ContainerIterator.not_found name) /\
   ContainerIterator.PackVariables c (pre ++ name :: post)
     = Exits (ContainerIterator.not_found name) /\
   ContainerIterator.PackIndexedVariables c (pre ++ name :: post)
     = Exits (ContainerIterator.not_found name) /\
   ContainerIterator.kind_of (ContainerIterator.not_found name) = FieldNotFound).
Proof.
  intros Hpost. split; intros Hname.
  - assert (H : ContainerIterator.MakeListFromNames c (pre ++ name :: post)
                = Exits (ContainerIterator.found_in_both name)).
    { apply MakeListFromNames_last_offender; [exact Hpost|].
      intros vars. apply add_name_in_both, Hname. }
    unfold ContainerIterator.PackVariables, ContainerIterator.PackIndexedVariables.
    rewrite H. repeat split.
  - assert (H : ContainerIterator.MakeListFromNames c (pre ++ name :: post)
                = Exits (ContainerIterator.not_found name)).
    { apply MakeListFromNames_last_offender; [exact Hpost|].
      intros vars. apply add_name_in_neither, Hname. }
    unfold ContainerIterator.PackVariables, ContainerIterator.PackIndexedVariables.
    rewrite H. repeat split.
Qed.

(* --------------------------------------------------------------------- *)
(** ** Variable packs: the copy loop and the recorded offsets *)
(* --------------------------------------------------------------------- *)

Section PackLayout.

Import ContainerIterator.
Context {Slice : Type}.
Implicit Types (v : CellVariable Slice) (vars : VarList Slice).

(** The component views of a variable in the order of the copy loop. *)
Definition components v : list Slice :=
  k ← seq 0 (GetDim v 6); j ← seq 0 (GetDim v 5); i ← seq 0 (GetDim v 4);
  [Get v k j i].

(** The component count of a variable. *)
Definition ncomp v : nat := (GetDim v 6 * GetDim v 5 * GetDim v 4)%nat.

(** The offsets [lo, hi] of the variables laid out one after the other
    from position [start]. *)
Fixpoint offsets vars (start : nat) : list (Z * Z) :=
  match vars with
  | [] => []
  | v :: vars =>
      (Z.of_nat start, Z.of_nat (start + ncomp v) - 1) :: offsets vars (start + ncomp v)
  end.

Definition total_components vars : nat := sum_list (ncomp <$> vars).

Lemma fold_left_ext {A B} (f g : A -> B -> A) (l : list B) (a : A) :
  (forall a x, f a x = g a x) -> fold_left f l a = fold_left g l a.
Proof.
  intros H. revert a. induction l as [|x l IH]; intros a; simpl; [reflexivity|].
  rewrite H. apply IH.
Qed.

Lemma fold_left_bind {A B C} (f : A -> C -> A) (g : B -> list C) (l : list B) (a : A) :
  fold_left f (l ≫= g) a = fold_left (fun a x => fold_left f (g x) a) l a.
Proof.
  revert a. induction l as [|x l IH]; intros a; simpl; [reflexivity|].
  rewrite fold_left_app. apply IH.
Qed.

Definition put (st : list (option Slice) * nat) (x : Slice) : list (option Slice) * nat :=
  let '(host_view, vindex) := st in (<[vindex := Some x]> host_view, S vindex).

Lemma copy_variable_components v st :
  copy_variable v st = fold_left put (components v) st.
Proof.
  unfold copy_variable, components.
  rewrite fold_left_bind. apply fold_left_ext. intros st1 k.
  rewrite fold_left_bind. apply fold_left_ext. intros st2 j.
  rewrite fold_left_bind. apply fold_left_ext. intros [hv vi] i. reflexivity.
Qed.

Lemma length_components v : length (components v) = ncomp v.
Proof.
  unfold components, ncomp.
  assert (Hin : forall (n : nat) (f : nat -> Slice),
    length (seq 0 n ≫= (fun i => [f i])) = n).
  { intros n f. generalize 0%nat. induction n as [|n IH]; intros a; simpl; [reflexivity|].
    rewrite IH. reflexivity. }
  assert (Hout : forall (n m : nat) (f : nat -> list Slice),
    (forall x, length (f x) = m) -> length (seq 0 n ≫= f) = (n * m)%nat).
  { intros n m f Hf. generalize 0%nat. induction n as [|n IH]; intros a; simpl; [reflexivity|].
    rewrite length_app, Hf, IH. reflexivity. }
  rewrite (Hout _ (GetDim v 5 * GetDim v 4)%nat); [lia|].
  intros k. apply Hout. intros j. apply Hin.
Qed.

Lemma insert_at_length {A} (pre rest : list A) (y x : A) :
  <[length pre := x]> (pre ++ y :: rest) = pre ++ x :: rest.
Proof. induction pre as [|a pre IH]; simpl; [reflexivity | f_equal; exact IH]. Qed.

Lemma fold_put (l : list Slice) (pre rest : list (option Slice)) :
  fold_left put l (pre ++ replicate (length l) None ++ rest, length pre)
  = (pre ++ (Some <$> l) ++ rest, (length pre + length l)%nat).
Proof.
  revert pre. induction l as [|x l IH]; intros pre; simpl.
  - rewrite Nat.add_0_r. reflexivity.
  - replace (<[length pre := Some x]> (pre ++ None :: replicate (length l) None ++ rest))
      with ((pre ++ [Some x]) ++ replicate (length l) None ++ rest).
    + replace (S (length pre)) with (length (pre ++ [Some x]))
        by (rewrite length_app; simpl; lia).
      rewrite IH, length_app, <- app_assoc. simpl. f_equal. lia.
    + rewrite <- app_assoc. simpl. rewrite insert_at_length. reflexivity.
Qed.

Lemma count_size_total vars : count_size vars = total_components vars.
Proof.
  unfold count_size, total_components.
  assert (H : forall n, fold_left (fun vsize v =>
              (vsize + GetDim v 6 * GetDim v 5 * GetDim v 4)%nat) vars n
            = (n + sum_list (ncomp <$> vars))%nat).
  { induction vars as [|v vars IH]; intros n; simpl; [lia|].
    rewrite IH. unfold ncomp. rewrite Nat.add_assoc. reflexivity. }
  rewrite H. reflexivity.
Qed.

Lemma count_vars vars n : fold_left (fun nvars _ => S nvars) vars n = (n + length vars)%nat.
Proof.
  revert n. induction vars as [|v vars IH]; intros n; simpl; [lia|]. rewrite IH. lia.
Qed.

(** The copy loop of MakeIndexedPack, started after [pre] entries and
    [pre_lo] variables. *)
Lemma indexed_loop vars (pre rest : list (option Slice)) (pre_lo pre_hi rest_lo rest_hi : list Z) :
  length pre_lo = length pre_hi ->
  fold_left (fun '(host_view, h_ilo, h_ihi, vindex, ivar) v =>
      let h_ilo := <[ivar := Z.of_nat vindex]> h_ilo in
      let '(host_view, vindex) := copy_variable v (host_view, vindex) in
      let h_ihi := <[ivar := Z.of_nat vindex - 1]> h_ihi in
      (host_view, h_ilo, h_ihi, vindex, S ivar))
    vars
    (pre ++ replicate (total_components vars) None ++ rest,
     pre_lo ++ replicate (length vars) 0 ++ rest_lo,
     pre_hi ++ replicate (length vars) 0 ++ rest_hi,
     length pre, length pre_lo)
  = (pre ++ (Some <$> flat_map components vars) ++ rest,
     pre_lo ++ (fst <$> offsets vars (length pre)) ++ rest_lo,
     pre_hi ++ (snd <$> offsets vars (length pre)) ++ rest_hi,
     (length pre + total_components vars)%nat,
     (length pre_lo + length vars)%nat).
Proof.
  revert pre pre_lo pre_hi.
  induction vars as [|v vars IH]; intros pre pre_lo pre_hi Hlen.
  - simpl. rewrite !Nat.add_0_r. reflexivity.
  - cbn [fold_left]. unfold total_components. cbn [fmap list_fmap sum_list sum_list_with].
    rewrite copy_variable_components.
    rewrite <- (length_components v) at 1.
    rewrite replicate_add, <- (app_assoc (replicate (length (components v)) None)).
    rewrite fold_put.
    (* the two index arrays *)
    replace (<[length pre_lo := Z.of_nat (length pre)]>
               (pre_lo ++ replicate (length (v :: vars)) 0 ++ rest_lo))
      with ((pre_lo ++ [Z.of_nat (length pre)]) ++ replicate (length vars) 0 ++ rest_lo).
    2:{ rewrite <- app_assoc. simpl. rewrite insert_at_length. reflexivity. }
    replace (<[length pre_lo := Z.of_nat (length pre + length (components v)) - 1]>
               (pre_hi ++ replicate (length (v :: vars)) 0 ++ rest_hi))
      with ((pre_hi ++ [Z.of_nat (length pre + length (components v)) - 1])
              ++ replicate (length vars) 0 ++ rest_hi).
    2:{ rewrite <- app_assoc. simpl. rewrite Hlen, insert_at_length. reflexivity. }
    rewrite (app_assoc pre).
    replace (length pre + length (components v))%nat
      with (length (pre ++ (Some <$> components v)))
      by (rewrite length_app, length_fmap; reflexivity).
    replace (S (length pre_lo)) with (length (pre_lo ++ [Z.of_nat (length pre)]))
      by (rewrite length_app; simpl; lia).
    fold (total_components vars).
    rewrite IH by (rewrite !length_app, Hlen; reflexivity).
    rewrite !length_app, length_fmap, length_components. simpl.
    rewrite fmap_app, <- !app_assoc. simpl.
    replace (length pre_lo + 1 + length vars)%nat
      with (length pre_lo + S (length vars))%nat by lia.
    rewrite (Nat.add_assoc (length pre)). reflexivity.
Qed.

End PackLayout.

Section PackRoundTrip.

Import ContainerIterator.
Context {Slice : Type}.
Implicit Types (v : CellVariable Slice) (vars : VarList Slice).

Lemma MakeIndexedPack_layout v0 vars :
  @MakeIndexedPack Slice ExitMessage (v0 :: vars)
  = Returns {| pack := {| v_ := Some <$> flat_map components (v0 :: vars);
                          dims_ := (GetDim v0 1, GetDim v0 2, GetDim v0 3,
                                    total_components (v0 :: vars)) |};
               ilo := fst <$> offsets (v0 :: vars) 0;
               ihi := snd <$> offsets (v0 :: vars) 0 |}.
Proof.
  unfold MakeIndexedPack. rewrite count_size_total, count_vars.
  cbn [front obind]. rewrite Nat.add_0_l.
  match goal with
  | |- context [fold_left ?f ?l ?init] =>
      replace init with
        (@nil (option Slice) ++ replicate (total_components (v0 :: vars)) None ++ [],
         @nil Z ++ replicate (length (v0 :: vars)) 0 ++ [],
         @nil Z ++ replicate (length (v0 :: vars)) 0 ++ [],
         length (@nil (option Slice)), length (@nil Z))
        by (rewrite !app_nil_r; reflexivity)
  end.
  rewrite indexed_loop by reflexivity.
  rewrite !app_nil_r. reflexivity.
Qed.

Lemma MakePack_layout v0 vars :
  @MakePack Slice ExitMessage (v0 :: vars)
  = Returns {| v_ := Some <$> flat_map components (v0 :: vars);
               dims_ := (GetDim v0 1, GetDim v0 2, GetDim v0 3,
                         total_components (v0 :: vars)) |}.
Proof.
  unfold MakePack. rewrite count_size_total. cbn [front obind].
  assert (H : forall vars (pre rest : list (option Slice)),
    fold_left (fun st v => copy_variable v st) vars
      (pre ++ replicate (total_components vars) None ++ rest, length pre)
    = (pre ++ (Some <$> flat_map components vars) ++ rest,
       (length pre + total_components vars)%nat)).
  { clear. induction vars as [|v vars IH]; intros pre rest.
    - simpl. rewrite Nat.add_0_r. reflexivity.
    - cbn [fold_left]. unfold total_components. cbn [fmap list_fmap sum_list sum_list_with].
      rewrite copy_variable_components, <- (length_components v) at 1.
      rewrite replicate_add, <- (app_assoc (replicate (length (components v)) None)).
      rewrite fold_put, (app_assoc pre).
      replace (length pre + length (components v))%nat
        with (length (pre ++ (Some <$> components v)))
        by (rewrite length_app, length_fmap; reflexivity).
      fold (total_components vars). rewrite IH.
      rewrite length_app, length_fmap, length_components. simpl.
      rewrite fmap_app, <- !app_assoc, (Nat.add_assoc (length pre)). reflexivity. }
  match goal with
  | |- context [fold_left ?f ?l ?init] =>
      replace init with
        (@nil (option Slice) ++ replicate (total_components (v0 :: vars)) None ++ [],
         length (@nil (option Slice)))
        by (rewrite !app_nil_r; reflexivity)
  end.
  rewrite H, !app_nil_r. reflexivity.
Qed.

Lemma total_components_app vars1 vars2 :
  total_components (vars1 ++ vars2)
  = (total_components vars1 + total_components vars2)%nat.
Proof.
  unfold total_components. rewrite fmap_app, sum_list_with_app. reflexivity.
Qed.

Lemma offsets_lookup vars (start n : nat) v :
  vars !! n = Some v ->
  offsets vars start !! n
  = Some (Z.of_nat (start + total_components (take n vars)),
          Z.of_nat (start + total_components (take n vars) + ncomp v) - 1).
Proof.
  revert start n. induction vars as [|w vars IH]; intros start n Hn.
  - destruct n; discriminate Hn.
  - destruct n as [|n]; simpl in *.
    + injection Hn as ->. unfold total_components. simpl.
      rewrite Nat.add_0_r. reflexivity.
    + rewrite (IH _ _ Hn). unfold total_components. simpl.
      rewrite !Nat.add_assoc. reflexivity.
Qed.

Lemma length_offsets vars start : length (offsets vars start) = length vars.
Proof.
  revert start. induction vars as [|w vars IH]; intros start; simpl; [reflexivity|].
  rewrite IH. reflexivity.
Qed.

Lemma length_flat_components vars :
  length (flat_map components vars) = total_components vars.
Proof.
  induction vars as [|w vars IH]; simpl; [reflexivity|].
  rewrite length_app, length_components, IH. reflexivity.
Qed.

Lemma components_slice vars (n : nat) v :
  vars !! n = Some v ->
  take (ncomp v) (drop (total_components (take n vars)) (flat_map components vars))
  = components v.
Proof.
  revert n. induction vars as [|w vars IH]; intros n Hn.
  - destruct n; discriminate Hn.
  - destruct n as [|n]; simpl in *.
    + injection Hn as ->. unfold total_components. simpl.
      rewrite <- (length_components v). apply take_app_length.
    + unfold total_components. simpl. fold (total_components (take n vars)).
      rewrite <- (length_components w), drop_app_add'; [|reflexivity].
      apply IH, Hn.
Qed.

Lemma resolve_plain (c : Container Slice) (names : list string) :
  Forall (resolvable c) names ->
  (forall name, In name names -> GetSparseMap c !! name = None) ->
  forall (n : nat) name, names !! n = Some name ->
    flat_map (resolve c) names !! n = GetCellVariableMap c !! name.
Proof.
  induction names as [|x names IH]; intros Hall Hplain n name Hn.
  - destruct n; discriminate Hn.
  - inversion Hall as [|? ? Hx Hrest]; subst.
    assert (Hsx : GetSparseMap c !! x = None) by (apply Hplain; left; reflexivity).
    assert (Hrx : exists v, GetCellVariableMap c !! x = Some v /\ resolve c x = [v]).
    { destruct Hx as [[[v Hv] _]|[_ [sv Hs]]]; [|congruence].
      exists v. split; [exact Hv|]. unfold resolve. rewrite Hv, Hsx. reflexivity. }
    destruct Hrx as (v & Hv & Hr). simpl. rewrite Hr. simpl.
    destruct n as [|n]; simpl in *.
    + injection Hn as <-. symmetry. exact Hv.
    + apply IH; [exact Hrest | | exact Hn].
      intros name' Hin. apply Hplain. right. exact Hin.
Qed.

End PackRoundTrip.

(** C3 (as amended). For every ordered list of names each found in exactly
    one of the two maps and standing for at least one variable, the indexed
    pack's variable axis is the concatenation, in list order, of the
    components of the variables the names stand for (one for a plain name,
    those of its vector for a sparse name); one [lo, hi] pair is recorded
    per packed variable, in pack order; the entries lo..hi of the pack are
    exactly that variable's components, with hi - lo + 1 its component
    count and lo the number of components packed before it; the length of
    the variable axis is the sum of all component counts; and when no name
    is a sparse one the n-th pair belongs to the n-th name. *)
Theorem indexed_pack_round_trip {Slice : Type}
    (c : ContainerIterator.Container Slice) (names : list string) :
  Forall (resolvable c) names ->
  flat_map (resolve c) names <> [] ->
  let vars := flat_map (resolve c) names in
  exists p,
    ContainerIterator.PackIndexedVariables c names = Returns p /\
    ContainerIterator.v_ (ContainerIterator.pack p) = Some <$> flat_map components vars /\
    length (ContainerIterator.v_ (ContainerIterator.pack p)) = sum_list (ncomp <$> vars) /\
    snd (ContainerIterator.dims_ (ContainerIterator.pack p)) = sum_list (ncomp <$> vars) /\
    length (ContainerIterator.ilo p) = length vars /\
    length (ContainerIterator.ihi p) = length vars /\
    (forall (n : nat) v, vars !! n = Some v ->
       exists lo hi : Z,
         ContainerIterator.ilo p !! n = Some lo /\
         ContainerIterator.ihi p !! n = Some hi /\
         lo = Z.of_nat (sum_list (ncomp <$> take n vars)) /\
         hi - lo + 1 = Z.of_nat (ncomp v) /\
         take (ncomp v) (drop (Z.to_nat lo) (ContainerIterator.v_ (ContainerIterator.pack p)))
         = Some <$> components v) /\
    ((forall name, In name names -> ContainerIterator.GetSparseMap c !! name = None) ->
     forall (n : nat) name, names !! n = Some name ->
       vars !! n = ContainerIterator.GetCellVariableMap c !! name).
Proof.
  intros Hall Hne vars.
  unfold ContainerIterator.PackIndexedVariables.
  rewrite MakeListFromNames_resolvable by exact Hall. fold vars. cbn [obind].
  destruct vars as [|v0 rest] eqn:Evars; [contradiction|].
  rewrite MakeIndexedPack_layout. eexists. split; [reflexivity|]. cbn -[flat_map offsets].
  repeat split.
  - rewrite length_fmap, length_flat_components. reflexivity.
  - rewrite length_fmap, length_offsets. reflexivity.
  - rewrite length_fmap, length_offsets. reflexivity.
  - intros n v Hn.
    exists (Z.of_nat (total_components (take n (v0 :: rest)))),
           (Z.of_nat (total_components (take n (v0 :: rest)) + ncomp v) - 1).
    rewrite !list_lookup_fmap, (offsets_lookup _ 0 n v Hn). simpl.
    repeat split.
    + lia.
    + rewrite Nat2Z.id, <- fmap_drop, <- fmap_take. f_equal.
      apply (components_slice (v0 :: rest) n v Hn).
  - intros Hplain n name Hn. rewrite <- Evars. unfold vars.
    apply resolve_plain; assumption.
Qed.

(* --------------------------------------------------------------------- *)
(** ** Variable packs: a container to evaluate on *)
(* --------------------------------------------------------------------- *)

Module PackExample.
Import ContainerIterator.

(** Variables whose component views are numbered, so that they can be told
    apart: [a] has two components, [b] one, [c] two. *)
Definition a : CellVariable Z :=
  {| GetDim := fun d => if decide (d = 4) then 2%nat else 1%nat;
     Get := fun k j i => 10 + Z.of_nat i |}.
Definition b : CellVariable Z :=
  {| GetDim := fun _ => 1%nat; Get := fun k j i => 20 |}.
Definition c : CellVariable Z :=
  {| GetDim := fun d => if decide (d = 5) then 2%nat else 1%nat;
     Get := fun k j i => 30 + Z.of_nat j |}.
Definition s1 : CellVariable Z :=
  {| GetDim := fun _ => 1%nat; Get := fun k j i => 40 |}.
Definition s2 : CellVariable Z :=
  {| GetDim := fun _ => 1%nat; Get := fun k j i => 41 |}.

(** "amb" is the name of a cell variable and of a sparse variable; the
    sparse variable "s" has two variables and "none" has none. *)
Definition container : Container Z :=
  {| GetCellVariableMap := {[ "a" := a; "b" := b; "c" := c; "amb" := b ]};
     GetSparseMap := {[ "s" := {| GetVector := [s1; s2] |};
                        "amb" := {| GetVector := [s1] |};
                        "none" := {| GetVector := [] |} ]} |}.

End PackExample.

Lemma PackExample_abc_resolvable :
  Forall (resolvable PackExample.container) ["a"; "b"; "c"].
Proof.
  repeat (constructor; [left; split; [eexists; reflexivity | reflexivity] | ]).
  constructor.
Qed.

(** The theorem at the names "a", "b", "c": the pair recorded for "b" is
    [2, 2] and the entry it addresses is the component of [b]. *)
Lemma indexed_pack_round_trip_witness :
  exists p,
    ContainerIterator.PackIndexedVariables PackExample.container ["a"; "b"; "c"] = Returns p /\
    ContainerIterator.ilo p !! 1%nat = Some 2 /\
    ContainerIterator.ihi p !! 1%nat = Some 2 /\
    take 1 (drop 2 (ContainerIterator.v_ (ContainerIterator.pack p))) = [Some 20].
Proof.
  destruct (indexed_pack_round_trip PackExample.container ["a"; "b"; "c"]
              PackExample_abc_resolvable ltac:(discriminate))
    as (p & Hp & _ & _ & _ & _ & _ & Hvar & _).
  destruct (Hvar 1%nat PackExample.b eq_refl) as (lo & hi & Hlo & Hhi & Elo & Ehi & Hslice).
  exists p. split; [exact Hp|].
  assert (lo = 2) as -> by (rewrite Elo; reflexivity).
  assert (hi = 2) as -> by (change (Z.of_nat (ncomp PackExample.b)) with 1 in Ehi; lia).
  repeat split; assumption.
Defined.

(** C3 (as stated) fails on names that are all present in the container:
    a name present in both maps makes the construction exit; a sparse name
    without variables leads to [vars.front()] on an empty list; and with a
    sparse name of two variables the pair at the position of the second
    name addresses the second variable of the sparse name, not the data of
    the second name. *)
Lemma present_names_without_round_trip :
  (in_both PackExample.container "amb" /\
   ContainerIterator.PackIndexedVariables PackExample.container ["amb"]
   = Exits (ContainerIterator.found_in_both "amb")) /\
  (is_Some (ContainerIterator.GetSparseMap PackExample.container !! "none") /\
   ContainerIterator.PackIndexedVariables PackExample.container ["none"] = Undefined) /\
  (exists p,
     ContainerIterator.PackIndexedVariables PackExample.container ["s"; "b"] = Returns p /\
     ContainerIterator.ilo p = [0; 1; 2] /\ ContainerIterator.ihi p = [0; 1; 2] /\
     ContainerIterator.v_ (ContainerIterator.pack p) = [Some 40; Some 41; Some 20] /\
     components PackExample.b = [20]).
Proof.
  repeat split; try (eexists; reflexivity).
  eexists. repeat split.
Qed.

(** C6 (as stated) fails: a list with a name found in both maps exits with
    the not-found message when a later name of the list is missing, and a
    list with a missing name exits with the found-in-both message when a
    later name is found in both maps. *)
Lemma ambiguous_name_reported_as_missing :
  (in_both PackExample.container "amb" /\
   ContainerIterator.PackVariables PackExample.container ["amb"; "missing"]
   = Exits (ContainerIterator.not_found "missing") /\
   ContainerIterator.kind_of (ContainerIterator.not_found "missing") <> AmbiguousField) /\
  (in_neither PackExample.container "missing" /\
   ContainerIterator.PackVariables PackExample.container ["missing"; "amb"]
   = Exits (ContainerIterator.found_in_both "amb") /\
   ContainerIterator.kind_of (ContainerIterator.found_in_both "amb") <> FieldNotFound).
Proof.
  repeat split; try (eexists; reflexivity); discriminate.
Qed.

(** The theorem at the list "a", "amb", "missing", "b": the last offending
    name is "missing". *)
Lemma last_offending_name_decides_the_error_witness :
  ContainerIterator.PackVariables PackExample.container ["a"; "amb"; "missing"; "b"]
  = Exits (ContainerIterator.not_found "missing").
Proof.
  refine (proj1 (proj2 (proj2
    (last_offending_name_decides_the_error PackExample.container
       ["a"; "amb"] ["b"] "missing" _) _))).
  - repeat (constructor; [left; split; [eexists; reflexivity | reflexivity] | ]).
    constructor.
  - split; reflexivity.
Defined.

(** The theorem at a start reading of 2^64 - 1 and a stop reading of 5. *)
Lemma BlockTimer_diff_nonneg_witness :
  double_nonneg
    (BlockTimer.diff {| BlockTimer.cost_ := S754_zero false;
                        BlockTimer.start_ := 2 ^ 64 - 1 |} 5) = true.
Proof.
  refine (proj1 (BlockTimer_diff_nonneg (S754_zero false) (2 ^ 64 - 1) 5 _ _)); lia.
Defined.

(* --------------------------------------------------------------------- *)
(** ** BiCGStab: a solver and a partition to evaluate on *)
(* --------------------------------------------------------------------- *)

Module BiCGStabExample.
Import Mesh BiCGStab.

(** The solver [Init] sets up as the first one (suffix "0"), with the names
    the Poisson package registers and a one-point stencil. *)
Definition solver : Solver double :=
  {| error_tol := SF64div (double_of_Z 1) (double_of_Z 1000000);
     sp_accessor := {| ioff := [0]; joff := [0]; koff := [0] |};
     max_iters := 10; check_interval := 1; bicgstab_cntr := 0;
     fail_flag := false; warn_flag := true;
     spm_name := "poisson_sparse_matrix"; sol_name := "potential"; rhs_name := "rhs";
     res := "res0"; res0 := "res_00"; vk := "vk0"; pk := "pk0"; tk := "tk0";
     solver_name := "internal_bicgstab_0";
     rhoi_old := S754_zero false; omega := S754_zero false; alpha := S754_zero false;
     val := fun _ => S754_zero false |}.

(** One block with the interior cells i = 0, 1 (j = k = 0), every field
    with one component; the matrix is diag(2, 4), the right-hand side is
    [rhs0, rhs1] and every other field is zero. *)
Definition mesh (rhs0 rhs1 : Z) : MeshData double :=
  {| NumBlocks := 1;
     GetBoundsI := {| s := 0; e := 1 |};
     GetBoundsJ := {| s := 0; e := 0 |};
     GetBoundsK := {| s := 0; e := 0 |};
     GetNdim := 1;
     Dx := fun _ => double_of_Z 1;
     NumComponents := fun _ => 1%nat;
     data := fun nm c '(b, k, j, i) =>
       if decide (nm = "poisson_sparse_matrix")
       then (if i =? 0 then double_of_Z 2 else double_of_Z 4)
       else if decide (nm = "rhs")
       then (if i =? 0 then double_of_Z rhs0 else double_of_Z rhs1)
       else S754_zero false |}.

Definition store (rhs0 rhs1 : Z) : Store double := fun _ => mesh rhs0 rhs1.

(** The value of a one-component field at the cell i of block 0. *)
Definition at_cell (st : Store double) (nm : string) (i : Z) : double :=
  data (st 0%nat) nm 0%nat (0%nat, 0, 0, i).

End BiCGStabExample.

(* --------------------------------------------------------------------- *)
(** ** BiCGStab: the reduction tasks of each partition's list *)
(* --------------------------------------------------------------------- *)

(** The task of a list whose contribution the reduction of [h] combines. *)
Definition contributes {R} (sv : BiCGStab.Solver R) (h : BiCGStab.Handle) : TaskLists.TaskFn :=
  match h with
  | BiCGStab.global_res0 => TaskLists.T_InitializeBiCGStab BiCGStab.global_res0
  | BiCGStab.rhoi =>
      TaskLists.T_DotProduct (BiCGStab.res0 sv) (BiCGStab.res sv) BiCGStab.rhoi
  | BiCGStab.r0_dot_vk =>
      TaskLists.T_DotProduct (BiCGStab.res0 sv) (BiCGStab.vk sv) BiCGStab.r0_dot_vk
  | BiCGStab.t_dot_s | BiCGStab.t_dot_t =>
      TaskLists.T_OmegaDotProd BiCGStab.t_dot_s BiCGStab.t_dot_t
  | BiCGStab.global_res => TaskLists.T_Update_x_res BiCGStab.global_res
  end.

Ltac in_list := repeat (first [left; reflexivity | right]).

Ltac not_in_list H :=
  simpl in H; repeat (destruct H as [H|H]; [discriminate H|]); destruct H.

(** C4 (as amended). In the lists CreateTaskList builds, the StartReduce
    task of each of the six handles is in the list of partition 0 only,
    while the CheckReduce task of each handle is in the list of every
    partition.  In the list of partition 0 the StartReduce task depends on
    the task that contributes to the handle and the CheckReduce task on the
    StartReduce task; in every other list the CheckReduce task of the
    initial residual, of rho_i, of t.s and of t.t depends on the local
    contributing task in the place of the start task. *)
Theorem reduce_tasks_of_each_partition {R : Type}
    (sv : BiCGStab.Solver R) (begin : TaskLists.TaskID) (i : Z) (h : BiCGStab.Handle) :
  let l := TaskLists.task_list sv begin i in
  (TaskLists.issues l (TaskLists.T_StartReduce h) <-> i = 0) /\
  TaskLists.issues l (TaskLists.T_CheckReduce h) /\
  (i = 0 ->
   exists n m,
     TaskLists.id_of l (contributes sv h) m /\
     TaskLists.dependency_of l (TaskLists.T_StartReduce h) [m] /\
     TaskLists.id_of l (TaskLists.T_StartReduce h) n /\
     TaskLists.dependency_of l (TaskLists.T_CheckReduce h) [n]) /\
  (i <> 0 ->
   In h [BiCGStab.global_res0; BiCGStab.rhoi; BiCGStab.t_dot_s; BiCGStab.t_dot_t] ->
   exists m,
     TaskLists.id_of l (contributes sv h) m /\
     TaskLists.dependency_of l (TaskLists.T_CheckReduce h) [m]).
Proof.
  intros l. subst l.
  unfold TaskLists.issues, TaskLists.id_of, TaskLists.dependency_of.
  destruct (Z.eq_dec i 0) as [->|Hi].
  - set (fns := map TaskLists.fn _). vm_compute in fns.
    set (ids := map (fun t => (TaskLists.fn t, TaskLists.id t)) _). vm_compute in ids.
    set (deps := map (fun t => (TaskLists.fn t, TaskLists.dependency t)) _).
    vm_compute in deps. subst fns ids deps.
    split; [split; [reflexivity | intros _; destruct h; in_list] |].
    split; [destruct h; in_list |].
    split; [intros _ | intros Hne; contradiction].
    destruct h; do 2 eexists; (split; [|split; [|split]]); in_list.
  - assert (E : (i =? 0) = false) by (apply Z.eqb_neq; exact Hi).
    unfold TaskLists.task_list, TaskLists.CreateTaskList. rewrite E.
    set (fns := map TaskLists.fn _). vm_compute in fns.
    set (ids := map (fun t => (TaskLists.fn t, TaskLists.id t)) _). vm_compute in ids.
    set (deps := map (fun t => (TaskLists.fn t, TaskLists.dependency t)) _).
    vm_compute in deps. subst fns ids deps.
    split; [split; [intros H; exfalso; destruct h; not_in_list H
                   | intros H0; contradiction] |].
    split; [destruct h; in_list |].
    split; [intros H0; contradiction | intros _ H].
    simpl in H; destruct H as [<-|[<-|[<-|[<-|[]]]]];
      eexists; (split; in_list).
Qed.

(** C4 (as stated) fails: the list of partition 1 contains the CheckReduce
    task of every handle. *)
Lemma other_partitions_issue_CheckReduce :
  Forall (fun h => TaskLists.issues (TaskLists.task_list BiCGStabExample.solver [] 1)
                     (TaskLists.T_CheckReduce h))
         [BiCGStab.global_res0; BiCGStab.rhoi; BiCGStab.r0_dot_vk;
          BiCGStab.t_dot_s; BiCGStab.t_dot_t; BiCGStab.global_res].
Proof.
  unfold TaskLists.issues.
  set (fns := map TaskLists.fn _). vm_compute in fns. subst fns.
  repeat (constructor; [in_list|]). constructor.
Qed.

(* --------------------------------------------------------------------- *)
(** ** Mesh data: packs of one-component fields and cell-local loops *)
(* --------------------------------------------------------------------- *)

Section MeshLemmas.

Import Mesh.
Context {R : Type} {RO : RealOps R}.
Implicit Types (st : Store R) (v : MeshPack) (c : Cell).

(** Every name of the list is a field with exactly one component. *)
Definition scalar_fields st (u : Ptr) (names : list string) : Prop :=
  forall nm, In nm names -> NumComponents (st u) nm = 1%nat.

Lemma slots_scalar_fields st u names :
  scalar_fields st u names ->
  slots (PackVariables st u names) = map (fun nm => (nm, 0%nat)) names.
Proof.
  unfold PackVariables. simpl. induction names as [|nm names IH]; intros H; [reflexivity|].
  simpl. rewrite H by (left; reflexivity). simpl. f_equal.
  apply IH. intros x Hx. apply H. right. exact Hx.
Qed.

Lemma first_index_scalar (names : list string) nm (n0 : Z) :
  In nm names -> 0 <= n0 ->
  n0 <= first_index nm (map (fun x => (x, 0%nat)) names) n0 /\
  map (fun x => (x, 0%nat)) names
    !! Z.to_nat (first_index nm (map (fun x => (x, 0%nat)) names) n0 - n0)
  = Some (nm, 0%nat).
Proof.
  revert n0. induction names as [|x names IH]; intros n0 Hin Hn0; [destruct Hin|].
  simpl. destruct (decide (x = nm)) as [->|Hne].
  - split; [lia|]. rewrite Z.sub_diag. reflexivity.
  - destruct Hin as [->|Hin]; [contradiction|].
    destruct (IH (n0 + 1) Hin ltac:(lia)) as [Hle Hlk]. split; [lia|].
    replace (Z.to_nat (first_index nm (map (fun x0 => (x0, 0%nat)) names) (n0 + 1) - n0))
      with (S (Z.to_nat (first_index nm (map (fun x0 => (x0, 0%nat)) names) (n0 + 1)
                         - (n0 + 1)))) by lia.
    exact Hlk.
Qed.

(** In a pack of one-component fields [imap[nm].first] is the entry of the
    field [nm]. *)
Lemma slot_imap_first st u names nm :
  scalar_fields st u names -> In nm names ->
  slot (PackVariables st u names) (imap_first (PackVariables st u names) nm)
  = Some (nm, 0%nat).
Proof.
  intros Hs Hin. unfold slot, imap_first. rewrite slots_scalar_fields by exact Hs.
  destruct (first_index_scalar names nm 0 Hin ltac:(lia)) as [Hle Hlk].
  rewrite Z.sub_0_r in Hlk.
  destruct (first_index nm _ 0 <? 0) eqn:E; [apply Z.ltb_lt in E; lia | exact Hlk].
Qed.

(** The entries 0 and 1 of a pack of two one-component fields. *)
Lemma slot_pair st u n1 n2 :
  scalar_fields st u [n1; n2] ->
  slot (PackVariables st u [n1; n2]) 0 = Some (n1, 0%nat) /\
  slot (PackVariables st u [n1; n2]) 1 = Some (n2, 0%nat).
Proof.
  intros Hs. unfold slot. rewrite slots_scalar_fields by exact Hs. split; reflexivity.
Qed.

(** The two stores hold the same values at the cell [c]. *)
Definition agree_at c st st' : Prop :=
  forall p nm k, data (st p) nm k c = data (st' p) nm k c.

Lemma agree_at_refl c st : agree_at c st st.
Proof. intros p nm k. reflexivity. Qed.

Lemma agree_at_trans c st1 st2 st3 :
  agree_at c st1 st2 -> agree_at c st2 st3 -> agree_at c st1 st3.
Proof. intros H1 H2 p nm k. rewrite H1. apply H2. Qed.

Lemma agree_at_sym c st1 st2 : agree_at c st1 st2 -> agree_at c st2 st1.
Proof. intros H p nm k. symmetry. apply H. Qed.

(** A loop whose body writes the cell it is at only, from values of that
    cell only, acts on each cell as the body run on the initial store. *)
Lemma fold_cells_local (body : Store R -> Cell -> Store R) (l : list Cell) :
  (forall st c c', c' <> c -> agree_at c' (body st c) st) ->
  (forall st st' c, agree_at c st st' -> agree_at c (body st c) (body st' c)) ->
  List.NoDup l ->
  forall st c,
    (In c l -> agree_at c (fold_left body l st) (body st c)) /\
    (~ In c l -> agree_at c (fold_left body l st) st).
Proof.
  intros Hframe Hlocal. induction 1 as [|x l Hx Hnd IH]; intros st c; simpl.
  - split; [intros [] | intros _; apply agree_at_refl].
  - destruct (IH (body st x) c) as [IHin IHout]. split.
    + intros [->|Hin].
      * apply IHout. exact Hx.
      * assert (Hne : c <> x) by (intros ->; contradiction).
        eapply agree_at_trans; [apply IHin, Hin|].
        apply Hlocal, Hframe, Hne.
    + intros Hnot. eapply agree_at_trans.
      * apply IHout. intros Hin. apply Hnot. right. exact Hin.
      * apply Hframe. intros ->. apply Hnot. left. reflexivity.
Qed.

Lemma pack_get_agree c st st' v (b : nat) (n k j i : Z) :
  c = (b, k, j, i) -> agree_at c st st' ->
  pack_get st v b n k j i = pack_get st' v b n k j i.
Proof.
  intros -> H. unfold pack_get. destruct (slot v n) as [[nm cmp]|]; [apply H | reflexivity].
Qed.

Lemma pack_set_other c st v (b : nat) (n k j i : Z) (x : R) :
  c <> (b, k, j, i) -> agree_at c (pack_set st v b n k j i x) st.
Proof.
  intros Hne p nm cmp. unfold pack_set.
  destruct (slot v n) as [[nm' cmp']|]; [|reflexivity].
  unfold store_set. destruct (decide (p = owner v)) as [->|]; [|reflexivity].
  simpl. destruct (decide _) as [(_ & _ & E)|]; [congruence | reflexivity].
Qed.

Lemma pack_set_agree c st st' v (b : nat) (n k j i : Z) (x x' : R) :
  agree_at c st st' -> x = x' ->
  agree_at c (pack_set st v b n k j i x) (pack_set st' v b n k j i x').
Proof.
  intros H -> p nm cmp. unfold pack_set.
  destruct (slot v n) as [[nm' cmp']|]; [|apply H].
  unfold store_set. destruct (decide (p = owner v)) as [->|]; [|apply H].
  simpl. destruct (decide _); [reflexivity | apply H].
Qed.

(** What a write through a pack leaves at the written cell. *)
Lemma pack_set_here st v (b : nat) (n k j i : Z) (x : R) nm cmp p nm' cmp' :
  slot v n = Some (nm, cmp) ->
  data (pack_set st v b n k j i x p) nm' cmp' (b, k, j, i)
  = if decide (p = owner v /\ nm' = nm /\ cmp' = cmp) then x
    else data (st p) nm' cmp' (b, k, j, i).
Proof.
  intros Hs. unfold pack_set. rewrite Hs. unfold store_set.
  destruct (decide (p = owner v)) as [->|Hp]; simpl;
    repeat case_decide; try reflexivity; exfalso; intuition congruence.
Qed.

Lemma In_cells (be ks ke js je is_ ie : Z) (b : nat) (k j i : Z) :
  In (b, k, j, i) (cells 0 be ks ke js je is_ ie) <->
  0 <= Z.of_nat b <= be /\ ks <= k <= ke /\ js <= j <= je /\ is_ <= i <= ie.
Proof.
  unfold cells. rewrite <- list_elem_of_In. split.
  - intros (b0 & (k0 & (j0 & (i0 & Hret & Hi)%list_elem_of_bind & Hj)%list_elem_of_bind
                   & Hk)%list_elem_of_bind & Hb)%list_elem_of_bind.
    apply list_elem_of_ret in Hret. injection Hret as -> -> -> ->.
    apply list_elem_of_In, In_range in Hb, Hk, Hj, Hi. lia.
  - intros (Hb & Hk & Hj & Hi).
    apply list_elem_of_bind. exists (Z.of_nat b). split; [|apply list_elem_of_In, In_range, Hb].
    apply list_elem_of_bind. exists k. split; [|apply list_elem_of_In, In_range, Hk].
    apply list_elem_of_bind. exists j. split; [|apply list_elem_of_In, In_range, Hj].
    apply list_elem_of_bind. exists i. split; [|apply list_elem_of_In, In_range, Hi].
    apply list_elem_of_ret. rewrite Nat2Z.id. reflexivity.
Qed.

Lemma NoDup_range (lo hi : Z) : NoDup (range lo hi).
Proof.
  unfold range. apply (NoDup_fmap_2_strong _ (seq 0 _)); [|apply NoDup_seq].
  intros x y _ _ E. lia.
Qed.

Lemma NoDup_cells (be ks ke js je is_ ie : Z) :
  List.NoDup (cells 0 be ks ke js je is_ ie).
Proof.
  apply NoDup_ListNoDup. unfold cells.
  apply NoDup_bind; [| |apply NoDup_range].
  - intros b1 b2 y Hb1 Hb2
      (k1 & (j1 & (i1 & E1%list_elem_of_ret & _)%list_elem_of_bind & _)%list_elem_of_bind
          & _)%list_elem_of_bind
      (k2 & (j2 & (i2 & E2%list_elem_of_ret & _)%list_elem_of_bind & _)%list_elem_of_bind
          & _)%list_elem_of_bind.
    apply list_elem_of_In, In_range in Hb1, Hb2. subst y. injection E2 as E _ _ _. lia.
  - intros b _. apply NoDup_bind; [| |apply NoDup_range].
    + intros k1 k2 y _ _
        (j1 & (i1 & E1%list_elem_of_ret & _)%list_elem_of_bind & _)%list_elem_of_bind
        (j2 & (i2 & E2%list_elem_of_ret & _)%list_elem_of_bind & _)%list_elem_of_bind.
      congruence.
    + intros k _. apply NoDup_bind; [| |apply NoDup_range].
      * intros j1 j2 y _ _ (i1 & E1%list_elem_of_ret & _)%list_elem_of_bind
                           (i2 & E2%list_elem_of_ret & _)%list_elem_of_bind.
        congruence.
      * intros j _. apply NoDup_bind; [| |apply NoDup_range].
        -- intros i1 i2 y _ _ E1%list_elem_of_ret E2%list_elem_of_ret. congruence.
        -- intros i _. apply NoDup_singleton.
Qed.

End MeshLemmas.

(* --------------------------------------------------------------------- *)
(** ** BiCGStab: the dot products *)
(* --------------------------------------------------------------------- *)

Section DotProducts.

Import Mesh BiCGStab.
Context {R : Type} {RO : RealOps R}.
Implicit Types (st : Store R) (sv : Solver R).

(** The blocks and interior cells of a partition, in loop order. *)
Definition interior_cells (md : MeshData R) : list Cell :=
  cells 0 (Z.of_nat (NumBlocks md) - 1)
        (s (GetBoundsK md)) (e (GetBoundsK md))
        (s (GetBoundsJ md)) (e (GetBoundsJ md))
        (s (GetBoundsI md)) (e (GetBoundsI md)).

(** The sum over all blocks and interior cells of the products of two
    one-component fields, added up from zero in loop order. *)
Definition dot st (u : Ptr) (vec1 vec2 : string) : R :=
  fold_left (fun lsum c => Radd lsum (Rmul (data (st u) vec1 0%nat c)
                                           (data (st u) vec2 0%nat c)))
            (interior_cells (st u)) Rzero.

(** DotProduct run by the lists of the partitions [us] one after the other
    on the solver they share. *)
Definition DotProduct_over sv st (us : list Ptr) (vec1 vec2 : string) (acc : Handle)
    : Solver R :=
  fold_left (fun sv u => fst (fst (DotProduct sv st u vec1 vec2 acc))) us sv.

Lemma par_reduce_pure (bs be ks ke js je is_ ie : Z)
    (term : Store R -> nat -> Z -> Z -> Z -> R) st :
  par_reduce bs be ks ke js je is_ ie
    (fun st b k j i lsum => (st, Radd lsum (term st b k j i))) st
  = (st, fold_left (fun lsum '(b, k, j, i) => Radd lsum (term st b k j i))
                   (cells bs be ks ke js je is_ ie) Rzero).
Proof.
  unfold par_reduce. generalize (cells bs be ks ke js je is_ ie) as l.
  generalize (@Rzero R RO) as z.
  intros z l. revert z. induction l as [|[[[b k] j] i] l IH]; intros z; simpl;
    [reflexivity | apply IH].
Qed.

Lemma pack_dot st u n1 n2 (i1 i2 : Z) nm1 nm2 :
  slot (PackVariables st u [n1; n2]) i1 = Some (nm1, 0%nat) ->
  slot (PackVariables st u [n1; n2]) i2 = Some (nm2, 0%nat) ->
  fold_left (fun lsum '(b, k, j, i) =>
               Radd lsum (Rmul (pack_get st (PackVariables st u [n1; n2]) b i1 k j i)
                               (pack_get st (PackVariables st u [n1; n2]) b i2 k j i)))
            (interior_cells (st u)) Rzero
  = dot st u nm1 nm2.
Proof.
  intros H1 H2. unfold dot. apply fold_left_ext.
  intros lsum [[[b k] j] i]. unfold pack_get. rewrite H1, H2. reflexivity.
Qed.

Lemma DotProduct_accumulates sv st u vec1 vec2 acc :
  scalar_fields st u [vec1; vec2] ->
  DotProduct sv st u vec1 vec2 acc
  = (set_val sv acc (Radd (val sv acc) (dot st u vec1 vec2)), st, complete).
Proof.
  intros Hs. destruct (slot_pair st u vec1 vec2 Hs) as [H0 H1].
  unfold DotProduct. rewrite par_reduce_pure.
  unfold GetDim5. cbn [owner PackVariables].
  fold (interior_cells (st u)). fold (PackVariables st u [vec1; vec2]).
  rewrite (pack_dot st u vec1 vec2 0 1 vec1 vec2 H0 H1). reflexivity.
Qed.

Lemma OmegaDotProd_accumulates sv st u hs ht :
  scalar_fields st u [tk sv; res sv] ->
  OmegaDotProd sv st u hs ht
  = (let sv1 := set_val sv hs (Radd (val sv hs) (dot st u (tk sv) (res sv))) in
     set_val sv1 ht (Radd (val sv1 ht) (dot st u (tk sv) (tk sv))),
     st, complete).
Proof.
  intros Hs. destruct (slot_pair st u (tk sv) (res sv) Hs) as [H0 H1].
  unfold OmegaDotProd. rewrite !par_reduce_pure.
  unfold GetDim5. cbn [owner PackVariables].
  fold (interior_cells (st u)). fold (PackVariables st u [tk sv; res sv]).
  rewrite (pack_dot st u _ _ 0 1 _ _ H0 H1), (pack_dot st u _ _ 0 0 _ _ H0 H0).
  reflexivity.
Qed.

Lemma val_set_val sv h x h' :
  val (set_val sv h x) h' = if decide (h' = h) then x else val sv h'.
Proof. reflexivity. Qed.

Lemma DotProduct_over_accumulates sv st (us : list Ptr) vec1 vec2 acc :
  (forall u, In u us -> scalar_fields st u [vec1; vec2]) ->
  val (DotProduct_over sv st us vec1 vec2 acc) acc
  = fold_left (fun a u => Radd a (dot st u vec1 vec2)) us (val sv acc).
Proof.
  unfold DotProduct_over. revert sv.
  induction us as [|u us IH]; intros sv Hs; simpl; [reflexivity|].
  rewrite IH by (intros u' Hu'; apply Hs; right; exact Hu').
  rewrite DotProduct_accumulates by (apply Hs; left; reflexivity).
  simpl. rewrite decide_True by reflexivity. reflexivity.
Qed.

End DotProducts.

(** The mesh data with every value of every field replaced by 0.0, every
    field with one component. *)
Definition zero_fields (st : Mesh.Store double) : Mesh.Store double :=
  fun p =>
    {| Mesh.NumBlocks := Mesh.NumBlocks (st p);
       Mesh.GetBoundsI := Mesh.GetBoundsI (st p);
       Mesh.GetBoundsJ := Mesh.GetBoundsJ (st p);
       Mesh.GetBoundsK := Mesh.GetBoundsK (st p);
       Mesh.GetNdim := Mesh.GetNdim (st p);
       Mesh.Dx := Mesh.Dx (st p);
       Mesh.NumComponents := fun _ => 1%nat;
       Mesh.data := fun _ _ _ => S754_zero false |}.

Lemma dot_zero_fields (st : Mesh.Store double) (u : Mesh.Ptr) (vec1 vec2 : string) :
  dot (zero_fields st) u vec1 vec2 = S754_zero false.
Proof.
  unfold dot. generalize (interior_cells (zero_fields st u)) as l.
  induction l as [|c l IH]; [reflexivity | exact IH].
Qed.

(** Adding 0.0 leaves every double but -0.0 as it is. *)
Lemma SF64add_zero (x : double) :
  SF64add x (S754_zero false) = if SFeqb x (S754_zero false) then S754_zero false else x.
Proof. destruct x as [[|]|[|]| |[|] m e]; reflexivity. Qed.

Lemma fold_add_zeros {A} (us : list A) (c : double) :
  SFeqb (fold_left (fun a _ => SF64add a (S754_zero false)) us c) (S754_zero false)
  = SFeqb c (S754_zero false) /\
  fold_left (fun a _ => SF64add a (S754_zero false)) us (S754_zero false) = S754_zero false.
Proof.
  split.
  - revert c. induction us as [|u us IH]; intros c; [reflexivity|].
    cbn [fold_left]. rewrite IH, SF64add_zero.
    destruct (SFeqb c (S754_zero false)) eqn:E; [reflexivity | exact E].
  - induction us as [|u us IH]; [reflexivity | exact IH].
Qed.


Lemma BiCGStabExample_scalar_fields (rhs0 rhs1 : Z) (u : Mesh.Ptr) (names : list string) :
  scalar_fields (BiCGStabExample.store rhs0 rhs1) u names.
Proof. intros nm _. reflexivity. Qed.



(* --------------------------------------------------------------------- *)
(** ** BiCGStab: the initial norm *)
(* --------------------------------------------------------------------- *)

(** C1. On one block with the interior cells i = 0, 1 and the right-hand
    side [2, 12], InitializeBiCGStab leaves 2 + 12 = 14 in the initial-norm
    accumulator, not the sum of squares 4 + 144 = 148, and the completion
    task of the first cycle replaces it by sqrt(14). *)
Theorem InitializeBiCGStab_adds_the_rhs_unsquared :
  let '(sv1, st1) := BiCGStab.run_init 0%nat 0%nat BiCGStabExample.solver
                                       (BiCGStabExample.store 2 12) in
  BiCGStab.val sv1 BiCGStab.global_res0 = double_of_Z 14 /\
  dot (BiCGStabExample.store 2 12) 0%nat "rhs" "rhs" = double_of_Z 148 /\
  BiCGStabExample.at_cell st1 "res_00" 0 = double_of_Z 2 /\
  BiCGStabExample.at_cell st1 "res_00" 1 = double_of_Z 12 /\
  let '(sv2, _) := BiCGStab.CheckConvergence sv1 0 true in
  BiCGStab.val sv2 BiCGStab.global_res0 = SF64sqrt (double_of_Z 14).
Proof. vm_compute. repeat split. Qed.

(* --------------------------------------------------------------------- *)
(** ** BiCGStab: the cell updates *)
(* --------------------------------------------------------------------- *)

Section CellUpdates.

Import Mesh BiCGStab.
Context {R : Type} {RO : RealOps R}.
Implicit Types (st : Store R) (sv : Solver R).

(** A loop that assigns, through the entry [n] of a pack, a value computed
    from the cell it is at: every cell of the index space ends with the
    value computed on the initial store, and nothing else changes. *)
Lemma par_for_pointwise (v : MeshPack) (n : Z) (nm : string) (cmp : nat)
    (f : Store R -> nat -> Z -> Z -> Z -> R) (be ks ke js je is_ ie : Z) st :
  slot v n = Some (nm, cmp) ->
  (forall st st' b k j i,
     agree_at (b, k, j, i) st st' -> f st b k j i = f st' b k j i) ->
  let st' := par_for 0 be ks ke js je is_ ie
               (fun st b k j i => pack_set st v b n k j i (f st b k j i)) st in
  forall p nm' cmp' b k j i,
    data (st' p) nm' cmp' (b, k, j, i)
    = if decide ((b, k, j, i) ∈ cells 0 be ks ke js je is_ ie /\
                 p = owner v /\ nm' = nm /\ cmp' = cmp)
      then f st b k j i
      else data (st p) nm' cmp' (b, k, j, i).
Proof.
  intros Hslot Hf st' p nm' cmp' b k j i. subst st'. unfold par_for.
  set (body := fun (st : Store R) (c : Cell) =>
                 let '(b, k, j, i) := c in pack_set st v b n k j i (f st b k j i)).
  assert (Hframe : forall st c c', c' <> c -> agree_at c' (body st c) st).
  { intros st1 [[[b1 k1] j1] i1] c' Hne. apply pack_set_other, Hne. }
  assert (Hlocal : forall st st' c,
             agree_at c st st' -> agree_at c (body st c) (body st' c)).
  { intros st1 st2 [[[b1 k1] j1] i1] Hag. apply pack_set_agree; [exact Hag|].
    apply Hf, Hag. }
  destruct (fold_cells_local body _ Hframe Hlocal
              (NoDup_cells be ks ke js je is_ ie) st (b, k, j, i)) as [Hin Hout].
  change (fold_left (fun st '(b, k, j, i) => pack_set st v b n k j i (f st b k j i)))
    with (fold_left body).
  destruct (decide ((b, k, j, i) ∈ cells 0 be ks ke js je is_ ie)) as [Hc|Hc];
    rewrite list_elem_of_In in Hc.
  - rewrite (Hin Hc p nm' cmp'). simpl. rewrite (pack_set_here _ _ _ _ _ _ _ _ nm cmp) by exact Hslot.
    apply list_elem_of_In in Hc.
    repeat case_decide; try reflexivity; exfalso; tauto.
  - rewrite (Hout Hc p nm' cmp').
    rewrite decide_False by (rewrite list_elem_of_In; tauto). reflexivity.
Qed.

(** The scalar beta of Compute_pk. *)
Definition beta_of sv : R :=
  Rmul (Rdiv (val sv rhoi) (rhoi_old sv)) (Rdiv (alpha sv) (omega sv)).

(** The value of a one-component field at a cell. *)
Definition field st (u : Ptr) (nm : string) (c : Cell) : R := data (st u) nm 0%nat c.

Lemma Compute_pk_cells sv st u :
  scalar_fields st u [pk sv; res sv; vk sv] ->
  exists st',
    Compute_pk sv st u = (set_rhoi_old sv (val sv rhoi), st', complete) /\
    forall c, In c (interior_cells (st u)) ->
      field st' u (pk sv) c
      = Radd (field st u (res sv) c)
             (Rmul (beta_of sv)
                   (Rsub (field st u (pk sv) c) (Rmul (omega sv) (field st u (vk sv) c)))).
Proof.
  intros Hs. unfold Compute_pk. eexists. split; [reflexivity|].
  intros [[[b k] j] i] Hc.
  set (v := PackVariables st u [pk sv; res sv; vk sv]).
  assert (Hpk : slot v (imap_first v (pk sv)) = Some (pk sv, 0%nat))
    by (apply slot_imap_first; simpl; auto).
  assert (Hres : slot v (imap_first v (res sv)) = Some (res sv, 0%nat))
    by (apply slot_imap_first; simpl; auto).
  assert (Hvk : slot v (imap_first v (vk sv)) = Some (vk sv, 0%nat))
    by (apply slot_imap_first; simpl; auto).
  unfold field.
  rewrite (par_for_pointwise v _ (pk sv) 0%nat
             (fun st b k j i =>
                Radd (pack_get st v b (imap_first v (res sv)) k j i)
                  (Rmul (Rmul (Rdiv (val sv rhoi) (rhoi_old sv)) (Rdiv (alpha sv) (omega sv)))
                     (Rsub (pack_get st v b (imap_first v (pk sv)) k j i)
                        (Rmul (omega sv) (pack_get st v b (imap_first v (vk sv)) k j i))))))
    by (try exact Hpk; intros st1 st2 b' k' j' i' Hag;
        rewrite !(pack_get_agree _ st1 st2 v b' _ k' j' i' eq_refl Hag); reflexivity).
  rewrite decide_True by (split; [apply list_elem_of_In; exact Hc | auto]).
  unfold pack_get. rewrite Hpk, Hres, Hvk. reflexivity.
Qed.

Lemma Update_h_cells sv st u du :
  scalar_fields st u [pk sv] -> scalar_fields st u [sol_name sv] ->
  exists st',
    Update_h sv st u du = (sv, st', complete) /\
    forall c, In c (interior_cells (st u)) ->
      field st' u (sol_name sv) c
      = Radd (field st u (sol_name sv) c)
             (Rmul (Rdiv (val sv rhoi) (val sv r0_dot_vk)) (field st u (pk sv) c)).
Proof.
  intros Hp Hx. unfold Update_h. eexists. split; [reflexivity|].
  intros [[[b k] j] i] Hc.
  set (v := PackVariables st u [pk sv]). set (dv := PackVariables st u [sol_name sv]).
  assert (Hv : slot v 0 = Some (pk sv, 0%nat))
    by (unfold slot, v; rewrite slots_scalar_fields by exact Hp; reflexivity).
  assert (Hdv : slot dv 0 = Some (sol_name sv, 0%nat))
    by (unfold slot, dv; rewrite slots_scalar_fields by exact Hx; reflexivity).
  unfold field.
  rewrite (par_for_pointwise dv 0 (sol_name sv) 0%nat
             (fun st b k j i =>
                Radd (pack_get st dv b 0 k j i)
                     (Rmul (Rdiv (val sv rhoi) (val sv r0_dot_vk)) (pack_get st v b 0 k j i))))
    by (try exact Hdv; intros st1 st2 b' k' j' i' Hag;
        rewrite !(pack_get_agree _ st1 st2 _ b' _ k' j' i' eq_refl Hag); reflexivity).
  rewrite decide_True by (split; [apply list_elem_of_In; exact Hc | auto]).
  unfold pack_get. rewrite Hv, Hdv. reflexivity.
Qed.

Lemma Update_s_cells sv st u :
  scalar_fields st u [res sv; vk sv] ->
  exists st',
    Update_s sv st u = (sv, st', complete) /\
    forall c, In c (interior_cells (st u)) ->
      field st' u (res sv) c
      = Rsub (field st u (res sv) c)
             (Rmul (Rdiv (val sv rhoi) (val sv r0_dot_vk)) (field st u (vk sv) c)).
Proof.
  intros Hs. unfold Update_s. eexists. split; [reflexivity|].
  intros [[[b k] j] i] Hc.
  set (v := PackVariables st u [res sv; vk sv]).
  assert (Hres : slot v (imap_first v (res sv)) = Some (res sv, 0%nat))
    by (apply slot_imap_first; simpl; auto).
  assert (Hvk : slot v (imap_first v (vk sv)) = Some (vk sv, 0%nat))
    by (apply slot_imap_first; simpl; auto).
  unfold field.
  rewrite (par_for_pointwise v _ (res sv) 0%nat
             (fun st b k j i =>
                Rsub (pack_get st v b (imap_first v (res sv)) k j i)
                     (Rmul (Rdiv (val sv rhoi) (val sv r0_dot_vk))
                           (pack_get st v b (imap_first v (vk sv)) k j i))))
    by (try exact Hres; intros st1 st2 b' k' j' i' Hag;
        rewrite !(pack_get_agree _ st1 st2 v b' _ k' j' i' eq_refl Hag); reflexivity).
  rewrite decide_True by (split; [apply list_elem_of_In; exact Hc | auto]).
  unfold pack_get. rewrite Hres, Hvk. reflexivity.
Qed.

End CellUpdates.

(* --------------------------------------------------------------------- *)
(** ** BiCGStab: the scalar alpha *)
(* --------------------------------------------------------------------- *)

Section Alpha.

Import Mesh BiCGStab.
Context {R : Type} {RO : RealOps R}.
Implicit Types (st : Store R) (sv : Solver R).

Lemma InitializeBiCGStab_alpha sv st u du gres0 :
  alpha (fst (fst (InitializeBiCGStab sv st u du gres0))) = Rone.
Proof.
  unfold InitializeBiCGStab. destruct (par_reduce _ _ _ _ _ _ _ _ _ _). reflexivity.
Qed.

Lemma DotProduct_alpha sv st u vec1 vec2 acc :
  alpha (fst (fst (DotProduct sv st u vec1 vec2 acc))) = alpha sv.
Proof. unfold DotProduct. destruct (par_reduce _ _ _ _ _ _ _ _ _ _). reflexivity. Qed.

Lemma Compute_pk_alpha sv st u : alpha (fst (fst (Compute_pk sv st u))) = alpha sv.
Proof. reflexivity. Qed.

Lemma MatVec_alpha sv st u in_vec out_vec :
  alpha (fst (fst (MatVec sv st u in_vec out_vec))) = alpha sv.
Proof. reflexivity. Qed.

(** Update_h and Update_s compute the quotient rho_i / (r0 . v) into a local
    and leave the member alpha as it is. *)
Lemma Update_h_alpha sv st u du : alpha (fst (fst (Update_h sv st u du))) = alpha sv.
Proof. reflexivity. Qed.

Lemma Update_s_alpha sv st u : alpha (fst (fst (Update_s sv st u))) = alpha sv.
Proof. reflexivity. Qed.

Lemma OmegaDotProd_alpha sv st u hs ht :
  alpha (fst (fst (OmegaDotProd sv st u hs ht))) = alpha sv.
Proof.
  unfold OmegaDotProd. destruct (par_reduce _ _ _ _ _ _ _ _ _ _).
  destruct (par_reduce _ _ _ _ _ _ _ _ _ _). reflexivity.
Qed.

Lemma Update_x_res_alpha sv st u du gres :
  alpha (fst (fst (Update_x_res sv st u du gres))) = alpha sv.
Proof. unfold Update_x_res. destruct (par_reduce _ _ _ _ _ _ _ _ _ _). reflexivity. Qed.

Lemma CheckConvergence_alpha sv i report :
  alpha (fst (CheckConvergence sv i report)) = alpha sv.
Proof.
  unfold CheckConvergence. destruct (negb (i =? 0)); [reflexivity|]. simpl.
  destruct (bicgstab_cntr sv + 1 =? 1), report; reflexivity.
Qed.

Lemma run_cycle_alpha exchange md mout i sv st :
  alpha (fst (fst (run_cycle exchange md mout i sv st))) = alpha sv.
Proof.
  unfold run_cycle, run_to_r0dotv, run_from_h.
  repeat match goal with
  | |- context [DotProduct ?a ?b ?c ?d ?e ?f] =>
      let H := fresh in
      pose proof (DotProduct_alpha a b c d e f) as H;
      destruct (DotProduct a b c d e f) as [[? ?] ?]; simpl in H
  | |- context [Compute_pk ?a ?b ?c] =>
      let H := fresh in
      pose proof (Compute_pk_alpha a b c) as H;
      destruct (Compute_pk a b c) as [[? ?] ?]; simpl in H
  | |- context [MatVec ?a ?b ?c ?d ?e] =>
      let H := fresh in
      pose proof (MatVec_alpha a b c d e) as H;
      destruct (MatVec a b c d e) as [[? ?] ?]; simpl in H
  | |- context [Update_h ?a ?b ?c ?d] =>
      let H := fresh in
      pose proof (Update_h_alpha a b c d) as H;
      destruct (Update_h a b c d) as [[? ?] ?]; simpl in H
  | |- context [Update_s ?a ?b ?c] =>
      let H := fresh in
      pose proof (Update_s_alpha a b c) as H;
      destruct (Update_s a b c) as [[? ?] ?]; simpl in H
  | |- context [OmegaDotProd ?a ?b ?c ?d ?e] =>
      let H := fresh in
      pose proof (OmegaDotProd_alpha a b c d e) as H;
      destruct (OmegaDotProd a b c d e) as [[? ?] ?]; simpl in H
  | |- context [Update_x_res ?a ?b ?c ?d ?e] =>
      let H := fresh in
      pose proof (Update_x_res_alpha a b c d e) as H;
      destruct (Update_x_res a b c d e) as [[? ?] ?]; simpl in H
  | |- context [CheckConvergence ?a ?b ?c] =>
      let H := fresh in
      pose proof (CheckConvergence_alpha a b c) as H;
      destruct (CheckConvergence a b c) as [? ?]; simpl in H
  end.
  simpl. congruence.
Qed.

(** The cycles the scheduler runs after the initialisation. *)
Fixpoint run_cycles exchange (md mout : Ptr) (i : Z) (n : nat) sv st
    : Solver R * Store R :=
  match n with
  | O => (sv, st)
  | S n => let '(sv, st, _) := run_cycle exchange md mout i sv st in
           run_cycles exchange md mout i n sv st
  end.

Lemma run_cycles_alpha exchange md mout i n sv st :
  alpha (fst (run_cycles exchange md mout i n sv st)) = alpha sv.
Proof.
  revert sv st. induction n as [|n IH]; intros sv st; simpl; [reflexivity|].
  pose proof (run_cycle_alpha exchange md mout i sv st) as H.
  destruct (run_cycle exchange md mout i sv st) as [[sv' st'] status]. simpl in H.
  rewrite IH. exact H.
Qed.

(** In every cycle Compute_pk forms beta with alpha = 1, the value
    InitializeBiCGStab assigned. *)
Lemma Compute_pk_beta_after_cycles exchange md mout i n sv st :
  let '(sv0, st0) := run_init md mout sv st in
  let '(svn, stn) := run_cycles exchange md mout i n sv0 st0 in
  forall h x,
    beta_of (set_val svn h x)
    = Rmul (Rdiv (val (set_val svn h x) rhoi) (rhoi_old svn)) (Rdiv Rone (omega svn)).
Proof.
  unfold run_init.
  pose proof (InitializeBiCGStab_alpha (initialize_shared_state sv) st md mout global_res0) as H0.
  destruct (InitializeBiCGStab _ st md mout global_res0) as [[sv0 st0] status0]. simpl in H0.
  pose proof (run_cycles_alpha exchange md mout i n sv0 st0) as Hn.
  destruct (run_cycles exchange md mout i n sv0 st0) as [svn stn]. simpl in Hn.
  intros h x. unfold beta_of. simpl. rewrite Hn, H0. reflexivity.
Qed.

End Alpha.

(** C2. With the right-hand side [2, 12] and the matrix diag(2, 4) the
    first cycle has rho_i / (r0 . v) = 148 / 584, yet the member alpha that
    Compute_pk reads in the second cycle is still the 1 that
    InitializeBiCGStab assigned: the search direction it stores is
    r + beta (p - omega v) for beta = (rho_i / rho_(i-1)) (1 / omega), and
    differs from the one formed with the previous cycle's
    rho_i / (r0 . v). *)
Theorem Compute_pk_reads_the_initial_alpha :
  let '(sv1, st1) := BiCGStab.run_init 0%nat 0%nat BiCGStabExample.solver
                                       (BiCGStabExample.store 2 12) in
  let '(svm, stm) := BiCGStab.run_to_r0dotv (fun st => st) 0%nat sv1 st1 in
  let alpha_prev := SF64div (BiCGStab.val svm BiCGStab.rhoi)
                            (BiCGStab.val svm BiCGStab.r0_dot_vk) in
  let '(sv2, st2, _) := BiCGStab.run_from_h (fun st => st) 0%nat 0%nat 0 svm stm in
  let '(sv3, st3, _) := BiCGStab.DotProduct sv2 st2 0%nat (BiCGStab.res0 sv2)
                                            (BiCGStab.res sv2) BiCGStab.rhoi in
  let '(sv4, st4, _) := BiCGStab.Compute_pk sv3 st3 0%nat in
  let ratio := SF64div (BiCGStab.val sv3 BiCGStab.rhoi) (BiCGStab.rhoi_old sv3) in
  let p_with beta i :=
    SF64add (BiCGStabExample.at_cell st3 "res0" i)
            (SF64mul beta
               (SF64sub (BiCGStabExample.at_cell st3 "pk0" i)
                        (SF64mul (BiCGStab.omega sv3) (BiCGStabExample.at_cell st3 "vk0" i)))) in
  alpha_prev = SF64div (double_of_Z 148) (double_of_Z 584) /\
  BiCGStab.alpha sv3 = double_of_Z 1 /\
  BiCGStabExample.at_cell st4 "pk0" 0
  = p_with (SF64mul ratio (SF64div (double_of_Z 1) (BiCGStab.omega sv3))) 0 /\
  BiCGStabExample.at_cell st4 "pk0" 1
  = p_with (SF64mul ratio (SF64div (double_of_Z 1) (BiCGStab.omega sv3))) 1 /\
  SFeqb (BiCGStabExample.at_cell st4 "pk0" 0)
        (p_with (SF64mul ratio (SF64div alpha_prev (BiCGStab.omega sv3))) 0) = false /\
  SFeqb (BiCGStabExample.at_cell st4 "pk0" 1)
        (p_with (SF64mul ratio (SF64div alpha_prev (BiCGStab.omega sv3))) 1) = false.
Proof. vm_compute. repeat split. Qed.

(* --------------------------------------------------------------------- *)
(** ** BiCGStab: the divisions *)
(* --------------------------------------------------------------------- *)

(** A double that is exactly zero (of either sign). *)
Definition double_is_zero (x : double) : bool :=
  match x with S754_zero _ => true | _ => false end.

(** A double that is a NaN or an infinity. *)
Definition double_not_finite (x : double) : bool :=
  match x with S754_nan | S754_infinity _ => true | _ => false end.

Lemma SF64div_by_zero (x y : double) :
  double_is_zero y = true -> double_not_finite (SF64div x y) = true.
Proof. destruct x, y; simpl; intros H; try discriminate H; reflexivity. Qed.

Lemma SF64mul_not_finite (a p : double) :
  double_not_finite a = true -> double_not_finite (SF64mul a p) = true.
Proof. destruct a, p; simpl; intros H; try discriminate H; reflexivity. Qed.

Lemma SF64add_not_finite (x y : double) :
  double_not_finite y = true -> double_not_finite (SF64add x y) = true.
Proof.
  destruct x as [sx|sx| |sx mx ex], y as [sy|sy| |sy my ey]; simpl; intros H;
    try discriminate H; try reflexivity; destruct sx, sy; reflexivity.
Qed.

Lemma SF64sub_not_finite (x y : double) :
  double_not_finite y = true -> double_not_finite (SF64sub x y) = true.
Proof.
  destruct x as [sx|sx| |sx mx ex], y as [sy|sy| |sy my ey]; simpl; intros H;
    try discriminate H; try reflexivity; destruct sx, sy; reflexivity.
Qed.

(** C7 (as amended). The divisions are not guarded: Update_h and Update_s
    divide rho_i by r0 . v and Update_x_res divides t . s by t . t whatever
    the denominator is, and the tasks complete.  Update_x_res stores the
    quotient in omega; Update_h and Update_s use theirs at every block and
    interior cell.  Each quotient is a NaN or an infinity when its own
    denominator is exactly zero (whatever the other one is), and Update_h
    and Update_s then leave a NaN or an infinity in the solution and in the
    residual at every block and interior cell. *)
Theorem zero_denominators_are_divided_by
    (sv : BiCGStab.Solver double) (st : Mesh.Store double) (u du : Mesh.Ptr)
    (gres : BiCGStab.Handle) :
  let a := SF64div (BiCGStab.val sv BiCGStab.rhoi) (BiCGStab.val sv BiCGStab.r0_dot_vk) in
  let w := SF64div (BiCGStab.val sv BiCGStab.t_dot_s) (BiCGStab.val sv BiCGStab.t_dot_t) in
  (exists sv' st',
     BiCGStab.Update_x_res sv st u du gres = (sv', st', complete) /\
     BiCGStab.omega sv' = w /\
     (double_is_zero (BiCGStab.val sv BiCGStab.t_dot_t) = true ->
      double_not_finite (BiCGStab.omega sv') = true)) /\
  (exists st',
     BiCGStab.Update_h sv st u du = (sv, st', complete) /\
     (scalar_fields st u [BiCGStab.pk sv] ->
      scalar_fields st u [BiCGStab.sol_name sv] ->
      forall c, In c (interior_cells (st u)) ->
        field st' u (BiCGStab.sol_name sv) c
        = SF64add (field st u (BiCGStab.sol_name sv) c)
                  (SF64mul a (field st u (BiCGStab.pk sv) c)) /\
        (double_is_zero (BiCGStab.val sv BiCGStab.r0_dot_vk) = true ->
         double_not_finite a = true /\
         double_not_finite (field st' u (BiCGStab.sol_name sv) c) = true))) /\
  (exists st',
     BiCGStab.Update_s sv st u = (sv, st', complete) /\
     (scalar_fields st u [BiCGStab.res sv; BiCGStab.vk sv] ->
      forall c, In c (interior_cells (st u)) ->
        field st' u (BiCGStab.res sv) c
        = SF64sub (field st u (BiCGStab.res sv) c)
                  (SF64mul a (field st u (BiCGStab.vk sv) c)) /\
        (double_is_zero (BiCGStab.val sv BiCGStab.r0_dot_vk) = true ->
         double_not_finite a = true /\
         double_not_finite (field st' u (BiCGStab.res sv) c) = true))).
Proof.
  intros a w. split; [|split].
  - unfold BiCGStab.Update_x_res.
    destruct (Mesh.par_reduce _ _ _ _ _ _ _ _ _ _) as [st' err].
    do 2 eexists. split; [reflexivity|]. split; [reflexivity|].
    intros Hz. apply SF64div_by_zero, Hz.
  - exists (snd (fst (BiCGStab.Update_h sv st u du))). split; [reflexivity|].
    intros Hp Hx c Hc.
    destruct (Update_h_cells sv st u du Hp Hx) as (st' & E & Hcell).
    rewrite E. cbn [fst snd]. specialize (Hcell c Hc). simpl in Hcell. fold a in Hcell.
    split; [exact Hcell|]. intros Hz.
    assert (Ha : double_not_finite a = true) by (apply SF64div_by_zero, Hz).
    split; [exact Ha|]. rewrite Hcell. apply SF64add_not_finite, SF64mul_not_finite, Ha.
  - exists (snd (fst (BiCGStab.Update_s sv st u))). split; [reflexivity|].
    intros Hrv c Hc.
    destruct (Update_s_cells sv st u Hrv) as (st' & E & Hcell).
    rewrite E. cbn [fst snd]. specialize (Hcell c Hc). simpl in Hcell. fold a in Hcell.
    split; [exact Hcell|]. intros Hz.
    assert (Ha : double_not_finite a = true) by (apply SF64div_by_zero, Hz).
    split; [exact Ha|]. rewrite Hcell. apply SF64sub_not_finite, SF64mul_not_finite, Ha.
Qed.

(** C7 (as stated) fails on a reachable state: with the zero right-hand
    side the tasks of the first cycle reach Update_h and Update_s with
    rho_i = 0 and r0 . v = 0; the quotient 0 / 0 is formed, the tasks
    complete and the solution holds NaN at both cells. *)
Lemma zero_rhs_reaches_division_by_zero :
  let '(sv1, st1) := BiCGStab.run_init 0%nat 0%nat BiCGStabExample.solver
                                       (BiCGStabExample.store 0 0) in
  let '(svm, stm) := BiCGStab.run_to_r0dotv (fun st => st) 0%nat sv1 st1 in
  BiCGStab.val svm BiCGStab.rhoi = S754_zero false /\
  BiCGStab.val svm BiCGStab.r0_dot_vk = S754_zero false /\
  SF64div (BiCGStab.val svm BiCGStab.rhoi) (BiCGStab.val svm BiCGStab.r0_dot_vk) = S754_nan /\
  let '(sv2, st2, status) := BiCGStab.Update_h svm stm 0%nat 0%nat in
  status = complete /\
  BiCGStabExample.at_cell st2 "potential" 0 = S754_nan /\
  BiCGStabExample.at_cell st2 "potential" 1 = S754_nan.
Proof. vm_compute. repeat split. Qed.

(** The state the zero right-hand side leads to before Update_h. *)
Definition zero_rhs_state : BiCGStab.Solver double * Mesh.Store double :=
  let '(sv1, st1) := BiCGStab.run_init 0%nat 0%nat BiCGStabExample.solver
                                       (BiCGStabExample.store 0 0) in
  BiCGStab.run_to_r0dotv (fun st => st) 0%nat sv1 st1.

Lemma zero_rhs_state_scalar_fields (names : list string) :
  scalar_fields (snd zero_rhs_state) 0%nat names.
Proof. intros nm _. reflexivity. Qed.

(** A state in which only the second denominator is zero: the accumulators
    hold rho_i = 6, r0 . v = 3, t . s = 8 and t . t = 0, over the mesh data
    with the right-hand side [2, 12]. *)
Definition zero_tt_state : BiCGStab.Solver double * Mesh.Store double :=
  (BiCGStab.set_val
     (BiCGStab.set_val
        (BiCGStab.set_val BiCGStabExample.solver BiCGStab.rhoi (double_of_Z 6))
        BiCGStab.r0_dot_vk (double_of_Z 3))
     BiCGStab.t_dot_s (double_of_Z 8),
   BiCGStabExample.store 2 12).

(** The theorem at the two states.  After the zero right-hand side, where
    r0 . v = 0, Update_h leaves a NaN in the solution at the cell i = 0 of
    block 0.  Where t . t = 0 and r0 . v = 3, Update_x_res stores the
    infinity 8 / 0 in omega, while the quotient 6 / 3 of Update_h is 2. *)
Lemma zero_denominators_are_divided_by_witness :
  (exists st',
     BiCGStab.Update_h (fst zero_rhs_state) (snd zero_rhs_state) 0%nat 0%nat
     = (fst zero_rhs_state, st', complete) /\
     double_not_finite (field st' 0%nat "potential" (0%nat, 0, 0, 0)) = true) /\
  (exists sv' st',
     BiCGStab.Update_x_res (fst zero_tt_state) (snd zero_tt_state) 0%nat 0%nat
                           BiCGStab.global_res
     = (sv', st', complete) /\
     BiCGStab.omega sv' = S754_infinity false /\
     SF64div (BiCGStab.val (fst zero_tt_state) BiCGStab.rhoi)
             (BiCGStab.val (fst zero_tt_state) BiCGStab.r0_dot_vk) = double_of_Z 2).
Proof.
  split.
  - destruct (zero_denominators_are_divided_by (fst zero_rhs_state) (snd zero_rhs_state)
                0%nat 0%nat BiCGStab.global_res) as (_ & (st' & Eh & Hcells) & _).
    exists st'. split; [exact Eh|].
    destruct (Hcells (zero_rhs_state_scalar_fields _) (zero_rhs_state_scalar_fields _)
                (0%nat, 0, 0, 0)) as (_ & Hnf).
    + unfold interior_cells. refine (proj2 (In_cells _ _ _ _ _ _ _ _ _ _ _) _).
      vm_compute. repeat split; discriminate.
    + apply Hnf. vm_compute. reflexivity.
  - destruct (zero_denominators_are_divided_by (fst zero_tt_state) (snd zero_tt_state)
                0%nat 0%nat BiCGStab.global_res) as ((sv' & st' & Ex & Hw & _) & _).
    exists sv', st'. split; [exact Ex|]. split; [|vm_compute; reflexivity].
    rewrite Hw. vm_compute. reflexivity.
Defined.

(* --------------------------------------------------------------------- *)
(** ** BiCGStab: what InitializeBiCGStab and CheckConvergence compute *)
(* --------------------------------------------------------------------- *)

Section InitialNorm.

Import Mesh BiCGStab.
Context {R : Type} {RO : RealOps R}.
Implicit Types (st : Store R) (sv : Solver R).

(** A reduction whose body updates the cell it is at and adds a term read
    from that cell sums the terms of the initial store. *)
Lemma par_reduce_local (upd : Store R -> nat -> Z -> Z -> Z -> Store R)
    (term : Store R -> nat -> Z -> Z -> Z -> R) (be ks ke js je is_ ie : Z) st :
  (forall st b k j i c', c' <> (b, k, j, i) -> agree_at c' (upd st b k j i) st) ->
  (forall st st' b k j i,
     agree_at (b, k, j, i) st st' -> term st b k j i = term st' b k j i) ->
  snd (par_reduce 0 be ks ke js je is_ ie
         (fun st b k j i lsum => (upd st b k j i, Radd lsum (term st b k j i))) st)
  = fold_left (fun lsum '(b, k, j, i) => Radd lsum (term st b k j i))
              (cells 0 be ks ke js je is_ ie) Rzero.
Proof.
  intros Hframe Hlocal. unfold par_reduce.
  pose proof (NoDup_cells be ks ke js je is_ ie) as Hnd.
  assert (Hagree : forall c, In c (cells 0 be ks ke js je is_ ie) -> agree_at c st st)
    by (intros; apply agree_at_refl).
  revert Hagree Hnd. generalize st at 1 3 as cur. generalize (@Rzero R RO) as z.
  generalize (cells 0 be ks ke js je is_ ie) as l.
  induction l as [|[[[b k] j] i] l IH]; intros z cur Hagree Hnd; simpl; [reflexivity|].
  inversion Hnd as [|? ? Hx Hnd']; subst.
  rewrite (Hlocal cur st b k j i) by (apply Hagree; left; reflexivity).
  apply IH; [|exact Hnd'].
  intros c Hc. eapply agree_at_trans; [|apply Hagree; right; exact Hc].
  apply Hframe. intros ->. contradiction.
Qed.

(** The sum over all blocks and interior cells of a one-component field,
    added up from zero in loop order. *)
Definition field_sum st (u : Ptr) (nm : string) : R :=
  fold_left (fun lsum c => Radd lsum (field st u nm c)) (interior_cells (st u)) Rzero.

(** InitializeBiCGStab adds to its accumulator the sum of the right-hand
    side over all blocks and interior cells: the values, not their
    squares. *)
Lemma InitializeBiCGStab_accumulates_rhs sv st u du gres0 :
  scalar_fields st u [res sv; res0 sv; vk sv; pk sv; rhs_name sv] ->
  val (fst (fst (InitializeBiCGStab sv st u du gres0))) gres0
  = Radd (val sv gres0) (field_sum st u (rhs_name sv)).
Proof.
  intros Hs. unfold InitializeBiCGStab.
  set (v := PackVariables st u [res sv; res0 sv; vk sv; pk sv; rhs_name sv]).
  set (dv := PackVariables st du [sol_name sv]).
  assert (Hres : slot v (imap_first v (res sv)) = Some (res sv, 0%nat))
    by (apply slot_imap_first; simpl; auto).
  assert (Hres0 : slot v (imap_first v (res0 sv)) = Some (res0 sv, 0%nat))
    by (apply slot_imap_first; simpl; auto).
  assert (Hrhs : slot v (imap_first v (rhs_name sv)) = Some (rhs_name sv, 0%nat))
    by (apply slot_imap_first; simpl; auto 10).
  set (ires := imap_first v (res sv)) in *.
  set (ires0 := imap_first v (res0 sv)) in *.
  set (irhs := imap_first v (rhs_name sv)) in *.
  set (ivk := imap_first v (vk sv)). set (ipk := imap_first v (pk sv)).
  set (st1 := fun (st : Store R) b k j i =>
                pack_set st v b ires k j i (pack_get st v b irhs k j i)).
  set (st2 := fun (st : Store R) b k j i =>
                pack_set (st1 st b k j i) v b ires0 k j i
                         (pack_get (st1 st b k j i) v b irhs k j i)).
  set (upd := fun (st : Store R) b k j i =>
                pack_set (pack_set (pack_set (st2 st b k j i) v b ivk k j i Rzero)
                                   v b ipk k j i Rzero) dv b 0 k j i Rzero).
  set (term := fun (st : Store R) b k j i => pack_get (st2 st b k j i) v b irhs k j i).
  pose proof (par_reduce_local upd term (GetDim5 st v - 1)
                (s (GetBoundsK (st u))) (e (GetBoundsK (st u)))
                (s (GetBoundsJ (st u))) (e (GetBoundsJ (st u)))
                (s (GetBoundsI (st u))) (e (GetBoundsI (st u))) st) as Hsum.
  unfold upd, term, st2, st1 in Hsum. cbv beta in Hsum.
  destruct (par_reduce _ _ _ _ _ _ _ _ _ st) as [st' err]. simpl in Hsum. simpl.
  rewrite decide_True by reflexivity. f_equal.
  rewrite Hsum; clear Hsum.
  - unfold field_sum, interior_cells, GetDim5. cbn [owner v PackVariables].
    apply fold_left_ext. intros lsum [[[b k] j] i].
    f_equal. unfold pack_get at 1. rewrite Hrhs.
    rewrite (pack_set_here _ v b ires0 k j i _ _ _ _ _ _ Hres0).
    assert (E1 : forall x, data (pack_set st v b ires k j i x u) (rhs_name sv) 0%nat (b, k, j, i)
                           = if decide (rhs_name sv = res sv) then x
                             else field st u (rhs_name sv) (b, k, j, i)).
    { intros x. rewrite (pack_set_here _ v b ires k j i _ _ _ _ _ _ Hres).
      unfold field. repeat case_decide; try reflexivity; exfalso; intuition congruence. }
    assert (E2 : pack_get (pack_set st v b ires k j i (pack_get st v b irhs k j i))
                          v b irhs k j i
                 = field st u (rhs_name sv) (b, k, j, i)).
    { unfold pack_get at 1. rewrite Hrhs. change (owner v) with u. rewrite E1.
      unfold pack_get. rewrite Hrhs. unfold field. case_decide; reflexivity. }
    rewrite E2, E1. unfold pack_get. rewrite Hrhs.
    change (owner v) with u. unfold field.
    repeat case_decide; reflexivity.
  - intros st0 b k j i c' Hne.
    repeat (eapply agree_at_trans; [apply pack_set_other, Hne|]). apply agree_at_refl.
  - intros st0 st0' b k j i Hag.
    apply (pack_get_agree (b, k, j, i)); [reflexivity|].
    apply pack_set_agree.
    + apply pack_set_agree; [exact Hag|]. apply (pack_get_agree (b, k, j, i) _ _ _ _ _ _ _ _ eq_refl Hag).
    + apply (pack_get_agree (b, k, j, i)); [reflexivity|].
      apply pack_set_agree; [exact Hag|]. apply (pack_get_agree (b, k, j, i) _ _ _ _ _ _ _ _ eq_refl Hag).
Qed.

(** On the partitions other than 0 the completion task reports complete
    and changes nothing. *)
Lemma CheckConvergence_other_partitions sv (i : Z) report :
  i <> 0 -> CheckConvergence sv i report = (sv, complete).
Proof.
  intros Hi. unfold CheckConvergence.
  destruct (i =? 0) eqn:E; [apply Z.eqb_eq in E; contradiction | reflexivity].
Qed.

(** On partition 0 it compares the quotient of the root of the residual
    accumulator and the initial norm (the root of the initial accumulator,
    taken once, in the first cycle) with the tolerance. *)
Lemma CheckConvergence_status sv :
  snd (CheckConvergence sv 0 true)
  = if Rltb (Rdiv (Rsqrt (val sv global_res))
                  (if bicgstab_cntr sv + 1 =? 1 then Rsqrt (val sv global_res0)
                   else val sv global_res0))
            (error_tol sv)
    then complete else iterate.
Proof.
  unfold CheckConvergence. simpl. destruct (bicgstab_cntr sv + 1 =? 1); reflexivity.
Qed.

End InitialNorm.

(* --------------------------------------------------------------------- *)
(** ** Evaluations on concrete inputs *)
(* --------------------------------------------------------------------- *)

Example BlockTimer_diff_without_overflow :
  BlockTimer.diff {| BlockTimer.cost_ := S754_zero false; BlockTimer.start_ := 10 |} 25
  = double_of_Z 15.
Proof. reflexivity. Qed.

Example BlockTimer_diff_after_overflow :
  BlockTimer.diff {| BlockTimer.cost_ := S754_zero false;
                     BlockTimer.start_ := 2 ^ 64 - 3 |} 5
  = double_of_Z 7.
Proof. vm_compute. reflexivity. Qed.

Example BlockTimer_diff_rounds :
  BlockTimer.diff {| BlockTimer.cost_ := S754_zero false; BlockTimer.start_ := 0 |}
                  (2 ^ 64 - 1)
  = double_of_Z (2 ^ 64).
Proof. vm_compute. reflexivity. Qed.

Module PoissonExample.
Import Mesh.

(** A two-dimensional partition of one block with the cells i = 0, 1 and
    the density [3, 5]; [dx2] is the spacing along the second axis, the
    first one has the spacing 2. *)
Definition mesh (dx2 : Z) : MeshData double :=
  {| NumBlocks := 1;
     GetBoundsI := {| s := 0; e := 1 |};
     GetBoundsJ := {| s := 0; e := 0 |};
     GetBoundsK := {| s := 0; e := 0 |};
     GetNdim := 2;
     Dx := fun d => if d =? 1 then double_of_Z 2 else double_of_Z dx2;
     NumComponents := fun _ => 1%nat;
     data := fun nm c '(b, k, j, i) =>
       if decide (nm = "density")
       then (if i =? 0 then double_of_Z 3 else double_of_Z 5)
       else S754_zero false |}.

Definition store (dx2 : Z) : Store double := fun _ => mesh dx2.

End PoissonExample.

(** With X1DIR = 1 and X2DIR = 2: spacings 2 and 3 make SetRHS throw and
    leave the right-hand side as it was. *)
Example SetRHS_unequal_spacing :
  let '(r, st) := poisson_package.SetRHS 1 2 (PoissonExample.store 3) 0%nat in
  r = inl (poisson_package.runtime_error
             "UpdatePhi requires that DX be equal in all directions.") /\
  Mesh.data (st 0%nat) "rhs" 0%nat (0%nat, 0, 0, 0) = S754_zero false /\
  Mesh.data (st 0%nat) "rhs" 0%nat (0%nat, 0, 0, 1) = S754_zero false.
Proof. vm_compute. repeat split. Qed.

(** Spacings 2 and 2 make it store - dx^2 * density = [-12, -20]. *)
Example SetRHS_equal_spacing :
  let '(r, st) := poisson_package.SetRHS 1 2 (PoissonExample.store 2) 0%nat in
  r = inr complete /\
  Mesh.data (st 0%nat) "rhs" 0%nat (0%nat, 0, 0, 0) = double_of_Z (-12) /\
  Mesh.data (st 0%nat) "rhs" 0%nat (0%nat, 0, 0, 1) = double_of_Z (-20).
Proof. vm_compute. repeat split. Qed.

Example SumMass_equal_spacing :
  let '(r, _, total) :=
    poisson_package.SumMass 1 2 (PoissonExample.store 2) 0%nat (double_of_Z 100) in
  r = inr complete /\ total = double_of_Z 132.
Proof. vm_compute. repeat split. Qed.

Module PackageExample.
Import Mesh poisson_package.

(** Concrete stand-ins for the objects of solvers/solver_utils.hpp: a
    stencil is the three arguments of its constructor after the name, an
    accessor the two of its own; their kernels are not reached below and
    return the right-hand side. *)
Definition Stencil_t : Type := Z * list double * list (list Z).
Definition SparseMatrixAccessor_t : Type := Z * list (list Z).
Definition make_Stencil (name : string) (n : Z) (wgts : list double)
    (offsets : list (list Z)) : Stencil_t := (n, wgts, offsets).
Definition make_SparseMatrixAccessor (name : string) (n : Z) (offsets : list (list Z))
    : SparseMatrixAccessor_t := (n, offsets).
Definition stencil_Jacobi (s : Stencil_t) (st : Store double) (v : MeshPack) (iphi : Z)
    (b : nat) (k j i : Z) (rhs : double) : double := rhs.
Definition sp_accessor_Jacobi (a : SparseMatrixAccessor_t) (st : Store double)
    (v : MeshPack) (isp_lo isp_hi : Z) (w : MeshPack) (iphi : Z)
    (b : nat) (k j i : Z) (rhs : double) : double := rhs.

(** The constructor of the CG solver taken to leave the package as it
    finds it. *)
Definition CG_Solver (pkg : StateDescriptor double Stencil_t SparseMatrixAccessor_t)
    (err_tol : double) (m : Stencil_t + SparseMatrixAccessor_t)
    : StateDescriptor double Stencil_t SparseMatrixAccessor_t := pkg.

(** An input with nx2 = 2 and nx3 = 1 that sets use_stencil to
    [use_stencil] and nothing else, so that every other option has its
    default. *)
Definition pin (use_stencil : bool) : ParameterInput double :=
  {| GetOrAddInteger := fun block name default => default;
     GetOrAddReal := fun block name default => default;
     GetOrAddBoolean := fun block name default =>
       if decide (name = "use_stencil") then use_stencil else default;
     GetInteger := fun block name => if decide (name = "nx2") then 2 else 1 |}.

(** The package dictionary after Initialize. *)
Definition packages (use_stencil : bool)
    : gmap string (StateDescriptor double Stencil_t SparseMatrixAccessor_t) :=
  {[ "poisson_package" :=
       Initialize make_Stencil make_SparseMatrixAccessor CG_Solver (pin use_stencil) ]}.

(** The partition of [PoissonExample] with equal spacings, the
    sparse-matrix field having the components the package registered:
    none with the stencil, 1 + 2 * 2 without. *)
Definition mesh (use_stencil : bool) : MeshData double :=
  {| NumBlocks := 1;
     GetBoundsI := {| s := 0; e := 1 |};
     GetBoundsJ := {| s := 0; e := 0 |};
     GetBoundsK := {| s := 0; e := 0 |};
     GetNdim := 2;
     Dx := fun d => double_of_Z 2;
     NumComponents := fun nm =>
       if decide (nm = "poisson_sparse_matrix")
       then (if use_stencil then 0%nat else 5%nat)
       else 1%nat;
     data := data (PoissonExample.mesh 2) |}.

Definition store (use_stencil : bool) : Store double := fun _ => mesh use_stencil.

End PackageExample.

(** C8 (as stated) fails for UpdatePhi: with the package Initialize
    builds, which registers neither a "stencil" nor a "sparse_accessor",
    and equal spacings (X1DIR = 1, X2DIR = 2, both spacings 2), UpdatePhi
    does not complete: it stops at the look-up of the stencil when the
    stencil is in use, and at the look-up of the accessor when it is
    not. *)
Lemma UpdatePhi_stops_at_the_look_up :
  Mesh.GetNdim (PackageExample.store true 0%nat) = 2 /\
  Mesh.GetNdim (PackageExample.store false 0%nat) = 2 /\
  SFeqb (Mesh.Dx (PackageExample.store true 0%nat) 1)
        (Mesh.Dx (PackageExample.store true 0%nat) 2) = true /\
  SFeqb (Mesh.Dx (PackageExample.store false 0%nat) 1)
        (Mesh.Dx (PackageExample.store false 0%nat) 2) = true /\
  fst (poisson_package.UpdatePhi 1 2 PackageExample.stencil_Jacobi
         PackageExample.sp_accessor_Jacobi (PackageExample.packages true)
         (PackageExample.store true) 0%nat 0%nat)
  = inl (poisson_package.not_held "stencil") /\
  fst (poisson_package.UpdatePhi 1 2 PackageExample.stencil_Jacobi
         PackageExample.sp_accessor_Jacobi (PackageExample.packages false)
         (PackageExample.store false) 0%nat 0%nat)
  = inl (poisson_package.not_held "sparse_accessor").
Proof.
  repeat split; vm_compute; reflexivity.
Qed.


(* ===================================================================== *)
(** * Further properties of the embedded code *)
(* ===================================================================== *)

(* --------------------------------------------------------------------- *)
(** ** interface/container_iterator.hpp: MakePack and the two ways to pack *)
(* --------------------------------------------------------------------- *)

(** The result of a call with its value mapped. *)
Definition outcome_map {E A B} (f : A -> B) (o : Outcome E A) : Outcome E B :=
  match o with
  | Returns a => Returns (f a)
  | Exits e => Exits e
  | Undefined => Undefined
  end.

Lemma lookup_fmap_Some_not_None {A} (l : list A) (n : nat) :
  (Some <$> l) !! n <> Some None.
Proof.
  rewrite list_lookup_fmap. destruct (l !! n); simpl; intros H; discriminate H.
Qed.

(** X1. For a non-empty list of variables MakePack returns a view whose
    entries are the component views of the variables, in list order and in
    the order of the copy loop: every entry of the view is assigned (none
    stays default-constructed), its length is the sum of the component
    counts, and the recorded dimensions are the first three extents of the
    first variable followed by that length. *)
Theorem MakePack_fills_every_entry {Slice : Type}
    (fvar : ContainerIterator.CellVariable Slice)
    (rest : ContainerIterator.VarList Slice) :
  exists p,
    @ContainerIterator.MakePack Slice ContainerIterator.ExitMessage (fvar :: rest)
    = Returns p /\
    ContainerIterator.v_ p = Some <$> flat_map components (fvar :: rest) /\
    length (ContainerIterator.v_ p) = sum_list (ncomp <$> (fvar :: rest)) /\
    (forall n : nat, ContainerIterator.v_ p !! n <> Some None) /\
    ContainerIterator.dims_ p
    = (ContainerIterator.GetDim fvar 1, ContainerIterator.GetDim fvar 2,
       ContainerIterator.GetDim fvar 3, length (ContainerIterator.v_ p)).
Proof.
  eexists. split; [apply MakePack_layout|]. cbn -[flat_map].
  assert (Hlen : length (Some <$> flat_map components (fvar :: rest))
                 = total_components (fvar :: rest))
    by (rewrite length_fmap; apply length_flat_components).
  repeat split.
  - exact Hlen.
  - intros n. apply lookup_fmap_Some_not_None.
  - rewrite Hlen. reflexivity.
Qed.

(** X2. The indexed and the plain construction build the same view: for
    every list of variables, and for every container and list of names
    (whether the construction returns, exits or reaches [vars.front()] on
    an empty list), the view of the indexed pack is the plain pack. *)
Theorem indexed_pack_has_the_plain_view {Slice : Type}
    (c : ContainerIterator.Container Slice) (names : list string)
    (vars : ContainerIterator.VarList Slice) :
  outcome_map ContainerIterator.pack
    (@ContainerIterator.MakeIndexedPack Slice ContainerIterator.ExitMessage vars)
  = ContainerIterator.MakePack vars /\
  outcome_map ContainerIterator.pack (ContainerIterator.PackIndexedVariables c names)
  = ContainerIterator.PackVariables c names.
Proof.
  assert (H : forall vs : ContainerIterator.VarList Slice,
    outcome_map ContainerIterator.pack
      (@ContainerIterator.MakeIndexedPack Slice ContainerIterator.ExitMessage vs)
    = ContainerIterator.MakePack vs).
  { intros [|v0 vs]; [reflexivity|].
    rewrite MakeIndexedPack_layout, MakePack_layout. reflexivity. }
  split; [apply H|].
  unfold ContainerIterator.PackIndexedVariables, ContainerIterator.PackVariables.
  destruct (ContainerIterator.MakeListFromNames c names) as [vs|m|]; simpl;
    [apply H | reflexivity | reflexivity].
Qed.

Lemma name_trichotomy {Slice : Type} (c : ContainerIterator.Container Slice) (name : string) :
  resolvable c name \/ in_both c name \/ in_neither c name.
Proof.
  unfold resolvable, in_both, in_neither.
  destruct (ContainerIterator.GetCellVariableMap c !! name) as [v|],
           (ContainerIterator.GetSparseMap c !! name) as [sv|]; eauto 10.
Qed.

(** X3. MakeListFromNames has exactly two outcomes.  When every name is
    found in exactly one of the two maps it returns the variables the names
    stand for, in the order of the names.  Otherwise the list has a last
    offending name (every name after it is found in exactly one map) and
    the call exits with the message for that name: found in both maps, or
    found in neither.  It never reaches undefined behaviour. *)
Theorem MakeListFromNames_outcomes {Slice : Type}
    (c : ContainerIterator.Container Slice) (names : list string) :
  (Forall (resolvable c) names /\
   ContainerIterator.MakeListFromNames c names = Returns (flat_map (resolve c) names)) \/
  (exists pre name post,
     names = pre ++ name :: post /\ Forall (resolvable c) post /\
     ((in_both c name /\
       ContainerIterator.MakeListFromNames c names
       = Exits (ContainerIterator.found_in_both name)) \/
      (in_neither c name /\
       ContainerIterator.MakeListFromNames c names
       = Exits (ContainerIterator.not_found name)))).
Proof.
  assert (Hsplit : Forall (resolvable c) names \/
    exists pre name post,
      names = pre ++ name :: post /\ Forall (resolvable c) post /\
      (in_both c name \/ in_neither c name)).
  { induction names as [|x names IH]; [left; constructor|].
    destruct IH as [Hall|(pre & name & post & -> & Hpost & Hoff)].
    - destruct (name_trichotomy c x) as [Hx|Hx].
      + left. constructor; assumption.
      + right. exists [], x, names. auto.
    - right. exists (x :: pre), name, post. auto. }
  destruct Hsplit as [Hall|(pre & name & post & -> & Hpost & [Hb|Hn])].
  - left. split; [exact Hall | apply MakeListFromNames_resolvable, Hall].
  - right. exists pre, name, post. split; [reflexivity|]. split; [exact Hpost|].
    left. split; [exact Hb|]. apply MakeListFromNames_last_offender; [exact Hpost|].
    intros vs. apply add_name_in_both, Hb.
  - right. exists pre, name, post. split; [reflexivity|]. split; [exact Hpost|].
    right. split; [exact Hn|]. apply MakeListFromNames_last_offender; [exact Hpost|].
    intros vs. apply add_name_in_neither, Hn.
Qed.

Lemma offsets_adjacent {Slice : Type} (vars : ContainerIterator.VarList Slice)
    (start n : nat) (lo hi lo' hi' : Z) :
  offsets vars start !! n = Some (lo, hi) ->
  offsets vars start !! S n = Some (lo', hi') ->
  lo' = hi + 1 /\ lo <= lo'.
Proof.
  intros Hn HSn.
  assert (Hlen : (S n < length vars)%nat)
    by (rewrite <- (length_offsets vars start); eapply lookup_lt_Some, HSn).
  destruct (lookup_lt_is_Some_2 vars n ltac:(lia)) as [v Hv].
  destruct (lookup_lt_is_Some_2 vars (S n) Hlen) as [w Hw].
  rewrite (offsets_lookup vars start n v Hv) in Hn.
  rewrite (offsets_lookup vars start (S n) w Hw) in HSn.
  rewrite (take_S_r vars n v Hv), total_components_app in HSn.
  injection Hn as <- <-. injection HSn as <- <-.
  replace (total_components [v]) with (ncomp v)
    by (unfold total_components; simpl; lia).
  lia.
Qed.

Lemma offsets_last {Slice : Type} (vars : ContainerIterator.VarList Slice)
    (start : nat) (lo hi : Z) :
  last (offsets vars start) = Some (lo, hi) ->
  hi = Z.of_nat (start + total_components vars) - 1.
Proof.
  revert start. induction vars as [|v vars IH]; intros start; [discriminate|].
  simpl. destruct vars as [|w vars].
  - simpl. intros [= <- <-]. unfold total_components. simpl. lia.
  - intros H. rewrite (IH _ H). unfold total_components. simpl. lia.
Qed.

(** X4. The ranges MakeIndexedPack records tile the variable axis: the
    first range starts at 0, each further range starts one past the end of
    the range before it (a variable without components has hi = lo - 1),
    and the last range ends at the last entry of the view. *)
Theorem recorded_ranges_tile_the_axis {Slice : Type}
    (fvar : ContainerIterator.CellVariable Slice)
    (rest : ContainerIterator.VarList Slice) :
  exists p,
    @ContainerIterator.MakeIndexedPack Slice ContainerIterator.ExitMessage (fvar :: rest)
    = Returns p /\
    ContainerIterator.ilo p !! 0%nat = Some 0 /\
    (forall (n : nat) (hi lo' : Z),
       ContainerIterator.ihi p !! n = Some hi ->
       ContainerIterator.ilo p !! S n = Some lo' -> lo' = hi + 1) /\
    (forall (n : nat) (lo hi : Z),
       ContainerIterator.ilo p !! n = Some lo ->
       ContainerIterator.ihi p !! n = Some hi -> 0 <= lo <= hi + 1) /\
    (forall hi : Z,
       last (ContainerIterator.ihi p) = Some hi ->
       hi = Z.of_nat (length (ContainerIterator.v_ (ContainerIterator.pack p))) - 1).
Proof.
  eexists. split; [apply MakeIndexedPack_layout|]. cbn -[flat_map offsets].
  split; [reflexivity|]. split; [|split].
  - intros n hi lo'. rewrite !list_lookup_fmap.
    destruct (offsets (fvar :: rest) 0 !! n) as [[lo0 hi0]|] eqn:En; [|discriminate].
    destruct (offsets (fvar :: rest) 0 !! S n) as [[lo1 hi1]|] eqn:ESn; [|discriminate].
    simpl. intros [= <-] [= <-]. eapply offsets_adjacent; eassumption.
  - intros n lo hi. rewrite !list_lookup_fmap.
    destruct (offsets (fvar :: rest) 0 !! n) as [[lo0 hi0]|] eqn:En; [|discriminate].
    simpl. intros [= <-] [= <-].
    destruct (lookup_lt_is_Some_2 (fvar :: rest) n) as [v Hv].
    { rewrite <- (length_offsets (fvar :: rest) 0). eapply lookup_lt_Some, En. }
    rewrite (offsets_lookup _ 0 n v Hv) in En. injection En as <- <-. lia.
  - intros hi. rewrite fmap_last.
    destruct (last (offsets (fvar :: rest) 0)) as [[lo0 hi0]|] eqn:El; [|discriminate].
    simpl. intros [= <-]. rewrite (offsets_last _ _ _ _ El).
    change (components fvar ++ flat_map components rest)
      with (flat_map components (fvar :: rest)).
    rewrite length_fmap, length_flat_components. reflexivity.
Qed.

(* --------------------------------------------------------------------- *)
(** ** interface/container_iterator.hpp: packing by flags, ContainerIterator *)
(* --------------------------------------------------------------------- *)

Module ContainerIteratorFlags.
Import ContainerIterator.
Section WithFlags.

Context {Slice : Type}.

(** MetadataFlag and the four topology flags of Metadata
    (interface/metadata.hpp is not among the files). *)
Context {MetadataFlag : Type} `{EqDecision MetadataFlag}.
Variables Edge Cell Face Node : MetadataFlag.

(** [v->metadata().AnyFlagsSet(flags)] of a cell variable and
    [sv->metadata().AnyFlagsSet(flags)] of a sparse variable. *)
Variable AnyFlagsSet : CellVariable Slice -> list MetadataFlag -> bool.
Variable sparse_AnyFlagsSet : SparseVariable Slice -> list MetadataFlag -> bool.

(** Container<T>, as the functions below read it:
    GetCellVariableVector() and GetSparseVector(). *)
Record ContainerVectors := {
  GetCellVariableVector : list (CellVariable Slice);
  GetSparseVector : list (SparseVariable Slice)
}.

(** PackVariables(const Container<T> &c, const std::vector<MetadataFlag> &flags) *)
Definition selected_by_flags (c : ContainerVectors) (flags : list MetadataFlag)
    : VarList Slice :=
  let vars : VarList Slice := [] in
  let vars :=
    fold_left (fun vars v => if AnyFlagsSet v flags then v :: vars else vars)
              (GetCellVariableVector c) vars in
  fold_left (fun vars sv =>
               if sparse_AnyFlagsSet sv flags
               then fold_left (fun vars v => v :: vars) (GetVector sv) vars
               else vars)
            (GetSparseVector c) vars.

Definition PackVariables (c : ContainerVectors) (flags : list MetadataFlag)
    : Outcome ExitMessage (VariablePack Slice) :=
  MakePack (selected_by_flags c flags).

(** ContainerIterator<T>: the member [vars]. *)
Record ContainerIterator := { vars : list (CellVariable Slice) }.

(** setMask: clear the variables stored so far, then fill in the subset
    that matches. *)
Definition setMask (it : ContainerIterator) (allVars : list (CellVariable Slice))
    (flags : list MetadataFlag) : ContainerIterator :=
  let it := {| vars := [] |} in
  fold_left (fun it pv =>
               if AnyFlagsSet pv flags then {| vars := vars it ++ [pv] |} else it)
            allVars it.

(** The constructor. *)
Definition make (c : ContainerVectors) (flags : list MetadataFlag) : ContainerIterator :=
  let allVars :=
    fold_left (fun allVars svar => allVars ++ GetVector svar)
              (GetSparseVector c) (GetCellVariableVector c) in
  setMask {| vars := [] |} allVars flags.

Fixpoint couldBeEdge (flags : list MetadataFlag) : bool :=
  match flags with
  | [] => true
  | f :: flags =>
      if decide (f = Edge) then true
      else if decide (f = Cell) then false
      else if decide (f = Face) then false
      else if decide (f = Node) then false
      else couldBeEdge flags
  end.

Fixpoint couldBeFace (flags : list MetadataFlag) : bool :=
  match flags with
  | [] => true
  | f :: flags =>
      if decide (f = Face) then true
      else if decide (f = Cell) then false
      else if decide (f = Edge) then false
      else if decide (f = Node) then false
      else couldBeFace flags
  end.

End WithFlags.
Arguments ContainerVectors : clear implicits.
Arguments ContainerIterator : clear implicits.
End ContainerIteratorFlags.

Section FlagPacks.

Import ContainerIterator ContainerIteratorFlags.
Context {Slice : Type} {MetadataFlag : Type} `{EqDecision MetadataFlag}.
Variable AnyFlagsSet : CellVariable Slice -> list MetadataFlag -> bool.
Variable sparse_AnyFlagsSet : SparseVariable Slice -> list MetadataFlag -> bool.
Implicit Types (c : ContainerVectors Slice) (flags : list MetadataFlag).

(** The variables the flags select, in the order of the container: the
    matching cell variables, then the variables of the matching sparse
    variables. *)
Definition matching c flags : list (CellVariable Slice) :=
  filter (fun v => AnyFlagsSet v flags = true) (GetCellVariableVector c)
  ++ flat_map GetVector
       (filter (fun sv => sparse_AnyFlagsSet sv flags = true) (GetSparseVector c)).

Lemma push_front_each (l acc : list (CellVariable Slice)) :
  fold_left (fun vars v => v :: vars) l acc = rev l ++ acc.
Proof.
  revert acc. induction l as [|x l IH]; intros acc; simpl; [reflexivity|].
  rewrite IH, <- app_assoc. reflexivity.
Qed.

Lemma push_front_matching flags (l acc : list (CellVariable Slice)) :
  fold_left (fun vars v => if AnyFlagsSet v flags then v :: vars else vars) l acc
  = rev (filter (fun v => AnyFlagsSet v flags = true) l) ++ acc.
Proof.
  revert acc. induction l as [|x l IH]; intros acc; simpl; [reflexivity|].
  rewrite IH, filter_cons. destruct (AnyFlagsSet x flags) eqn:E.
  - rewrite decide_True by reflexivity. simpl. rewrite <- app_assoc. reflexivity.
  - rewrite decide_False by discriminate. reflexivity.
Qed.

Lemma push_front_sparse flags (l : list (SparseVariable Slice))
    (acc : list (CellVariable Slice)) :
  fold_left (fun vars sv =>
               if sparse_AnyFlagsSet sv flags
               then fold_left (fun vars v => v :: vars) (GetVector sv) vars
               else vars) l acc
  = rev (flat_map GetVector (filter (fun sv => sparse_AnyFlagsSet sv flags = true) l))
    ++ acc.
Proof.
  revert acc. induction l as [|sv l IH]; intros acc; simpl; [reflexivity|].
  rewrite IH, filter_cons. destruct (sparse_AnyFlagsSet sv flags) eqn:E.
  - rewrite decide_True by reflexivity. simpl.
    rewrite push_front_each, rev_app_distr, <- app_assoc. reflexivity.
  - rewrite decide_False by discriminate. reflexivity.
Qed.

Lemma selected_by_flags_rev c flags :
  selected_by_flags AnyFlagsSet sparse_AnyFlagsSet c flags = rev (matching c flags).
Proof.
  unfold selected_by_flags, matching.
  rewrite push_front_sparse, push_front_matching, app_nil_r, rev_app_distr.
  reflexivity.
Qed.

Lemma setMask_filter it (allVars : list (CellVariable Slice)) flags :
  vars (setMask AnyFlagsSet it allVars flags)
  = filter (fun v => AnyFlagsSet v flags = true) allVars.
Proof.
  unfold setMask.
  assert (H : forall acc,
    vars (fold_left (fun it pv =>
                       if AnyFlagsSet pv flags then {| vars := vars it ++ [pv] |} else it)
                    allVars {| vars := acc |})
    = acc ++ filter (fun v => AnyFlagsSet v flags = true) allVars).
  { induction allVars as [|x l IH]; intros acc; simpl; [rewrite app_nil_r; reflexivity|].
    rewrite filter_cons. destruct (AnyFlagsSet x flags) eqn:E.
    - rewrite decide_True by reflexivity. simpl. rewrite IH, <- app_assoc. reflexivity.
    - rewrite decide_False by discriminate. apply IH. }
  apply (H []).
Qed.

Lemma all_vars_of_container (l : list (SparseVariable Slice))
    (acc : list (CellVariable Slice)) :
  fold_left (fun allVars svar => allVars ++ GetVector svar) l acc
  = acc ++ flat_map GetVector l.
Proof.
  revert acc. induction l as [|sv l IH]; intros acc; simpl;
    [rewrite app_nil_r; reflexivity|].
  rewrite IH, <- app_assoc. reflexivity.
Qed.

Lemma filter_flat_map_consistent flags (l : list (SparseVariable Slice)) :
  (forall sv v, In sv l -> In v (GetVector sv) ->
                AnyFlagsSet v flags = sparse_AnyFlagsSet sv flags) ->
  filter (fun v => AnyFlagsSet v flags = true) (flat_map GetVector l)
  = flat_map GetVector (filter (fun sv => sparse_AnyFlagsSet sv flags = true) l).
Proof.
  induction l as [|sv l IH]; intros Hc; simpl; [reflexivity|].
  rewrite filter_app, filter_cons, IH
    by (intros sv' v Hsv Hv; apply Hc; [right; exact Hsv | exact Hv]).
  assert (Hsv : forall v, In v (GetVector sv) ->
                          AnyFlagsSet v flags = sparse_AnyFlagsSet sv flags)
    by (intros v Hv; apply Hc; [left; reflexivity | exact Hv]).
  destruct (sparse_AnyFlagsSet sv flags) eqn:E.
  - rewrite decide_True by reflexivity. simpl. f_equal.
    clear -Hsv. induction (GetVector sv) as [|x xs IHx]; [reflexivity|].
    rewrite filter_cons, decide_True by (apply Hsv; left; reflexivity).
    f_equal. apply IHx. intros v Hv. apply Hsv. right. exact Hv.
  - rewrite decide_False by discriminate.
    replace (filter (fun v => AnyFlagsSet v flags = true) (GetVector sv)) with
      (@nil (CellVariable Slice)); [reflexivity|].
    clear -Hsv. induction (GetVector sv) as [|x xs IHx]; [reflexivity|].
    rewrite filter_cons, decide_False
      by (rewrite Hsv by (left; reflexivity); discriminate).
    apply IHx. intros v Hv. apply Hsv. right. exact Hv.
Qed.

End FlagPacks.

(** X5. Packing by flags packs the selected variables in the reverse of the
    container's order: with the matching cell variables followed by the
    variables of the matching sparse variables written in container order,
    the pack is MakePack of that list reversed: its view starts with the
    components of the last selected variable, which also gives the pack
    its first three dimensions.  When nothing matches, the construction
    reaches [vars.front()] on an empty list. *)
Theorem pack_by_flags_reverses_the_order {Slice MetadataFlag : Type}
    (AnyFlagsSet : ContainerIterator.CellVariable Slice -> list MetadataFlag -> bool)
    (sparse_AnyFlagsSet :
       ContainerIterator.SparseVariable Slice -> list MetadataFlag -> bool)
    (c : ContainerIteratorFlags.ContainerVectors Slice) (flags : list MetadataFlag) :
  let selected := matching AnyFlagsSet sparse_AnyFlagsSet c flags in
  ContainerIteratorFlags.PackVariables AnyFlagsSet sparse_AnyFlagsSet c flags
  = ContainerIterator.MakePack (rev selected) /\
  (selected = [] ->
   ContainerIteratorFlags.PackVariables AnyFlagsSet sparse_AnyFlagsSet c flags
   = Undefined) /\
  (forall pre fvar, selected = pre ++ [fvar] ->
   exists p,
     ContainerIteratorFlags.PackVariables AnyFlagsSet sparse_AnyFlagsSet c flags
     = Returns p /\
     ContainerIterator.v_ p = Some <$> flat_map components (fvar :: rev pre) /\
     ContainerIterator.dims_ p
     = (ContainerIterator.GetDim fvar 1, ContainerIterator.GetDim fvar 2,
        ContainerIterator.GetDim fvar 3, length (ContainerIterator.v_ p))).
Proof.
  intros selected. unfold ContainerIteratorFlags.PackVariables.
  rewrite selected_by_flags_rev. fold selected. split; [reflexivity|]. split.
  - intros ->. reflexivity.
  - intros pre fvar ->. rewrite rev_app_distr. simpl.
    eexists. split; [apply MakePack_layout|]. cbn -[flat_map]. split; [reflexivity|].
    rewrite length_fmap, length_flat_components. reflexivity.
Qed.

(** X6. A ContainerIterator holds the matching variables in container
    order (cell variables first, then the variables of the sparse
    variables), whatever it held before the mask was set.  When every
    sparse variable is selected exactly when its variables are, packing by
    the same flags packs the iterator's variables in reverse. *)
Theorem iterator_and_pack_select_the_same {Slice MetadataFlag : Type}
    (AnyFlagsSet : ContainerIterator.CellVariable Slice -> list MetadataFlag -> bool)
    (sparse_AnyFlagsSet :
       ContainerIterator.SparseVariable Slice -> list MetadataFlag -> bool)
    (c : ContainerIteratorFlags.ContainerVectors Slice) (flags : list MetadataFlag) :
  let it := ContainerIteratorFlags.make AnyFlagsSet c flags in
  ContainerIteratorFlags.vars it
  = filter (fun v => AnyFlagsSet v flags = true)
           (ContainerIteratorFlags.GetCellVariableVector c
            ++ flat_map ContainerIterator.GetVector
                        (ContainerIteratorFlags.GetSparseVector c)) /\
  (forall (held : ContainerIteratorFlags.ContainerIterator Slice) allVars,
     ContainerIteratorFlags.vars (ContainerIteratorFlags.setMask AnyFlagsSet held allVars flags)
     = filter (fun v => AnyFlagsSet v flags = true) allVars) /\
  ((forall sv v,
      In sv (ContainerIteratorFlags.GetSparseVector c) ->
      In v (ContainerIterator.GetVector sv) ->
      AnyFlagsSet v flags = sparse_AnyFlagsSet sv flags) ->
   ContainerIteratorFlags.PackVariables AnyFlagsSet sparse_AnyFlagsSet c flags
   = ContainerIterator.MakePack (rev (ContainerIteratorFlags.vars it))).
Proof.
  intros it. subst it. unfold ContainerIteratorFlags.make.
  rewrite setMask_filter, all_vars_of_container. split; [reflexivity|].
  split; [intros held allVars; apply setMask_filter|]. intros Hc.
  unfold ContainerIteratorFlags.PackVariables.
  rewrite selected_by_flags_rev. unfold matching.
  rewrite filter_app, (filter_flat_map_consistent _ sparse_AnyFlagsSet) by exact Hc.
  reflexivity.
Qed.

Module FlagExample.
Import ContainerIterator ContainerIteratorFlags.

(** Flags are numbers; the variables of [PackExample] carry the flag given
    by the tens of their label, and a sparse variable the flags of its
    first variable. *)
Definition AnyFlagsSet (v : CellVariable Z) (flags : list Z) : bool :=
  existsb (Z.eqb (Get v 0 0 0 / 10)) flags.
Definition sparse_AnyFlagsSet (sv : SparseVariable Z) (flags : list Z) : bool :=
  match GetVector sv with
  | v :: _ => AnyFlagsSet v flags
  | [] => false
  end.
Definition container : ContainerVectors Z :=
  {| GetCellVariableVector := [PackExample.a; PackExample.b; PackExample.c];
     GetSparseVector := [ {| GetVector := [PackExample.s1; PackExample.s2] |} ] |}.

End FlagExample.

(** The theorem at the flags 1 and 4: the iterator holds [a], [s1], [s2]
    and the pack is made of [s2], [s1], [a]. *)
Lemma iterator_and_pack_select_the_same_witness :
  ContainerIteratorFlags.vars
    (ContainerIteratorFlags.make FlagExample.AnyFlagsSet FlagExample.container [1; 4])
  = [PackExample.a; PackExample.s1; PackExample.s2] /\
  ContainerIteratorFlags.PackVariables
    FlagExample.AnyFlagsSet FlagExample.sparse_AnyFlagsSet FlagExample.container [1; 4]
  = ContainerIterator.MakePack [PackExample.s2; PackExample.s1; PackExample.a].
Proof.
  assert (H : forall sv v,
    In sv (ContainerIteratorFlags.GetSparseVector FlagExample.container) ->
    In v (ContainerIterator.GetVector sv) ->
    FlagExample.AnyFlagsSet v [1; 4] = FlagExample.sparse_AnyFlagsSet sv [1; 4]).
  { intros sv v [<- | []] [<- | [<- | []]]; reflexivity. }
  destruct (iterator_and_pack_select_the_same
              FlagExample.AnyFlagsSet FlagExample.sparse_AnyFlagsSet
              FlagExample.container [1; 4]) as (H1 & _ & H2).
  split; [rewrite H1; reflexivity | rewrite (H2 H), H1; reflexivity].
Defined.

Section Topology.

Import ContainerIteratorFlags.
Context {MetadataFlag : Type} `{EqDecision MetadataFlag}.
Variables Edge Cell Face Node : MetadataFlag.

(** One of the four topology flags. *)
Definition is_topology (f : MetadataFlag) : Prop :=
  f = Edge \/ f = Cell \/ f = Face \/ f = Node.

Lemma couldBeEdge_no_topology (flags : list MetadataFlag) :
  Forall (fun f => ~ is_topology f) flags ->
  forall rest, couldBeEdge Edge Cell Face Node (flags ++ rest)
               = couldBeEdge Edge Cell Face Node rest.
Proof.
  induction 1 as [|f flags Hf _ IH]; intros rest; [reflexivity|].
  simpl. unfold is_topology in Hf.
  repeat (destruct (decide _); [exfalso; tauto|]). apply IH.
Qed.

Lemma couldBeFace_no_topology (flags : list MetadataFlag) :
  Forall (fun f => ~ is_topology f) flags ->
  forall rest, couldBeFace Edge Cell Face Node (flags ++ rest)
               = couldBeFace Edge Cell Face Node rest.
Proof.
  induction 1 as [|f flags Hf _ IH]; intros rest; [reflexivity|].
  simpl. unfold is_topology in Hf.
  repeat (destruct (decide _); [exfalso; tauto|]). apply IH.
Qed.

Lemma couldBeEdge_at_topology f (rest : list MetadataFlag) :
  is_topology f ->
  couldBeEdge Edge Cell Face Node (f :: rest) = bool_decide (f = Edge).
Proof.
  intros Hf. simpl. unfold is_topology in Hf.
  destruct (decide (f = Edge)); [rewrite bool_decide_true by assumption; reflexivity|].
  rewrite bool_decide_false by assumption.
  repeat (destruct (decide _); [reflexivity|]). exfalso. tauto.
Qed.

Lemma couldBeFace_at_topology f (rest : list MetadataFlag) :
  is_topology f ->
  couldBeFace Edge Cell Face Node (f :: rest) = bool_decide (f = Face).
Proof.
  intros Hf. simpl. unfold is_topology in Hf.
  destruct (decide (f = Face)); [rewrite bool_decide_true by assumption; reflexivity|].
  rewrite bool_decide_false by assumption.
  repeat (destruct (decide _); [reflexivity|]). exfalso. tauto.
Qed.

Lemma first_topology_flag (flags : list MetadataFlag) :
  Forall (fun f => ~ is_topology f) flags \/
  exists pre f post,
    flags = pre ++ f :: post /\ Forall (fun f => ~ is_topology f) pre /\ is_topology f.
Proof.
  induction flags as [|f flags IH]; [left; constructor|].
  assert (Hd : is_topology f \/ ~ is_topology f).
  { unfold is_topology.
    destruct (decide (f = Edge)); [tauto|]. destruct (decide (f = Cell)); [tauto|].
    destruct (decide (f = Face)); [tauto|]. destruct (decide (f = Node)); tauto. }
  destruct Hd as [Hf | Hf].
  - right. exists [], f, flags. repeat split; [constructor | exact Hf].
  - destruct IH as [IH | (pre & g & post & -> & Hpre & Hg)].
    + left. constructor; assumption.
    + right. exists (f :: pre), g, post. repeat split; [constructor; assumption | exact Hg].
Qed.

End Topology.

(** X7. couldBeEdge and couldBeFace are decided by the first topology flag
    (Edge, Cell, Face or Node) of the list and ignore everything after it:
    couldBeEdge is true exactly when that flag is Edge, couldBeFace exactly
    when it is Face.  With Edge and Face different flags, both are true
    exactly when the list has no topology flag. *)
Theorem topology_is_decided_by_the_first_flag {MetadataFlag : Type}
    `{EqDecision MetadataFlag} (Edge Cell Face Node : MetadataFlag)
    (flags : list MetadataFlag) :
  Edge <> Face ->
  (forall pre f post,
     flags = pre ++ f :: post ->
     Forall (fun f => ~ is_topology Edge Cell Face Node f) pre ->
     is_topology Edge Cell Face Node f ->
     ContainerIteratorFlags.couldBeEdge Edge Cell Face Node flags = bool_decide (f = Edge) /\
     ContainerIteratorFlags.couldBeFace Edge Cell Face Node flags = bool_decide (f = Face)) /\
  (ContainerIteratorFlags.couldBeEdge Edge Cell Face Node flags = true /\
   ContainerIteratorFlags.couldBeFace Edge Cell Face Node flags = true
   <-> Forall (fun f => ~ is_topology Edge Cell Face Node f) flags).
Proof.
  intros Hne.
  assert (Hfirst : forall pre f post,
     flags = pre ++ f :: post ->
     Forall (fun f => ~ is_topology Edge Cell Face Node f) pre ->
     is_topology Edge Cell Face Node f ->
     ContainerIteratorFlags.couldBeEdge Edge Cell Face Node flags = bool_decide (f = Edge) /\
     ContainerIteratorFlags.couldBeFace Edge Cell Face Node flags = bool_decide (f = Face)).
  { intros pre f post -> Hpre Hf.
    rewrite couldBeEdge_no_topology, couldBeFace_no_topology by exact Hpre.
    split; [apply couldBeEdge_at_topology | apply couldBeFace_at_topology]; exact Hf. }
  split; [exact Hfirst|]. split.
  - intros [He Hf].
    destruct (first_topology_flag Edge Cell Face Node flags)
      as [Hall | (pre & f & post & Hflags & Hpre & Htop)]; [exact Hall|].
    destruct (Hfirst pre f post Hflags Hpre Htop) as [He' Hf'].
    rewrite He in He'. rewrite Hf in Hf'.
    symmetry in He', Hf'. apply bool_decide_eq_true in He', Hf'. congruence.
  - intros Hall.
    pose proof (couldBeEdge_no_topology Edge Cell Face Node flags Hall []) as He.
    pose proof (couldBeFace_no_topology Edge Cell Face Node flags Hall []) as Hf.
    rewrite app_nil_r in He, Hf. split; assumption.
Qed.

(** The theorem with the flags numbered Edge 0, Cell 1, Face 2, Node 3: in
    the list 7, 2, 0 the first topology flag is Face. *)
Lemma topology_is_decided_by_the_first_flag_witness :
  (0 <> 2)%nat /\
  ContainerIteratorFlags.couldBeEdge 0%nat 1%nat 2%nat 3%nat [7; 2; 0]%nat = false /\
  ContainerIteratorFlags.couldBeFace 0%nat 1%nat 2%nat 3%nat [7; 2; 0]%nat = true.
Proof.
  assert (H : (0 <> 2)%nat) by lia.
  split; [exact H|].
  destruct (topology_is_decided_by_the_first_flag 0%nat 1%nat 2%nat 3%nat
              [7; 2; 0]%nat H) as [Hfirst _].
  apply (Hfirst [7%nat] 2%nat [0%nat]).
  - reflexivity.
  - constructor; [|constructor]. unfold is_topology. lia.
  - right. right. left. reflexivity.
Defined.

(* --------------------------------------------------------------------- *)
(** ** BiCGStab: what each task leaves in the fields *)
(* --------------------------------------------------------------------- *)

Section TaskPostconditions.

Import Mesh BiCGStab.
Context {R : Type} {RO : RealOps R}.
Implicit Types (st : Store R) (sv : Solver R).

(** The store a reduction leaves is the one the loop over its updates
    leaves. *)
Lemma par_reduce_store (body : Store R -> nat -> Z -> Z -> Z -> R -> Store R * R)
    (upd : Store R -> nat -> Z -> Z -> Z -> Store R) (bs be ks ke js je is_ ie : Z) st :
  (forall st b k j i l, fst (body st b k j i l) = upd st b k j i) ->
  fst (par_reduce bs be ks ke js je is_ ie body st)
  = par_for bs be ks ke js je is_ ie upd st.
Proof.
  intros Hb. unfold par_reduce, par_for.
  generalize (cells bs be ks ke js je is_ ie) as l. generalize (@Rzero R RO) as z.
  intros z l. revert z st. induction l as [|[[[b k] j] i] l IH]; intros z st; simpl;
    [reflexivity|].
  specialize (Hb st b k j i z). destruct (body st b k j i z) as [st1 z1].
  simpl in Hb. subst st1. apply IH.
Qed.

(** A loop whose body writes the cell it is at only, from values of that
    cell only: every cell of the index space ends as the body leaves it
    when run on the initial store, and nothing else changes. *)
Lemma par_for_local (upd : Store R -> nat -> Z -> Z -> Z -> Store R)
    (be ks ke js je is_ ie : Z) st :
  (forall st b k j i c', c' <> (b, k, j, i) -> agree_at c' (upd st b k j i) st) ->
  (forall st st' b k j i,
     agree_at (b, k, j, i) st st' ->
     agree_at (b, k, j, i) (upd st b k j i) (upd st' b k j i)) ->
  forall p nm cmp b k j i,
    data (par_for 0 be ks ke js je is_ ie upd st p) nm cmp (b, k, j, i)
    = if decide ((b, k, j, i) ∈ cells 0 be ks ke js je is_ ie)
      then data (upd st b k j i p) nm cmp (b, k, j, i)
      else data (st p) nm cmp (b, k, j, i).
Proof.
  intros Hframe Hlocal p nm cmp b k j i. unfold par_for.
  set (body := fun (st : Store R) (c : Cell) => let '(b, k, j, i) := c in upd st b k j i).
  assert (Hf : forall st c c', c' <> c -> agree_at c' (body st c) st).
  { intros st1 [[[b1 k1] j1] i1] c' Hne. apply Hframe, Hne. }
  assert (Hl : forall st st' c, agree_at c st st' -> agree_at c (body st c) (body st' c)).
  { intros st1 st2 [[[b1 k1] j1] i1] Hag. apply Hlocal, Hag. }
  destruct (fold_cells_local body _ Hf Hl (NoDup_cells be ks ke js je is_ ie) st (b, k, j, i))
    as [Hin Hout].
  change (fold_left (fun st '(b, k, j, i) => upd st b k j i)) with (fold_left body).
  destruct (decide ((b, k, j, i) ∈ cells 0 be ks ke js je is_ ie)) as [Hc|Hc];
    rewrite list_elem_of_In in Hc.
  - apply (Hin Hc p nm cmp).
  - apply (Hout Hc p nm cmp).
Qed.

End TaskPostconditions.

(** One step of a proof that a loop body is local to its cell. *)
Ltac local_step Hag :=
  lazymatch goal with
  | |- agree_at _ (Mesh.pack_set _ _ _ _ _ _ _ _) (Mesh.pack_set _ _ _ _ _ _ _ _) =>
      apply pack_set_agree
  | |- agree_at _ _ _ => exact Hag
  | |- Mesh.pack_get _ _ _ _ _ _ _ = Mesh.pack_get _ _ _ _ _ _ _ =>
      eapply pack_get_agree; [reflexivity|]
  | |- ?x = ?x => reflexivity
  | |- _ = _ => f_equal
  end.

(** A body made of writes at its own cell leaves the other cells alone. *)
Ltac frame_steps Hne :=
  repeat (eapply agree_at_trans; [apply pack_set_other, Hne|]); apply agree_at_refl.

Section InitialState.

Import Mesh BiCGStab.
Context {R : Type} {RO : RealOps R}.
Implicit Types (st : Store R) (sv : Solver R).

Lemma slot_single st u nm :
  scalar_fields st u [nm] -> slot (PackVariables st u [nm]) 0 = Some (nm, 0%nat).
Proof.
  intros Hs. unfold slot. rewrite slots_scalar_fields by exact Hs. reflexivity.
Qed.

End InitialState.

(** X8. InitializeBiCGStab, for one-component fields: on every block and
    interior cell of [u] it leaves the right-hand side in the residual and
    in the shadow residual, zero in v and p, and zero in the solution field
    of [du] (a later assignment winning where names coincide); every other
    value of the mesh data is as before.  The three scalars rho_(i-1), alpha
    and omega are 1, the accumulator it is given has grown by the sum of the
    right-hand side, and the other accumulators and the iteration counter
    are unchanged. *)
Theorem InitializeBiCGStab_postcondition {R : Type} {RO : RealOps R}
    (sv : BiCGStab.Solver R) (st : Mesh.Store R) (u du : Mesh.Ptr)
    (gres0 : BiCGStab.Handle) :
  scalar_fields st u [BiCGStab.res sv; BiCGStab.res0 sv; BiCGStab.vk sv;
                      BiCGStab.pk sv; BiCGStab.rhs_name sv] ->
  scalar_fields st du [BiCGStab.sol_name sv] ->
  exists st',
    BiCGStab.InitializeBiCGStab sv st u du gres0
    = (BiCGStab.set_val
         (BiCGStab.set_omega (BiCGStab.set_alpha (BiCGStab.set_rhoi_old sv Rone) Rone) Rone)
         gres0 (Radd (BiCGStab.val sv gres0) (field_sum st u (BiCGStab.rhs_name sv))),
       st', complete) /\
    forall p nm cmp c,
      Mesh.data (st' p) nm cmp c
      = if decide (c ∈ interior_cells (st u))
        then if decide (p = du /\ nm = BiCGStab.sol_name sv /\ cmp = 0%nat) then Rzero
             else if decide (p = u /\ nm = BiCGStab.pk sv /\ cmp = 0%nat) then Rzero
             else if decide (p = u /\ nm = BiCGStab.vk sv /\ cmp = 0%nat) then Rzero
             else if decide (p = u /\ nm = BiCGStab.res0 sv /\ cmp = 0%nat)
                  then field st u (BiCGStab.rhs_name sv) c
             else if decide (p = u /\ nm = BiCGStab.res sv /\ cmp = 0%nat)
                  then field st u (BiCGStab.rhs_name sv) c
             else Mesh.data (st p) nm cmp c
        else Mesh.data (st p) nm cmp c.
Proof.
  intros Hs Hx. unfold BiCGStab.InitializeBiCGStab.
  set (v := Mesh.PackVariables st u _).
  set (dv := Mesh.PackVariables st du _).
  assert (Hres : Mesh.slot v (Mesh.imap_first v (BiCGStab.res sv))
                 = Some (BiCGStab.res sv, 0%nat))
    by (apply slot_imap_first; simpl; auto).
  assert (Hres0 : Mesh.slot v (Mesh.imap_first v (BiCGStab.res0 sv))
                  = Some (BiCGStab.res0 sv, 0%nat))
    by (apply slot_imap_first; simpl; auto).
  assert (Hvk : Mesh.slot v (Mesh.imap_first v (BiCGStab.vk sv))
                = Some (BiCGStab.vk sv, 0%nat))
    by (apply slot_imap_first; simpl; auto).
  assert (Hpk : Mesh.slot v (Mesh.imap_first v (BiCGStab.pk sv))
                = Some (BiCGStab.pk sv, 0%nat))
    by (apply slot_imap_first; simpl; auto 10).
  assert (Hrhs : Mesh.slot v (Mesh.imap_first v (BiCGStab.rhs_name sv))
                 = Some (BiCGStab.rhs_name sv, 0%nat))
    by (apply slot_imap_first; simpl; auto 10).
  assert (Hdv : Mesh.slot dv 0 = Some (BiCGStab.sol_name sv, 0%nat))
    by (apply slot_single, Hx).
  set (ires := Mesh.imap_first v (BiCGStab.res sv)) in *.
  set (ires0 := Mesh.imap_first v (BiCGStab.res0 sv)) in *.
  set (irhs := Mesh.imap_first v (BiCGStab.rhs_name sv)) in *.
  set (ivk := Mesh.imap_first v (BiCGStab.vk sv)) in *.
  set (ipk := Mesh.imap_first v (BiCGStab.pk sv)) in *.
  set (st1 := fun (st : Mesh.Store R) b k j i =>
                Mesh.pack_set st v b ires k j i (Mesh.pack_get st v b irhs k j i)).
  set (st2 := fun (st : Mesh.Store R) b k j i =>
                Mesh.pack_set (st1 st b k j i) v b ires0 k j i
                              (Mesh.pack_get (st1 st b k j i) v b irhs k j i)).
  set (upd := fun (st : Mesh.Store R) b k j i =>
                Mesh.pack_set
                  (Mesh.pack_set (Mesh.pack_set (st2 st b k j i) v b ivk k j i Rzero)
                                 v b ipk k j i Rzero) dv b 0 k j i Rzero).
  set (term := fun (st : Mesh.Store R) b k j i =>
                 Mesh.pack_get (st2 st b k j i) v b irhs k j i).
  (* the values the body reads back after its first two writes *)
  assert (E1 : forall b k j i,
    Mesh.pack_get (st1 st b k j i) v b irhs k j i
    = field st u (BiCGStab.rhs_name sv) (b, k, j, i)).
  { intros b k j i. unfold st1, Mesh.pack_get at 1. rewrite Hrhs.
    rewrite (pack_set_here _ v b ires k j i _ _ _ _ _ _ Hres).
    unfold Mesh.pack_get. rewrite Hrhs. unfold field. change (Mesh.owner v) with u.
    case_decide; reflexivity. }
  assert (E2 : forall b k j i,
    Mesh.pack_get (st2 st b k j i) v b irhs k j i
    = field st u (BiCGStab.rhs_name sv) (b, k, j, i)).
  { intros b k j i. unfold st2, Mesh.pack_get at 1. rewrite Hrhs.
    rewrite (pack_set_here _ v b ires0 k j i _ _ _ _ _ _ Hres0), E1.
    case_decide; [reflexivity|].
    pose proof (E1 b k j i) as E. unfold Mesh.pack_get in E at 1. rewrite Hrhs in E.
    exact E. }
  assert (Hframe : forall st b k j i c',
    c' <> (b, k, j, i) -> agree_at c' (upd st b k j i) st).
  { intros st0 b k j i c' Hne. unfold upd, st2, st1. frame_steps Hne. }
  assert (Hlocal : forall st st' b k j i,
    agree_at (b, k, j, i) st st' ->
    agree_at (b, k, j, i) (upd st b k j i) (upd st' b k j i)).
  { intros st0 st0' b k j i Hag. unfold upd, st2, st1. repeat local_step Hag. }
  assert (Hterm : forall st st' b k j i,
    agree_at (b, k, j, i) st st' -> term st b k j i = term st' b k j i).
  { intros st0 st0' b k j i Hag. unfold term, st2, st1. repeat local_step Hag. }
  match goal with
  | |- context [Mesh.par_reduce ?bs ?be ?ks ?ke ?js ?je ?is_ ?ie ?body st] =>
      change body with (fun st b k j i lsum => (upd st b k j i, Radd lsum (term st b k j i)));
      pose proof (par_reduce_local upd term be ks ke js je is_ ie st Hframe Hterm) as Hsum;
      pose proof (par_reduce_store
                    (fun st b k j i lsum => (upd st b k j i, Radd lsum (term st b k j i)))
                    upd bs be ks ke js je is_ ie st (fun _ _ _ _ _ _ => eq_refl)) as Hst
  end.
  destruct (Mesh.par_reduce _ _ _ _ _ _ _ _ _ st) as [st' err].
  simpl in Hsum, Hst. subst st' err. eexists. split.
  - do 3 f_equal. unfold field_sum, interior_cells, Mesh.GetDim5.
    cbn [Mesh.owner v Mesh.PackVariables].
    change (BiCGStab.val (BiCGStab.set_omega _ _) gres0) with (BiCGStab.val sv gres0).
    f_equal. apply fold_left_ext. intros lsum [[[b k] j] i]. f_equal. apply E2.
  - intros p nm cmp [[[b k] j] i].
    rewrite (par_for_local upd) by assumption.
    unfold interior_cells, Mesh.GetDim5. cbn [Mesh.owner v Mesh.PackVariables].
    match goal with
    | |- (if ?d then _ else _) = _ =>
        destruct d as [Hc|Hc];
        [rewrite decide_True by exact Hc | rewrite decide_False by exact Hc; reflexivity]
    end.
    unfold upd.
    rewrite (pack_set_here _ dv b 0 k j i _ _ _ _ _ _ Hdv).
    change (Mesh.owner dv) with du. case_decide; [reflexivity|].
    rewrite (pack_set_here _ v b ipk k j i _ _ _ _ _ _ Hpk).
    change (Mesh.owner v) with u. case_decide; [reflexivity|].
    rewrite (pack_set_here _ v b ivk k j i _ _ _ _ _ _ Hvk).
    change (Mesh.owner v) with u. case_decide; [reflexivity|].
    unfold st2.
    rewrite (pack_set_here _ v b ires0 k j i _ _ _ _ _ _ Hres0).
    change (Mesh.owner v) with u. case_decide; [apply E1|].
    unfold st1.
    rewrite (pack_set_here _ v b ires k j i _ _ _ _ _ _ Hres).
    change (Mesh.owner v) with u. case_decide; [|reflexivity].
    unfold Mesh.pack_get. rewrite Hrhs. reflexivity.
Qed.

(** The theorem at the example partition with the right-hand side
    [2, 12]: the accumulator holds 14, the residual holds the right-hand
    side and p is zero. *)
Lemma InitializeBiCGStab_postcondition_witness :
  exists sv' st',
    BiCGStab.InitializeBiCGStab BiCGStabExample.solver (BiCGStabExample.store 2 12)
                                0%nat 0%nat BiCGStab.global_res0
    = (sv', st', complete) /\
    BiCGStab.val sv' BiCGStab.global_res0 = double_of_Z 14 /\
    BiCGStabExample.at_cell st' "res0" 1 = double_of_Z 12 /\
    BiCGStabExample.at_cell st' "pk0" 0 = S754_zero false.
Proof.
  destruct (InitializeBiCGStab_postcondition
              BiCGStabExample.solver (BiCGStabExample.store 2 12) 0%nat 0%nat
              BiCGStab.global_res0
              (BiCGStabExample_scalar_fields 2 12 0%nat _)
              (BiCGStabExample_scalar_fields 2 12 0%nat _)) as (st' & E & Hd).
  eexists. exists st'. split; [exact E|].
  split; [vm_compute; reflexivity|].
  unfold BiCGStabExample.at_cell. rewrite !Hd. split; vm_compute; reflexivity.
Defined.

Module TaskExample.
Import Mesh BiCGStab.

(** A solver in the middle of a cycle: rho_(i-1) = alpha = omega = 1 and
    the accumulators rho_i = 6, r0 . v = 3, t . s = 8, t . t = 4. *)
Definition solver : Solver double :=
  with_state BiCGStabExample.solver 1 (double_of_Z 1) (double_of_Z 1) (double_of_Z 1)
    (fun h => match h with
              | rhoi => double_of_Z 6
              | r0_dot_vk => double_of_Z 3
              | t_dot_s => double_of_Z 8
              | t_dot_t => double_of_Z 4
              | _ => S754_zero false
              end).

(** One block with the interior cells i = 0, 1 and one-component fields:
    r = [3, 5], v = [1, 2], p = [7, 9], t = [1, 1], x = [10, 20]. *)
Definition mesh : MeshData double :=
  {| NumBlocks := 1;
     GetBoundsI := {| s := 0; e := 1 |};
     GetBoundsJ := {| s := 0; e := 0 |};
     GetBoundsK := {| s := 0; e := 0 |};
     GetNdim := 1;
     Dx := fun _ => double_of_Z 1;
     NumComponents := fun _ => 1%nat;
     data := fun nm c '(b, k, j, i) =>
       if decide (nm = "res0") then (if i =? 0 then double_of_Z 3 else double_of_Z 5)
       else if decide (nm = "vk0") then (if i =? 0 then double_of_Z 1 else double_of_Z 2)
       else if decide (nm = "pk0") then (if i =? 0 then double_of_Z 7 else double_of_Z 9)
       else if decide (nm = "tk0") then double_of_Z 1
       else if decide (nm = "potential")
       then (if i =? 0 then double_of_Z 10 else double_of_Z 20)
       else S754_zero false |}.

Definition store : Store double := fun _ => mesh.

End TaskExample.

Lemma TaskExample_scalar_fields (u : Mesh.Ptr) (names : list string) :
  scalar_fields TaskExample.store u names.
Proof. intros nm _. reflexivity. Qed.


(** X9. Compute_pk, for one-component fields: on every block and interior
    cell of [u] the field p becomes r + beta (p - omega v), with beta and
    omega formed from the scalars held on entry, and every other value of
    the mesh data is as before; of the solver only rho_(i-1) changes, to
    the value of the rho_i accumulator. *)
Theorem Compute_pk_postcondition {R : Type} {RO : RealOps R}
    (sv : BiCGStab.Solver R) (st : Mesh.Store R) (u : Mesh.Ptr) :
  scalar_fields st u [BiCGStab.pk sv; BiCGStab.res sv; BiCGStab.vk sv] ->
  exists st',
    BiCGStab.Compute_pk sv st u
    = (BiCGStab.set_rhoi_old sv (BiCGStab.val sv BiCGStab.rhoi), st', complete) /\
    forall p nm cmp c,
      Mesh.data (st' p) nm cmp c
      = if decide (c ∈ interior_cells (st u) /\
                   p = u /\ nm = BiCGStab.pk sv /\ cmp = 0%nat)
        then Radd (field st u (BiCGStab.res sv) c)
                  (Rmul (beta_of sv)
                        (Rsub (field st u (BiCGStab.pk sv) c)
                              (Rmul (BiCGStab.omega sv) (field st u (BiCGStab.vk sv) c))))
        else Mesh.data (st p) nm cmp c.
Proof.
  intros Hs. unfold BiCGStab.Compute_pk. eexists. split; [reflexivity|].
  intros p nm cmp [[[b k] j] i].
  set (v := Mesh.PackVariables st u _).
  assert (Hpk : Mesh.slot v (Mesh.imap_first v (BiCGStab.pk sv))
                = Some (BiCGStab.pk sv, 0%nat))
    by (apply slot_imap_first; simpl; auto).
  assert (Hres : Mesh.slot v (Mesh.imap_first v (BiCGStab.res sv))
                 = Some (BiCGStab.res sv, 0%nat))
    by (apply slot_imap_first; simpl; auto).
  assert (Hvk : Mesh.slot v (Mesh.imap_first v (BiCGStab.vk sv))
                = Some (BiCGStab.vk sv, 0%nat))
    by (apply slot_imap_first; simpl; auto).
  rewrite (par_for_pointwise v _ (BiCGStab.pk sv) 0%nat
             (fun st b k j i =>
                Radd (Mesh.pack_get st v b (Mesh.imap_first v (BiCGStab.res sv)) k j i)
                  (Rmul (Rmul (Rdiv (BiCGStab.val sv BiCGStab.rhoi) (BiCGStab.rhoi_old sv))
                              (Rdiv (BiCGStab.alpha sv) (BiCGStab.omega sv)))
                     (Rsub (Mesh.pack_get st v b (Mesh.imap_first v (BiCGStab.pk sv)) k j i)
                        (Rmul (BiCGStab.omega sv)
                           (Mesh.pack_get st v b (Mesh.imap_first v (BiCGStab.vk sv)) k j i))))))
    by (try exact Hpk; intros st1 st2 b' k' j' i' Hag; repeat local_step Hag).
  unfold Mesh.pack_get. rewrite Hpk, Hres, Hvk. reflexivity.
Qed.

(** The theorem at the partition of [TaskExample]: beta is
    (6 / 1) (1 / 1) = 6 and p becomes 5 + 6 (9 - 1 * 2) = 47 at the cell
    i = 1, the residual staying 5. *)
Lemma Compute_pk_postcondition_witness :
  exists st',
    BiCGStab.Compute_pk TaskExample.solver TaskExample.store 0%nat
    = (BiCGStab.set_rhoi_old TaskExample.solver (double_of_Z 6), st', complete) /\
    BiCGStabExample.at_cell st' "pk0" 1 = double_of_Z 47 /\
    BiCGStabExample.at_cell st' "res0" 1 = double_of_Z 5.
Proof.
  destruct (Compute_pk_postcondition TaskExample.solver TaskExample.store 0%nat
              (TaskExample_scalar_fields 0%nat _)) as (st' & E & Hd).
  exists st'. split; [exact E|].
  unfold BiCGStabExample.at_cell. rewrite !Hd. split; vm_compute; reflexivity.
Defined.

(** X10. Update_h, for one-component fields: on every block and interior
    cell of [u] the solution field of [u] grows by (rho_i / (r0 . v)) p;
    every other value of the mesh data is as before, the solution field of
    the second argument [du] included when it is another object, and the
    solver is unchanged. *)
Theorem Update_h_postcondition {R : Type} {RO : RealOps R}
    (sv : BiCGStab.Solver R) (st : Mesh.Store R) (u du : Mesh.Ptr) :
  scalar_fields st u [BiCGStab.pk sv] ->
  scalar_fields st u [BiCGStab.sol_name sv] ->
  exists st',
    BiCGStab.Update_h sv st u du = (sv, st', complete) /\
    forall p nm cmp c,
      Mesh.data (st' p) nm cmp c
      = if decide (c ∈ interior_cells (st u) /\
                   p = u /\ nm = BiCGStab.sol_name sv /\ cmp = 0%nat)
        then Radd (field st u (BiCGStab.sol_name sv) c)
                  (Rmul (Rdiv (BiCGStab.val sv BiCGStab.rhoi)
                              (BiCGStab.val sv BiCGStab.r0_dot_vk))
                        (field st u (BiCGStab.pk sv) c))
        else Mesh.data (st p) nm cmp c.
Proof.
  intros Hp Hx. unfold BiCGStab.Update_h. eexists. split; [reflexivity|].
  intros p nm cmp [[[b k] j] i].
  set (v := Mesh.PackVariables st u [BiCGStab.pk sv]).
  set (dv := Mesh.PackVariables st u [BiCGStab.sol_name sv]).
  assert (Hv : Mesh.slot v 0 = Some (BiCGStab.pk sv, 0%nat)) by (apply slot_single, Hp).
  assert (Hdv : Mesh.slot dv 0 = Some (BiCGStab.sol_name sv, 0%nat))
    by (apply slot_single, Hx).
  rewrite (par_for_pointwise dv 0 (BiCGStab.sol_name sv) 0%nat
             (fun st b k j i =>
                Radd (Mesh.pack_get st dv b 0 k j i)
                     (Rmul (Rdiv (BiCGStab.val sv BiCGStab.rhoi)
                                 (BiCGStab.val sv BiCGStab.r0_dot_vk))
                           (Mesh.pack_get st v b 0 k j i))))
    by (try exact Hdv; intros st1 st2 b' k' j' i' Hag; repeat local_step Hag).
  unfold Mesh.pack_get. rewrite Hv, Hdv. reflexivity.
Qed.

(** The theorem at the partition of [TaskExample], with the second
    argument another object: the solution of the first becomes
    20 + (6 / 3) 9 = 38 at the cell i = 1 and that of the second stays 20. *)
Lemma Update_h_postcondition_witness :
  exists st',
    BiCGStab.Update_h TaskExample.solver TaskExample.store 0%nat 1%nat
    = (TaskExample.solver, st', complete) /\
    Mesh.data (st' 0%nat) "potential" 0%nat (0%nat, 0, 0, 1) = double_of_Z 38 /\
    Mesh.data (st' 1%nat) "potential" 0%nat (0%nat, 0, 0, 1) = double_of_Z 20.
Proof.
  destruct (Update_h_postcondition TaskExample.solver TaskExample.store 0%nat 1%nat
              (TaskExample_scalar_fields 0%nat _) (TaskExample_scalar_fields 0%nat _))
    as (st' & E & Hd).
  exists st'. split; [exact E|].
  rewrite !Hd. split; vm_compute; reflexivity.
Defined.

(** X11. Update_s, for one-component fields: on every block and interior
    cell of [u] the residual becomes r - (rho_i / (r0 . v)) v; every other
    value of the mesh data is as before and the solver is unchanged. *)
Theorem Update_s_postcondition {R : Type} {RO : RealOps R}
    (sv : BiCGStab.Solver R) (st : Mesh.Store R) (u : Mesh.Ptr) :
  scalar_fields st u [BiCGStab.res sv; BiCGStab.vk sv] ->
  exists st',
    BiCGStab.Update_s sv st u = (sv, st', complete) /\
    forall p nm cmp c,
      Mesh.data (st' p) nm cmp c
      = if decide (c ∈ interior_cells (st u) /\
                   p = u /\ nm = BiCGStab.res sv /\ cmp = 0%nat)
        then Rsub (field st u (BiCGStab.res sv) c)
                  (Rmul (Rdiv (BiCGStab.val sv BiCGStab.rhoi)
                              (BiCGStab.val sv BiCGStab.r0_dot_vk))
                        (field st u (BiCGStab.vk sv) c))
        else Mesh.data (st p) nm cmp c.
Proof.
  intros Hs. unfold BiCGStab.Update_s. eexists. split; [reflexivity|].
  intros p nm cmp [[[b k] j] i].
  set (v := Mesh.PackVariables st u _).
  assert (Hres : Mesh.slot v (Mesh.imap_first v (BiCGStab.res sv))
                 = Some (BiCGStab.res sv, 0%nat))
    by (apply slot_imap_first; simpl; auto).
  assert (Hvk : Mesh.slot v (Mesh.imap_first v (BiCGStab.vk sv))
                = Some (BiCGStab.vk sv, 0%nat))
    by (apply slot_imap_first; simpl; auto).
  rewrite (par_for_pointwise v _ (BiCGStab.res sv) 0%nat
             (fun st b k j i =>
                Rsub (Mesh.pack_get st v b (Mesh.imap_first v (BiCGStab.res sv)) k j i)
                     (Rmul (Rdiv (BiCGStab.val sv BiCGStab.rhoi)
                                 (BiCGStab.val sv BiCGStab.r0_dot_vk))
                           (Mesh.pack_get st v b (Mesh.imap_first v (BiCGStab.vk sv)) k j i))))
    by (try exact Hres; intros st1 st2 b' k' j' i' Hag; repeat local_step Hag).
  unfold Mesh.pack_get. rewrite Hres, Hvk. reflexivity.
Qed.

(** The theorem at the partition of [TaskExample]: the residual becomes
    5 - (6 / 3) 2 = 1 at the cell i = 1. *)
Lemma Update_s_postcondition_witness :
  exists st',
    BiCGStab.Update_s TaskExample.solver TaskExample.store 0%nat
    = (TaskExample.solver, st', complete) /\
    BiCGStabExample.at_cell st' "res0" 1 = double_of_Z 1 /\
    BiCGStabExample.at_cell st' "vk0" 1 = double_of_Z 2.
Proof.
  destruct (Update_s_postcondition TaskExample.solver TaskExample.store 0%nat
              (TaskExample_scalar_fields 0%nat _)) as (st' & E & Hd).
  exists st'. split; [exact E|].
  unfold BiCGStabExample.at_cell. rewrite !Hd. split; vm_compute; reflexivity.
Defined.

(** X12. Update_x_res, for one-component fields and a solution field that
    is neither the residual nor t: omega becomes (t . s) / (t . t) of the
    accumulators held on entry; on every block and interior cell of [u] the
    solution field of [u] grows by omega r and the residual becomes
    r - omega t, every other value of the mesh data being as before (the
    second argument [du] is not written); and the accumulator it is given
    grows by the sum of the squares of the new residual. *)
Theorem Update_x_res_postcondition {R : Type} {RO : RealOps R}
    (sv : BiCGStab.Solver R) (st : Mesh.Store R) (u du : Mesh.Ptr)
    (gres : BiCGStab.Handle) :
  scalar_fields st u [BiCGStab.res sv; BiCGStab.tk sv] ->
  scalar_fields st u [BiCGStab.sol_name sv] ->
  BiCGStab.sol_name sv <> BiCGStab.res sv ->
  BiCGStab.sol_name sv <> BiCGStab.tk sv ->
  let w := Rdiv (BiCGStab.val sv BiCGStab.t_dot_s) (BiCGStab.val sv BiCGStab.t_dot_t) in
  let r := fun c => Rsub (field st u (BiCGStab.res sv) c)
                         (Rmul w (field st u (BiCGStab.tk sv) c)) in
  exists st',
    BiCGStab.Update_x_res sv st u du gres
    = (BiCGStab.set_val (BiCGStab.set_omega sv w) gres
         (Radd (BiCGStab.val sv gres)
               (fold_left (fun lsum c => Radd lsum (Rmul (r c) (r c)))
                          (interior_cells (st u)) Rzero)),
       st', complete) /\
    forall p nm cmp c,
      Mesh.data (st' p) nm cmp c
      = if decide (c ∈ interior_cells (st u))
        then if decide (p = u /\ nm = BiCGStab.res sv /\ cmp = 0%nat) then r c
             else if decide (p = u /\ nm = BiCGStab.sol_name sv /\ cmp = 0%nat)
                  then Radd (field st u (BiCGStab.sol_name sv) c)
                            (Rmul w (field st u (BiCGStab.res sv) c))
             else Mesh.data (st p) nm cmp c
        else Mesh.data (st p) nm cmp c.
Proof.
  intros Hs Hx Hxr Hxt w r. unfold BiCGStab.Update_x_res.
  set (v := Mesh.PackVariables st u [BiCGStab.res sv; BiCGStab.tk sv]).
  set (dv := Mesh.PackVariables st u [BiCGStab.sol_name sv]).
  assert (Hres : Mesh.slot v (Mesh.imap_first v (BiCGStab.res sv))
                 = Some (BiCGStab.res sv, 0%nat))
    by (apply slot_imap_first; simpl; auto).
  assert (Htk : Mesh.slot v (Mesh.imap_first v (BiCGStab.tk sv))
                = Some (BiCGStab.tk sv, 0%nat))
    by (apply slot_imap_first; simpl; auto).
  assert (Hdv : Mesh.slot dv 0 = Some (BiCGStab.sol_name sv, 0%nat))
    by (apply slot_single, Hx).
  set (ires := Mesh.imap_first v (BiCGStab.res sv)) in *.
  set (itk := Mesh.imap_first v (BiCGStab.tk sv)) in *.
  change (BiCGStab.omega (BiCGStab.set_omega sv _)) with w.
  set (st1 := fun (st : Mesh.Store R) b k j i =>
                Mesh.pack_set st dv b 0 k j i
                  (Radd (Mesh.pack_get st dv b 0 k j i)
                        (Rmul w (Mesh.pack_get st v b ires k j i)))).
  set (upd := fun (st : Mesh.Store R) b k j i =>
                Mesh.pack_set (st1 st b k j i) v b ires k j i
                  (Rsub (Mesh.pack_get (st1 st b k j i) v b ires k j i)
                        (Rmul w (Mesh.pack_get (st1 st b k j i) v b itk k j i)))).
  set (term := fun (st : Mesh.Store R) b k j i =>
                 Rmul (Mesh.pack_get (upd st b k j i) v b ires k j i)
                      (Mesh.pack_get (upd st b k j i) v b ires k j i)).
  (* the values the body reads after its first write *)
  assert (E1 : forall b k j i,
    Rsub (Mesh.pack_get (st1 st b k j i) v b ires k j i)
         (Rmul w (Mesh.pack_get (st1 st b k j i) v b itk k j i))
    = r (b, k, j, i)).
  { intros b k j i. unfold st1, Mesh.pack_get. rewrite Hres, Htk, Hdv.
    rewrite !(pack_set_here _ dv b 0 k j i _ _ _ _ _ _ Hdv).
    rewrite !decide_False by (intros (_ & E & _); congruence). reflexivity. }
  assert (E2 : forall b k j i,
    Mesh.pack_get (upd st b k j i) v b ires k j i = r (b, k, j, i)).
  { intros b k j i. unfold upd, Mesh.pack_get at 1. rewrite Hres.
    rewrite (pack_set_here _ v b ires k j i _ _ _ _ _ _ Hres).
    rewrite decide_True by (repeat split; reflexivity). apply E1. }
  assert (Hframe : forall st b k j i c',
    c' <> (b, k, j, i) -> agree_at c' (upd st b k j i) st).
  { intros st0 b k j i c' Hne. unfold upd, st1. frame_steps Hne. }
  assert (Hlocal : forall st st' b k j i,
    agree_at (b, k, j, i) st st' ->
    agree_at (b, k, j, i) (upd st b k j i) (upd st' b k j i)).
  { intros st0 st0' b k j i Hag. unfold upd, st1. repeat local_step Hag. }
  assert (Hterm : forall st st' b k j i,
    agree_at (b, k, j, i) st st' -> term st b k j i = term st' b k j i).
  { intros st0 st0' b k j i Hag. unfold term.
    assert (E : Mesh.pack_get (upd st0 b k j i) v b ires k j i
                = Mesh.pack_get (upd st0' b k j i) v b ires k j i)
      by (eapply pack_get_agree; [reflexivity | apply Hlocal, Hag]).
    rewrite E. reflexivity. }
  match goal with
  | |- context [Mesh.par_reduce ?bs ?be ?ks ?ke ?js ?je ?is_ ?ie ?body st] =>
      change body with (fun st b k j i lsum => (upd st b k j i, Radd lsum (term st b k j i)));
      pose proof (par_reduce_local upd term be ks ke js je is_ ie st Hframe Hterm) as Hsum;
      pose proof (par_reduce_store
                    (fun st b k j i lsum => (upd st b k j i, Radd lsum (term st b k j i)))
                    upd bs be ks ke js je is_ ie st (fun _ _ _ _ _ _ => eq_refl)) as Hst
  end.
  destruct (Mesh.par_reduce _ _ _ _ _ _ _ _ _ st) as [st' err].
  simpl in Hsum, Hst. subst st' err. eexists. split.
  - do 3 f_equal. unfold interior_cells, Mesh.GetDim5.
    cbn [Mesh.owner v Mesh.PackVariables].
    change (BiCGStab.val (BiCGStab.set_omega _ _) gres) with (BiCGStab.val sv gres).
    f_equal. apply fold_left_ext. intros lsum [[[b k] j] i]. f_equal.
    unfold term. rewrite E2. reflexivity.
  - intros p nm cmp [[[b k] j] i].
    rewrite (par_for_local upd) by assumption.
    unfold interior_cells, Mesh.GetDim5. cbn [Mesh.owner v Mesh.PackVariables].
    match goal with
    | |- (if ?d then _ else _) = _ =>
        destruct d as [Hc|Hc];
        [rewrite decide_True by exact Hc | rewrite decide_False by exact Hc; reflexivity]
    end.
    unfold upd.
    rewrite (pack_set_here _ v b ires k j i _ _ _ _ _ _ Hres).
    change (Mesh.owner v) with u. case_decide; [apply E1|].
    unfold st1.
    rewrite (pack_set_here _ dv b 0 k j i _ _ _ _ _ _ Hdv).
    change (Mesh.owner dv) with u. case_decide; [|reflexivity].
    unfold Mesh.pack_get. rewrite Hres, Hdv. reflexivity.
Qed.

(** The theorem at the partition of [TaskExample]: omega is 8 / 4 = 2, the
    solution becomes 20 + 2 * 5 = 30 and the residual 5 - 2 * 1 = 3 at the
    cell i = 1, and the accumulator grows by 1 + 9 = 10. *)
Lemma Update_x_res_postcondition_witness :
  exists sv' st',
    BiCGStab.Update_x_res TaskExample.solver TaskExample.store 0%nat 1%nat
                          BiCGStab.global_res
    = (sv', st', complete) /\
    BiCGStab.omega sv' = double_of_Z 2 /\
    BiCGStab.val sv' BiCGStab.global_res = double_of_Z 10 /\
    BiCGStabExample.at_cell st' "potential" 1 = double_of_Z 30 /\
    BiCGStabExample.at_cell st' "res0" 1 = double_of_Z 3.
Proof.
  destruct (Update_x_res_postcondition TaskExample.solver TaskExample.store 0%nat 1%nat
              BiCGStab.global_res
              (TaskExample_scalar_fields 0%nat _) (TaskExample_scalar_fields 0%nat _))
    as (st' & E & Hd); [discriminate | discriminate |].
  eexists. exists st'. split; [exact E|].
  split; [vm_compute; reflexivity|]. split; [vm_compute; reflexivity|].
  unfold BiCGStabExample.at_cell. rewrite !Hd. split; vm_compute; reflexivity.
Defined.

(* --------------------------------------------------------------------- *)
(** ** BiCGStab: the matrix-vector product *)
(* --------------------------------------------------------------------- *)

Section MatVecProduct.

Import Mesh BiCGStab.
Context {R : Type} {RO : RealOps R}.
Implicit Types (st : Store R) (sv : Solver R).

(** What a write through a pack leaves at any cell. *)
Lemma pack_set_data st (v : MeshPack) (b : nat) (n k j i : Z) (x : R) nm cmp p nm' cmp' c :
  slot v n = Some (nm, cmp) ->
  data (pack_set st v b n k j i x p) nm' cmp' c
  = if decide (c = (b, k, j, i) /\ p = owner v /\ nm' = nm /\ cmp' = cmp) then x
    else data (st p) nm' cmp' c.
Proof.
  intros Hs. unfold pack_set. rewrite Hs. unfold store_set.
  destruct (decide (p = owner v)) as [->|Hp]; simpl;
    repeat case_decide; try reflexivity; exfalso; intuition congruence.
Qed.

(** The two stores hold the same values except in the component [cmp] of
    the field [nm] of the object [u]. *)
Definition agree_off (u : Ptr) (nm : string) (cmp : nat) st st' : Prop :=
  forall p nm' cmp' c,
    ~ (p = u /\ nm' = nm /\ cmp' = cmp) -> data (st p) nm' cmp' c = data (st' p) nm' cmp' c.

(** A loop that assigns, through the entry [n] of a pack, a value that
    does not depend on the component it writes: every cell of the index
    space ends with the value computed on the initial store, and nothing
    else changes. *)
Lemma par_for_write_field (v : MeshPack) (n : Z) (nm : string) (cmp : nat)
    (f : Store R -> nat -> Z -> Z -> Z -> R) (bs be ks ke js je is_ ie : Z) st :
  slot v n = Some (nm, cmp) ->
  (forall st st' b k j i, agree_off (owner v) nm cmp st st' -> f st b k j i = f st' b k j i) ->
  let st' := par_for bs be ks ke js je is_ ie
               (fun st b k j i => pack_set st v b n k j i (f st b k j i)) st in
  forall p nm' cmp' c,
    data (st' p) nm' cmp' c
    = if decide (c ∈ cells bs be ks ke js je is_ ie /\
                 p = owner v /\ nm' = nm /\ cmp' = cmp)
      then let '(b, k, j, i) := c in f st b k j i
      else data (st p) nm' cmp' c.
Proof.
  intros Hslot Hf st' p nm' cmp' c. subst st'. unfold par_for.
  generalize (cells bs be ks ke js je is_ ie) as l. intros l.
  assert (H : forall cur, agree_off (owner v) nm cmp cur st ->
    data (fold_left (fun st '(b, k, j, i) => pack_set st v b n k j i (f st b k j i)) l cur p)
         nm' cmp' c
    = if decide (c ∈ l /\ p = owner v /\ nm' = nm /\ cmp' = cmp)
      then let '(b, k, j, i) := c in f st b k j i
      else data (cur p) nm' cmp' c).
  { induction l as [|[[[b k] j] i] l IH]; intros cur Hcur.
    - cbn [fold_left]. rewrite decide_False; [reflexivity|]. intros [Hc _]. inversion Hc.
    - cbn [fold_left]. rewrite IH.
      + rewrite (pack_set_data _ _ _ _ _ _ _ _ nm cmp) by exact Hslot.
        rewrite (Hf cur st b k j i Hcur).
        destruct (decide (c ∈ l /\ p = owner v /\ nm' = nm /\ cmp' = cmp)) as [Hl|Hl].
        * rewrite decide_True; [reflexivity|].
          destruct Hl as [Hl Hr]. split; [right; exact Hl | exact Hr].
        * destruct (decide (c = (b, k, j, i) /\ p = owner v /\ nm' = nm /\ cmp' = cmp))
            as [Hh|Hh].
          -- destruct Hh as [-> Hr]. rewrite decide_True; [reflexivity|].
             split; [left | exact Hr].
          -- rewrite decide_False; [reflexivity|].
             intros [Hc Hr]. inversion Hc; subst; tauto.
      + intros p0 nm0 cmp0 c0 Hne.
        rewrite (pack_set_data _ _ _ _ _ _ _ _ nm cmp) by exact Hslot.
        rewrite decide_False by tauto. apply Hcur, Hne. }
  apply H. intros p0 nm0 cmp0 c0 _. reflexivity.
Qed.

(** The sum over the components m < N of the matrix field of
    coefficient(m) * operand(cell + offset(m)), added up from zero. *)
Definition stencil_sum (N : nat) (sp : SparseMatrixAccessor) st (u : Ptr)
    (spm in_vec : string) (c : Cell) : R :=
  let '(b, k, j, i) := c in
  fold_left (fun acc m =>
               Radd acc
                 (Rmul (data (st u) spm m (b, k, j, i))
                       (field st u in_vec
                          (b, k + off (koff sp) (Z.of_nat m),
                           j + off (joff sp) (Z.of_nat m),
                           i + off (ioff sp) (Z.of_nat m)))))
            (seq 0 N) Rzero.

(** The product of the stencil with a one-component field at a cell: the
    sum over all components of the matrix field. *)
Definition stencil_product (sp : SparseMatrixAccessor) st (u : Ptr)
    (spm in_vec : string) (c : Cell) : R :=
  stencil_sum (NumComponents (st u) spm) sp st u spm in_vec c.

Lemma fold_left_ext_In {A B} (f g : A -> B -> A) (l : list B) (a : A) :
  (forall a x, In x l -> f a x = g a x) -> fold_left f l a = fold_left g l a.
Proof.
  revert a. induction l as [|x l IH]; intros a H; simpl; [reflexivity|].
  rewrite H by (left; reflexivity). apply IH. intros a' y Hy. apply H. right. exact Hy.
Qed.

Lemma fold_left_over_map {A B C} (f : A -> B -> A) (g : C -> B) (l : list C) (a : A) :
  fold_left f (map g l) a = fold_left (fun a x => f a (g x)) l a.
Proof. revert a. induction l as [|x l IH]; intros a; simpl; [reflexivity | apply IH]. Qed.

Lemma first_index_components nm (a N : nat) (n0 : Z) :
  (0 < N)%nat -> first_index nm (map (pair nm) (seq a N)) n0 = n0.
Proof. destruct N; [lia|]. intros _. simpl. rewrite decide_True by reflexivity. reflexivity. Qed.

Lemma last_index_components nm (a N : nat) (n0 found : Z) :
  last_index nm (map (pair nm) (seq a N)) n0 found
  = if decide (N = 0%nat) then found else n0 + Z.of_nat N - 1.
Proof.
  revert a n0 found. induction N as [|N IH]; intros a n0 found; [reflexivity|].
  cbn [seq map last_index]. rewrite IH.
  rewrite (decide_True (P := nm = nm)) by reflexivity.
  rewrite (decide_False (P := S N = 0%nat)) by lia.
  destruct (decide (N = 0%nat)) as [->|]; lia.
Qed.

(** The pack of MatVec for one-component operands and a matrix field of
    another name. *)
Lemma MatVec_pack st u in_vec out_vec spm :
  scalar_fields st u [in_vec; out_vec] ->
  in_vec <> out_vec -> spm <> in_vec -> spm <> out_vec ->
  (0 < NumComponents (st u) spm)%nat ->
  let v := PackVariables st u [in_vec; out_vec; spm] in
  slots v = (in_vec, 0%nat) :: (out_vec, 0%nat)
            :: map (pair spm) (seq 0 (NumComponents (st u) spm)) /\
  imap_first v in_vec = 0 /\ imap_first v out_vec = 1 /\
  imap_first v spm = 2 /\
  imap_second v spm = 2 + Z.of_nat (NumComponents (st u) spm) - 1.
Proof.
  intros Hs Hio Hsi Hso HN v.
  assert (Hsl : slots v = (in_vec, 0%nat) :: (out_vec, 0%nat)
                          :: map (pair spm) (seq 0 (NumComponents (st u) spm))).
  { unfold v, PackVariables. cbn [slots flat_map].
    rewrite (Hs in_vec), (Hs out_vec) by (simpl; auto). simpl. rewrite app_nil_r.
    reflexivity. }
  split; [exact Hsl|]. unfold imap_first, imap_second. rewrite Hsl. simpl.
  rewrite ?first_index_components by exact HN.
  rewrite last_index_components.
  repeat case_decide; try congruence; try lia; repeat split; lia.
Qed.

Lemma sp_MatVec_stencil sp st st1 u in_vec out_vec spm (b : nat) (k j i : Z) :
  scalar_fields st u [in_vec; out_vec] ->
  in_vec <> out_vec -> spm <> in_vec -> spm <> out_vec ->
  (0 < NumComponents (st u) spm)%nat ->
  let v := PackVariables st u [in_vec; out_vec; spm] in
  sp_MatVec sp st1 v (imap_first v spm) (imap_second v spm) v (imap_first v in_vec) b k j i
  = stencil_sum (NumComponents (st u) spm) sp st1 u spm in_vec (b, k, j, i).
Proof.
  intros Hs Hio Hsi Hso HN v.
  destruct (MatVec_pack st u in_vec out_vec spm Hs Hio Hsi Hso HN)
    as (Hsl & Hin & _ & Hlo & Hhi).
  fold v in Hsl, Hin, Hlo, Hhi. rewrite Hin, Hlo, Hhi.
  unfold sp_MatVec, stencil_sum, range.
  replace (Z.to_nat (2 + Z.of_nat (NumComponents (st u) spm) - 1 - 2 + 1))
    with (NumComponents (st u) spm) by lia.
  rewrite fold_left_over_map. apply fold_left_ext_In.
  intros acc m Hm. apply in_seq in Hm.
  replace (2 + Z.of_nat m - 2) with (Z.of_nat m) by lia.
  unfold pack_get, slot. rewrite Hsl.
  destruct (2 + Z.of_nat m <? 0) eqn:E; [apply Z.ltb_lt in E; lia|].
  replace (Z.to_nat (2 + Z.of_nat m)) with (S (S m)) by lia.
  assert (Hl : ((in_vec, 0%nat) :: (out_vec, 0%nat)
                :: map (pair spm) (seq 0 (NumComponents (st u) spm))) !! S (S m)
               = Some (spm, m)).
  { change (((in_vec, 0%nat) :: (out_vec, 0%nat)
             :: map (pair spm) (seq 0 (NumComponents (st u) spm))) !! S (S m))
      with ((pair spm <$> seq 0 (NumComponents (st u) spm)) !! m).
    rewrite list_lookup_fmap, lookup_seq_lt by lia. reflexivity. }
  rewrite Hl. reflexivity.
Qed.

Lemma stencil_sum_agree_off N sp st1 st2 u in_vec out_vec spm c :
  in_vec <> out_vec -> spm <> out_vec ->
  agree_off u out_vec 0%nat st1 st2 ->
  stencil_sum N sp st1 u spm in_vec c = stencil_sum N sp st2 u spm in_vec c.
Proof.
  intros Hio Hso Hag. destruct c as [[[b k] j] i]. unfold stencil_sum.
  apply fold_left_ext. intros acc m. unfold field.
  rewrite (Hag u spm m), (Hag u in_vec 0%nat) by (intros (_ & E & _); congruence).
  reflexivity.
Qed.

End MatVecProduct.

(** X13. MatVec, for one-component operands [in_vec] and [out_vec] of
    different names and a matrix field of a third name with at least one
    component: on every block and interior cell of [u] the field [out_vec]
    becomes the sum over the components m of the matrix field of
    coefficient(m) * in_vec(cell + offset(m)), read from the mesh data as
    they were on entry (neighbouring cells included); every other value of
    the mesh data is as before and the solver is unchanged. *)
Theorem MatVec_postcondition {R : Type} {RO : RealOps R}
    (sv : BiCGStab.Solver R) (st : Mesh.Store R) (u : Mesh.Ptr)
    (in_vec out_vec : string) :
  scalar_fields st u [in_vec; out_vec] ->
  in_vec <> out_vec ->
  BiCGStab.spm_name sv <> in_vec ->
  BiCGStab.spm_name sv <> out_vec ->
  (0 < Mesh.NumComponents (st u) (BiCGStab.spm_name sv))%nat ->
  exists st',
    BiCGStab.MatVec sv st u in_vec out_vec = (sv, st', complete) /\
    forall p nm cmp c,
      Mesh.data (st' p) nm cmp c
      = if decide (c ∈ interior_cells (st u) /\ p = u /\ nm = out_vec /\ cmp = 0%nat)
        then stencil_product (BiCGStab.sp_accessor sv) st u (BiCGStab.spm_name sv) in_vec c
        else Mesh.data (st p) nm cmp c.
Proof.
  intros Hs Hio Hsi Hso HN. unfold BiCGStab.MatVec. eexists. split; [reflexivity|].
  intros p nm cmp c.
  set (v := Mesh.PackVariables st u [in_vec; out_vec; BiCGStab.spm_name sv]).
  destruct (MatVec_pack st u in_vec out_vec (BiCGStab.spm_name sv) Hs Hio Hsi Hso HN)
    as (Hsl & _ & Hout & _).
  fold v in Hsl, Hout.
  assert (Hslot : Mesh.slot v (Mesh.imap_first v out_vec) = Some (out_vec, 0%nat))
    by (rewrite Hout; unfold Mesh.slot; rewrite Hsl; reflexivity).
  rewrite (par_for_write_field v _ out_vec 0%nat
             (fun st1 b k j i =>
                BiCGStab.sp_MatVec (BiCGStab.sp_accessor sv) st1 v
                  (Mesh.imap_first v (BiCGStab.spm_name sv))
                  (Mesh.imap_second v (BiCGStab.spm_name sv))
                  v (Mesh.imap_first v in_vec) b k j i)).
  - unfold interior_cells, Mesh.GetDim5. cbn [Mesh.owner v Mesh.PackVariables].
    case_decide; [|reflexivity]. destruct c as [[[b k] j] i].
    apply (sp_MatVec_stencil _ st st u in_vec out_vec); assumption.
  - exact Hslot.
  - intros st1 st2 b k j i Hag.
    pose proof (fun st1 => sp_MatVec_stencil (BiCGStab.sp_accessor sv) st st1 u in_vec out_vec
                             (BiCGStab.spm_name sv) b k j i Hs Hio Hsi Hso HN) as E.
    cbv zeta in E. fold v in E. rewrite !E.
    apply (stencil_sum_agree_off _ _ st1 st2 u in_vec out_vec); assumption.
Qed.

Module StencilExample.
Import Mesh BiCGStab.

(** The solver of [BiCGStabExample] with a three-point stencil along i,
    whose offsets are -1, 0 and 1. *)
Definition solver : Solver double :=
  {| error_tol := error_tol BiCGStabExample.solver;
     sp_accessor := {| ioff := [-1; 0; 1]; joff := [0; 0; 0]; koff := [0; 0; 0] |};
     max_iters := 10; check_interval := 1; bicgstab_cntr := 0;
     fail_flag := false; warn_flag := true;
     spm_name := "poisson_sparse_matrix"; sol_name := "potential"; rhs_name := "rhs";
     res := "res0"; res0 := "res_00"; vk := "vk0"; pk := "pk0"; tk := "tk0";
     solver_name := "internal_bicgstab_0";
     rhoi_old := S754_zero false; omega := S754_zero false; alpha := S754_zero false;
     val := fun _ => S754_zero false |}.

(** One block with the interior cells i = 1, 2, 3 between the ghost cells
    i = 0 and i = 4; the matrix field has the three components -1, 2, -1
    at every cell and p is 10 i^2 at the cell i. *)
Definition mesh : MeshData double :=
  {| NumBlocks := 1;
     GetBoundsI := {| s := 1; e := 3 |};
     GetBoundsJ := {| s := 0; e := 0 |};
     GetBoundsK := {| s := 0; e := 0 |};
     GetNdim := 1;
     Dx := fun _ => double_of_Z 1;
     NumComponents := fun nm => if decide (nm = "poisson_sparse_matrix") then 3%nat
                                else 1%nat;
     data := fun nm c '(b, k, j, i) =>
       if decide (nm = "poisson_sparse_matrix")
       then (if decide (c = 1%nat) then double_of_Z 2 else double_of_Z (-1))
       else if decide (nm = "pk0") then double_of_Z (10 * i * i)
       else S754_zero false |}.

Definition store : Store double := fun _ => mesh.

End StencilExample.

(** The theorem at the partition of [StencilExample]: at the cell i = 3
    the product is -40 + 2 * 90 - 160 = -20, reading the ghost cell i = 4,
    which keeps its value, as does p. *)
Lemma MatVec_postcondition_witness :
  exists st',
    BiCGStab.MatVec StencilExample.solver StencilExample.store 0%nat "pk0" "vk0"
    = (StencilExample.solver, st', complete) /\
    BiCGStabExample.at_cell st' "vk0" 3 = double_of_Z (-20) /\
    BiCGStabExample.at_cell st' "vk0" 4 = S754_zero false /\
    BiCGStabExample.at_cell st' "pk0" 3 = double_of_Z 90.
Proof.
  destruct (MatVec_postcondition StencilExample.solver StencilExample.store 0%nat
              "pk0" "vk0") as (st' & E & Hd).
  - intros nm [<- | [<- | []]]; reflexivity.
  - discriminate.
  - discriminate.
  - discriminate.
  - vm_compute. lia.
  - exists st'. split; [exact E|].
    unfold BiCGStabExample.at_cell. rewrite !Hd. repeat split; vm_compute; reflexivity.
Defined.

(* --------------------------------------------------------------------- *)
(** ** BiCGStab: the counter and the accumulators over the cycles *)
(* --------------------------------------------------------------------- *)

Section Counters.

Import Mesh BiCGStab.
Context {R : Type} {RO : RealOps R}.
Implicit Types (st : Store R) (sv : Solver R).

(** The second solver has the counter and the initial-norm accumulator of
    the first. *)
Definition keeps_counters sv sv' : Prop :=
  bicgstab_cntr sv' = bicgstab_cntr sv /\ val sv' global_res0 = val sv global_res0.

Lemma keeps_counters_refl sv : keeps_counters sv sv.
Proof. split; reflexivity. Qed.

Lemma keeps_counters_trans sv1 sv2 sv3 :
  keeps_counters sv1 sv2 -> keeps_counters sv2 sv3 -> keeps_counters sv1 sv3.
Proof. intros [H1 H2] [H3 H4]. split; congruence. Qed.

Lemma DotProduct_keeps_counters sv st u vec1 vec2 acc :
  acc <> global_res0 -> keeps_counters sv (fst (fst (DotProduct sv st u vec1 vec2 acc))).
Proof.
  intros Hacc. unfold DotProduct. destruct (par_reduce _ _ _ _ _ _ _ _ _ _).
  split; [reflexivity|]. simpl. rewrite decide_False by congruence. reflexivity.
Qed.

Lemma OmegaDotProd_keeps_counters sv st u :
  keeps_counters sv (fst (fst (OmegaDotProd sv st u t_dot_s t_dot_t))).
Proof.
  unfold OmegaDotProd. destruct (par_reduce _ _ _ _ _ _ _ _ _ _).
  destruct (par_reduce _ _ _ _ _ _ _ _ _ _). split; reflexivity.
Qed.

Lemma Update_x_res_keeps_counters sv st u du :
  keeps_counters sv (fst (fst (Update_x_res sv st u du global_res))).
Proof.
  unfold Update_x_res. destruct (par_reduce _ _ _ _ _ _ _ _ _ _). split; reflexivity.
Qed.

(** The completion task on partition 0. *)
Lemma CheckConvergence_counters sv report :
  let sv' := fst (CheckConvergence sv 0 report) in
  bicgstab_cntr sv' = bicgstab_cntr sv + 1 /\
  val sv' global_res0 = (if bicgstab_cntr sv + 1 =? 1 then Rsqrt (val sv global_res0)
                         else val sv global_res0) /\
  forall h, h <> global_res0 -> val sv' h = Rzero.
Proof.
  unfold CheckConvergence. simpl.
  destruct (bicgstab_cntr sv + 1 =? 1), report; simpl;
    (split; [reflexivity|]); (split; [reflexivity|]);
    intros h Hh; destruct h; try reflexivity; contradiction.
Qed.

(** One cycle of partition 0. *)
Lemma run_cycle_counters exchange md mout sv st :
  let sv' := fst (fst (run_cycle exchange md mout 0 sv st)) in
  bicgstab_cntr sv' = bicgstab_cntr sv + 1 /\
  val sv' global_res0 = (if bicgstab_cntr sv + 1 =? 1 then Rsqrt (val sv global_res0)
                         else val sv global_res0) /\
  forall h, h <> global_res0 -> val sv' h = Rzero.
Proof.
  unfold run_cycle, run_to_r0dotv, run_from_h.
  pose proof (DotProduct_keeps_counters sv st md (res0 sv) (res sv) rhoi
                ltac:(discriminate)) as H1.
  destruct (DotProduct sv st md (res0 sv) (res sv) rhoi) as [[sv1 st1] ?]. simpl in H1.
  assert (H2 : keeps_counters sv1 (fst (fst (Compute_pk sv1 st1 md))))
    by (split; reflexivity).
  destruct (Compute_pk sv1 st1 md) as [[sv2 st2] ?]. simpl in H2.
  assert (H3 : keeps_counters sv2 (fst (fst (MatVec sv2 (exchange st2) md (pk sv2) (vk sv2)))))
    by (split; reflexivity).
  destruct (MatVec sv2 (exchange st2) md (pk sv2) (vk sv2)) as [[sv3 st3] ?]. simpl in H3.
  pose proof (DotProduct_keeps_counters sv3 st3 md (res0 sv3) (vk sv3) r0_dot_vk
                ltac:(discriminate)) as H4.
  destruct (DotProduct sv3 st3 md (res0 sv3) (vk sv3) r0_dot_vk) as [[sv4 st4] ?].
  simpl in H4.
  assert (H5 : keeps_counters sv4 (fst (fst (Update_h sv4 st4 md mout))))
    by (split; reflexivity).
  destruct (Update_h sv4 st4 md mout) as [[sv5 st5] ?]. simpl in H5.
  assert (H6 : keeps_counters sv5 (fst (fst (Update_s sv5 st5 md))))
    by (split; reflexivity).
  destruct (Update_s sv5 st5 md) as [[sv6 st6] ?]. simpl in H6.
  assert (H7 : keeps_counters sv6 (fst (fst (MatVec sv6 (exchange st6) md (res sv6) (tk sv6)))))
    by (split; reflexivity).
  destruct (MatVec sv6 (exchange st6) md (res sv6) (tk sv6)) as [[sv7 st7] ?]. simpl in H7.
  pose proof (OmegaDotProd_keeps_counters sv7 st7 md) as H8.
  destruct (OmegaDotProd sv7 st7 md t_dot_s t_dot_t) as [[sv8 st8] ?]. simpl in H8.
  pose proof (Update_x_res_keeps_counters sv8 st8 md mout) as H9.
  destruct (Update_x_res sv8 st8 md mout global_res) as [[sv9 st9] ?]. simpl in H9.
  pose proof (CheckConvergence_counters sv9 true) as H10.
  destruct (CheckConvergence sv9 0 true) as [sv10 status]. simpl in H10. simpl.
  assert (H : keeps_counters sv sv9)
    by (repeat (eapply keeps_counters_trans; [eassumption|]); apply keeps_counters_refl).
  destruct H as [Hc Hv]. rewrite <- Hc, <- Hv. exact H10.
Qed.

End Counters.

(** X14. The shared state over the cycles of partition 0, whatever the
    mesh data and the boundary exchange do: after the initialisation the
    iteration counter is 0, the scalars rho_(i-1), alpha and omega are 1
    and the five accumulators other than the initial norm are zero; after
    n cycles the counter is n, the initial-norm accumulator has been
    replaced by its square root exactly once (in the first cycle, by no
    later one), and, once a cycle has run, the five other accumulators are
    zero again. *)
Theorem cycles_count_and_reset {R : Type} {RO : RealOps R}
    (exchange : Mesh.Store R -> Mesh.Store R) (md mout : Mesh.Ptr) (n : nat)
    (sv : BiCGStab.Solver R) (st : Mesh.Store R) :
  let '(sv0, st0) := BiCGStab.run_init md mout sv st in
  let '(svn, stn) := run_cycles exchange md mout 0 n sv0 st0 in
  (BiCGStab.bicgstab_cntr sv0 = 0 /\
   BiCGStab.rhoi_old sv0 = Rone /\ BiCGStab.alpha sv0 = Rone /\ BiCGStab.omega sv0 = Rone /\
   forall h, h <> BiCGStab.global_res0 -> BiCGStab.val sv0 h = Rzero) /\
  BiCGStab.bicgstab_cntr svn = Z.of_nat n /\
  BiCGStab.val svn BiCGStab.global_res0
  = match n with
    | O => BiCGStab.val sv0 BiCGStab.global_res0
    | S _ => Rsqrt (BiCGStab.val sv0 BiCGStab.global_res0)
    end /\
  (n <> 0%nat -> forall h, h <> BiCGStab.global_res0 -> BiCGStab.val svn h = Rzero).
Proof.
  assert (Hinit :
    let sv0 := fst (BiCGStab.run_init md mout sv st) in
    BiCGStab.bicgstab_cntr sv0 = 0 /\
    BiCGStab.rhoi_old sv0 = Rone /\ BiCGStab.alpha sv0 = Rone /\ BiCGStab.omega sv0 = Rone /\
    forall h, h <> BiCGStab.global_res0 -> BiCGStab.val sv0 h = Rzero).
  { unfold BiCGStab.run_init, BiCGStab.InitializeBiCGStab.
    destruct (Mesh.par_reduce _ _ _ _ _ _ _ _ _ _). simpl.
    repeat split. intros h Hh. destruct h; try reflexivity; contradiction. }
  destruct (BiCGStab.run_init md mout sv st) as [sv0 st0]. simpl in Hinit.
  assert (Hcycles : forall n sv1 st1,
    let svn := fst (run_cycles exchange md mout 0 n sv1 st1) in
    BiCGStab.bicgstab_cntr svn = BiCGStab.bicgstab_cntr sv1 + Z.of_nat n /\
    (0 <= BiCGStab.bicgstab_cntr sv1 ->
     BiCGStab.val svn BiCGStab.global_res0
     = if (BiCGStab.bicgstab_cntr sv1 =? 0) && negb (Nat.eqb n 0)
       then Rsqrt (BiCGStab.val sv1 BiCGStab.global_res0)
       else BiCGStab.val sv1 BiCGStab.global_res0) /\
    (n <> 0%nat -> forall h, h <> BiCGStab.global_res0 -> BiCGStab.val svn h = Rzero)).
  { clear. induction n as [|n IH]; intros sv1 st1.
    - simpl. split; [lia|]. split; [|contradiction].
      intros _. rewrite andb_false_r. reflexivity.
    - cbn [run_cycles].
      pose proof (run_cycle_counters exchange md mout sv1 st1) as (Hc & Hv & Hz).
      destruct (BiCGStab.run_cycle exchange md mout 0 sv1 st1) as [[sv2 st2] status].
      simpl in Hc, Hv, Hz.
      specialize (IH sv2 st2). destruct IH as (IHc & IHv & IHz).
      split; [rewrite IHc, Hc; lia|]. split.
      + intros Hpos. rewrite IHv by lia. rewrite Hc, Hv.
        replace (BiCGStab.bicgstab_cntr sv1 + 1 =? 0) with false by (symmetry; apply Z.eqb_neq; lia).
        simpl. rewrite andb_true_r.
        destruct (BiCGStab.bicgstab_cntr sv1 =? 0) eqn:E.
        * apply Z.eqb_eq in E. rewrite E. reflexivity.
        * apply Z.eqb_neq in E.
          replace (BiCGStab.bicgstab_cntr sv1 + 1 =? 1) with false
            by (symmetry; apply Z.eqb_neq; lia).
          reflexivity.
      + intros _ h Hh. destruct n as [|n'].
        * simpl. apply Hz, Hh.
        * apply IHz; [discriminate | exact Hh]. }
  specialize (Hcycles n sv0 st0).
  destruct (run_cycles exchange md mout 0 n sv0 st0) as [svn stn]. simpl in Hcycles.
  destruct Hinit as (H0 & Hrest). destruct Hcycles as (Hc & Hv & Hz).
  split; [split; assumption|]. split; [rewrite Hc, H0; lia|]. split; [|exact Hz].
  rewrite Hv by lia. rewrite H0. destruct n; reflexivity.
Qed.

(* --------------------------------------------------------------------- *)
(** ** CreateTaskList: the shape of the list and what waits for what *)
(* --------------------------------------------------------------------- *)

Section TaskGraph.

Import TaskLists.

(** The identities with their dependencies. *)
Definition edges (l : list Task) : list (nat * list nat) :=
  map (fun t => (id t, dependency t)) l.

(** The callables of the tasks a TaskID names. *)
Definition named (l : list Task) (t : TaskID) : list TaskFn :=
  flat_map (fun n => map fn (filter (fun t => id t = n) l)) t.

(** In the edges [E], the task with the identity [a] names [b] among its
    dependencies. *)
Definition depends_on (E : list (nat * list nat)) (a b : nat) : Prop :=
  exists deps, In (a, deps) E /\ In b deps.

(** [a] waits for [b]: through one or more dependencies. *)
Inductive waits_for (E : list (nat * list nat)) : nat -> nat -> Prop :=
| waits_direct a b : depends_on E a b -> waits_for E a b
| waits_through a b c : depends_on E a b -> waits_for E b c -> waits_for E a c.

Lemma waits_for_trans E a b c : waits_for E a b -> waits_for E b c -> waits_for E a c.
Proof.
  intros Hab. revert c. induction Hab as [a b Hd | a b c' Hd Hw IH]; intros z Hz.
  - eapply waits_through; eassumption.
  - eapply waits_through; [eassumption | apply IH, Hz].
Qed.

(** No task outside [bad] names a task of [bad] among its dependencies. *)
Definition avoids (E : list (nat * list nat)) (bad : list nat) : bool :=
  forallb (fun '(a, deps) =>
             bool_decide (a ∈ bad) || forallb (fun d => negb (bool_decide (d ∈ bad))) deps)
          E.

Lemma avoids_depends_on E bad a b :
  avoids E bad = true -> depends_on E a b -> a ∉ bad -> b ∉ bad.
Proof.
  unfold avoids. rewrite forallb_forall.
  intros Hav (deps & Hin & Hb) Ha. specialize (Hav _ Hin). cbv beta iota in Hav.
  rewrite bool_decide_false in Hav by exact Ha. simpl in Hav.
  rewrite forallb_forall in Hav. specialize (Hav b Hb).
  apply negb_true_iff, bool_decide_eq_false in Hav. exact Hav.
Qed.

(** A task outside [bad] waits for no task of [bad]. *)
Lemma avoids_waits_for E bad a b :
  avoids E bad = true -> waits_for E a b -> a ∉ bad -> b ∉ bad.
Proof.
  intros Hav Hw. induction Hw as [a b Hd | a b c Hd Hw IH]; intros Ha.
  - eapply avoids_depends_on; eassumption.
  - apply IH. eapply avoids_depends_on; eassumption.
Qed.

Lemma avoids_cons a deps E bad :
  avoids ((a, deps) :: E) bad
  = (bool_decide (a ∈ bad) || forallb (fun d => negb (bool_decide (d ∈ bad))) deps)
    && avoids E bad.
Proof. reflexivity. Qed.

Lemma avoids_outside (deps bad ids : list nat) :
  (forall d, In d deps -> ~ In d ids) -> (forall d, In d bad -> In d ids) ->
  forallb (fun d => negb (bool_decide (d ∈ bad))) deps = true.
Proof.
  intros Hd Hb. apply forallb_forall. intros d Hin.
  apply negb_true_iff, bool_decide_eq_false. rewrite list_elem_of_In.
  intros H. exact (Hd d Hin (Hb d H)).
Qed.

End TaskGraph.

(** A dependency read off the computed edges. *)
Ltac dep := eexists; split; in_list.

(** X15. The list CreateTaskList builds for a partition, whatever the
    solver's names: it has 33 tasks on partition 0 and 27 on every other
    one, numbered 1, 2, ... in the order they were added; the first is
    InitializeBiCGStab and depends on [begin], and every other task names
    as dependencies only tasks added before it; the last task, and no
    other, is the completion task, it is CheckConvergence(i, true) and its
    identity is what CreateTaskList returns; the tasks outside the
    iteration are InitializeBiCGStab and the reduction tasks of the
    initial residual; and the region is told of five regional dependencies
    and one global one, numbered 0 to 5 in this order. *)
Theorem task_list_shape {R : Type} (sv : BiCGStab.Solver R)
    (begin : TaskLists.TaskID) (i : Z) :
  let b := snd (TaskLists.CreateTaskList sv begin i TaskLists.empty_builder) in
  let l := TaskLists.task_list sv begin i in
  length l = (if i =? 0 then 33%nat else 27%nat) /\
  map TaskLists.id l = seq 1 (length l) /\
  (exists rest, edges l = (1%nat, begin) :: rest /\
     Forall (fun '(n, deps) => Forall (fun d => (1 <= d < n)%nat) deps) rest) /\
  map TaskLists.is_completion l = replicate (length l - 1) false ++ [true] /\
  last (map TaskLists.fn l) = Some (TaskLists.T_CheckConvergence i true) /\
  fst (TaskLists.CreateTaskList sv begin i TaskLists.empty_builder) = [length l] /\
  map TaskLists.fn (filter (fun t => TaskLists.in_iteration t = false) l)
  = TaskLists.T_InitializeBiCGStab BiCGStab.global_res0
    :: (if i =? 0 then [TaskLists.T_StartReduce BiCGStab.global_res0] else [])
    ++ [TaskLists.T_CheckReduce BiCGStab.global_res0] /\
  map (fun '(rid, j, t) => (rid, j)) (TaskLists.regional b ++ TaskLists.global b)
  = [(0%nat, i); (1%nat, i); (2%nat, i); (3%nat, i); (4%nat, i); (5%nat, i)] /\
  flat_map (fun '(rid, j, t) => named l t) (TaskLists.regional b ++ TaskLists.global b)
  = [TaskLists.T_InitializeBiCGStab BiCGStab.global_res0;
     TaskLists.T_DotProduct (BiCGStab.res0 sv) (BiCGStab.res sv) BiCGStab.rhoi;
     TaskLists.T_DotProduct (BiCGStab.res0 sv) (BiCGStab.vk sv) BiCGStab.r0_dot_vk;
     TaskLists.T_OmegaDotProd BiCGStab.t_dot_s BiCGStab.t_dot_t;
     TaskLists.T_Update_x_res BiCGStab.global_res;
     TaskLists.T_CheckConvergence i true].
Proof.
  intros b l. subst b l. unfold TaskLists.task_list, TaskLists.CreateTaskList.
  destruct (i =? 0); vm_compute;
    (repeat split; try reflexivity);
    (eexists; split; [reflexivity|]);
    repeat (constructor; [repeat (constructor; [lia|]); constructor|]); constructor.
Qed.

(** From a membership in the computed list of callables and identities to
    the identity. *)
Ltac id_cases H :=
  repeat (destruct H as [H|H]; [try discriminate H; injection H as <-|]);
  try destruct H.

(** Replace the term [t] of the goal and of the hypothesis [H] by its
    value. *)
Ltac evaluate_in t H :=
  let v := eval vm_compute in t in
  let E := fresh "E" in
  assert (E : t = v) by (vm_compute; reflexivity);
  rewrite ?E in H; rewrite ?E; clear E.

(** One step along a dependency, then the rest of the way from [b]. *)
Ltac through b := apply (waits_through _ _ b); [dep|].

(** X16. What the completion task waits for in the list of a partition,
    when [begin] names no task of the list: following the declared
    dependencies from CheckConvergence one reaches Compute_pk and
    OmegaDotProd (and, on partition 0, Update_x_res), but reaches neither
    Update_h nor Update_s, nor the product r0 . v, nor the task that checks
    the reduction of the initial residual; on the partitions other than 0
    one does not reach Update_x_res either. *)
Theorem completion_task_waits_for {R : Type} (sv : BiCGStab.Solver R)
    (begin : TaskLists.TaskID) (i : Z) :
  let l := TaskLists.task_list sv begin i in
  (forall d, In d begin -> ~ In d (map TaskLists.id l)) ->
  exists c,
    TaskLists.id_of l (TaskLists.T_CheckConvergence i true) c /\
    (forall f n,
       In f [TaskLists.T_Update_h; TaskLists.T_Update_s;
             TaskLists.T_DotProduct (BiCGStab.res0 sv) (BiCGStab.vk sv) BiCGStab.r0_dot_vk;
             TaskLists.T_CheckReduce BiCGStab.global_res0] ->
       TaskLists.id_of l f n -> ~ waits_for (edges l) c n) /\
    (i <> 0 ->
     forall n, TaskLists.id_of l (TaskLists.T_Update_x_res BiCGStab.global_res) n ->
               ~ waits_for (edges l) c n) /\
    (forall f n,
       In f [TaskLists.T_Compute_pk;
             TaskLists.T_OmegaDotProd BiCGStab.t_dot_s BiCGStab.t_dot_t] ->
       TaskLists.id_of l f n -> waits_for (edges l) c n) /\
    (i = 0 ->
     forall n, TaskLists.id_of l (TaskLists.T_Update_x_res BiCGStab.global_res) n ->
               waits_for (edges l) c n).
Proof.
  intros l Hbegin. subst l. unfold TaskLists.id_of.
  destruct (Z.eq_dec i 0) as [->|Hi].
  - (* partition 0 *)
    evaluate_in (map TaskLists.id (TaskLists.task_list sv begin 0)) Hbegin.
    evaluate_in (map (fun t => (TaskLists.fn t, TaskLists.id t))
                     (TaskLists.task_list sv begin 0)) Hbegin.
    evaluate_in (edges (TaskLists.task_list sv begin 0)) Hbegin.
    match type of Hbegin with forall d, _ -> ~ In d ?l => set (ids := l) in Hbegin end.
    match goal with |- context [waits_for ?l _ _] => set (E := l) end.
    match goal with |- context [In (_, _) ?l] => set (fids := l) end.
    set (bad := [2; 3; 12; 13; 14; 15; 16; 17; 18; 19; 20; 21; 22]%nat).
    assert (Hav : avoids E bad = true).
    { subst E. rewrite avoids_cons. apply andb_true_intro.
      split; [|vm_compute; reflexivity].
      apply orb_true_iff. right. apply (avoids_outside begin bad ids Hbegin).
      intros d Hd. subst ids bad. simpl in Hd. simpl. tauto. }
    assert (Hno : forall n, n ∈ bad -> ~ waits_for E 33%nat n).
    { intros n Hn Hw. refine (avoids_waits_for E bad 33%nat n Hav Hw _ Hn).
      apply (bool_decide_unpack _). vm_compute. exact I. }
    exists 33%nat. split; [subst fids; in_list|]. split; [|split; [|split]].
    + intros f n Hf Hid. apply Hno. subst fids bad.
      simpl in Hf. destruct Hf as [<-|[<-|[<-|[<-|[]]]]]; id_cases Hid;
        apply (bool_decide_unpack _); vm_compute; exact I.
    + intros Hne. contradiction.
    + assert (W25 : waits_for E 33%nat 25%nat).
      { through 32%nat. through 31%nat. through 30%nat. through 27%nat. through 26%nat.
        apply waits_direct. dep. }
      intros f n Hf Hid. subst fids.
      simpl in Hf. destruct Hf as [<-|[<-|[]]]; id_cases Hid; [|exact W25].
      apply (waits_for_trans _ _ _ _ W25).
      through 24%nat. through 23%nat. through 9%nat. apply waits_direct. dep.
    + intros _ n Hid. subst fids. id_cases Hid.
      through 32%nat. through 31%nat. apply waits_direct. dep.
  - (* the other partitions *)
    assert (Ei : (i =? 0) = false) by (apply Z.eqb_neq; exact Hi).
    unfold TaskLists.task_list, TaskLists.CreateTaskList in Hbegin |- *.
    rewrite Ei in Hbegin. rewrite Ei.
    match type of Hbegin with
    | forall d, _ -> ~ In d (map TaskLists.id ?l) =>
        evaluate_in (map TaskLists.id l) Hbegin;
        evaluate_in (map (fun t => (TaskLists.fn t, TaskLists.id t)) l) Hbegin;
        evaluate_in (edges l) Hbegin
    end.
    match type of Hbegin with forall d, _ -> ~ In d ?l => set (ids := l) in Hbegin end.
    match goal with |- context [waits_for ?l _ _] => set (E := l) end.
    match goal with |- context [In (_, _) ?l] => set (fids := l) end.
    set (bad := [2; 10; 11; 12; 13; 14; 15; 16; 17; 18; 19; 23; 24; 25]%nat).
    assert (Hav : avoids E bad = true).
    { subst E. rewrite avoids_cons. apply andb_true_intro.
      split; [|vm_compute; reflexivity].
      apply orb_true_iff. right. apply (avoids_outside begin bad ids Hbegin).
      intros d Hd. subst ids bad. simpl in Hd. simpl. tauto. }
    assert (Hno : forall n, n ∈ bad -> ~ waits_for E 27%nat n).
    { intros n Hn Hw. refine (avoids_waits_for E bad 27%nat n Hav Hw _ Hn).
      apply (bool_decide_unpack _). vm_compute. exact I. }
    exists 27%nat. split; [subst fids; in_list|]. split; [|split; [|split]].
    + intros f n Hf Hid. apply Hno. subst fids bad.
      simpl in Hf. destruct Hf as [<-|[<-|[<-|[<-|[]]]]]; id_cases Hid;
        apply (bool_decide_unpack _); vm_compute; exact I.
    + intros _ n Hid. apply Hno. subst fids bad. id_cases Hid.
      apply (bool_decide_unpack _); vm_compute; exact I.
    + assert (W22 : waits_for E 27%nat 22%nat).
      { through 26%nat. apply waits_direct. dep. }
      intros f n Hf Hid. subst fids.
      simpl in Hf. destruct Hf as [<-|[<-|[]]]; id_cases Hid; [|exact W22].
      apply (waits_for_trans _ _ _ _ W22).
      through 21%nat. through 20%nat. through 7%nat. apply waits_direct. dep.
    + intros H0. contradiction.
Qed.

(** The theorem at the first solver and a list that starts from no task,
    on partition 0: CheckConvergence is task 33 and Update_s task 18. *)
Lemma completion_task_waits_for_witness :
  let l := TaskLists.task_list BiCGStabExample.solver [] 0 in
  exists c,
    TaskLists.id_of l (TaskLists.T_CheckConvergence 0 true) c /\
    forall n, TaskLists.id_of l TaskLists.T_Update_s n -> ~ waits_for (edges l) c n.
Proof.
  intros l.
  destruct (completion_task_waits_for BiCGStabExample.solver [] 0) as (c & Hc & Hno & _).
  { intros d []. }
  exists c. split; [exact Hc|]. intros n Hn.
  apply (Hno TaskLists.T_Update_s n); [right; left; reflexivity | exact Hn].
Defined.

(* --------------------------------------------------------------------- *)
(** ** The Poisson package: what SetRHS and SumMass compute *)
(* --------------------------------------------------------------------- *)

(** X17. SetRHS with equal spacings, for one-component fields: on every
    block and interior cell of [u] the right-hand side becomes
    -(dx^ndim) * density, with dx the X1 spacing; every other value of the
    mesh data, the density included, is as before. *)
Theorem SetRHS_postcondition {R : Type} {RO : RealOps R} (X1DIR X2DIR : Z)
    (st : Mesh.Store R) (u : Mesh.Ptr) :
  let dx := Mesh.Dx (st u) X1DIR in
  let ndim := Mesh.GetNdim (st u) in
  (forall i, X2DIR <= i <= ndim -> Reqb dx (Mesh.Dx (st u) i) = true) ->
  scalar_fields st u ["density"; "rhs"] ->
  exists st',
    poisson_package.SetRHS X1DIR X2DIR st u = (inr complete, st') /\
    forall p nm cmp c,
      Mesh.data (st' p) nm cmp c
      = if decide (c ∈ interior_cells (st u) /\ p = u /\ nm = "rhs" /\ cmp = 0%nat)
        then Rmul (Ropp (Rpow dx ndim)) (field st u "density" c)
        else Mesh.data (st p) nm cmp c.
Proof.
  intros dx ndim Hall Hs. unfold poisson_package.SetRHS. fold dx ndim.
  rewrite require_equal_spacing_passes by (intros i Hi; apply Hall, In_range, Hi).
  eexists. split; [reflexivity|]. intros p nm cmp [[[b k] j] i].
  set (v := Mesh.PackVariables st u _).
  assert (Hrho : Mesh.slot v (Mesh.imap_first v "density") = Some ("density", 0%nat))
    by (apply slot_imap_first; simpl; auto).
  assert (Hrhs : Mesh.slot v (Mesh.imap_first v "rhs") = Some ("rhs", 0%nat))
    by (apply slot_imap_first; simpl; auto).
  rewrite (par_for_pointwise v _ "rhs" 0%nat
             (fun st b k j i =>
                Rmul (Ropp (Rpow dx ndim))
                     (Mesh.pack_get st v b (Mesh.imap_first v "density") k j i)))
    by (try exact Hrhs; intros st1 st2 b' k' j' i' Hag; repeat local_step Hag).
  unfold Mesh.pack_get. rewrite Hrho. reflexivity.
Qed.

(** The theorem at the partition of [PoissonExample] with the spacings 2
    and 2 (X1DIR = 1, X2DIR = 2): the right-hand side becomes
    -4 * 5 = -20 at the cell i = 1 and the density stays 5. *)
Lemma SetRHS_postcondition_witness :
  exists st',
    poisson_package.SetRHS 1 2 (PoissonExample.store 2) 0%nat = (inr complete, st') /\
    Mesh.data (st' 0%nat) "rhs" 0%nat (0%nat, 0, 0, 1) = double_of_Z (-20) /\
    Mesh.data (st' 0%nat) "density" 0%nat (0%nat, 0, 0, 1) = double_of_Z 5.
Proof.
  destruct (SetRHS_postcondition 1 2 (PoissonExample.store 2) 0%nat) as (st' & E & Hd).
  - intros i Hi. simpl in Hi. replace i with 2 by lia. reflexivity.
  - intros nm _. reflexivity.
  - exists st'. split; [exact E|]. rewrite !Hd. split; vm_compute; reflexivity.
Defined.

(** X18. SumMass with equal spacings, for a one-component density: it adds
    to the scalar it is given the sum over all blocks and interior cells of
    density * dx^ndim, added up from zero in loop order, and leaves the
    mesh data as they were. *)
Theorem SumMass_postcondition {R : Type} {RO : RealOps R} (X1DIR X2DIR : Z)
    (st : Mesh.Store R) (u : Mesh.Ptr) (reduce_sum : R) :
  let dx := Mesh.Dx (st u) X1DIR in
  let ndim := Mesh.GetNdim (st u) in
  (forall i, X2DIR <= i <= ndim -> Reqb dx (Mesh.Dx (st u) i) = true) ->
  scalar_fields st u ["density"] ->
  poisson_package.SumMass X1DIR X2DIR st u reduce_sum
  = (inr complete, st,
     Radd reduce_sum
          (fold_left (fun sum c => Radd sum (Rmul (field st u "density" c) (Rpow dx ndim)))
                     (interior_cells (st u)) Rzero)).
Proof.
  intros dx ndim Hall Hs. unfold poisson_package.SumMass. fold dx ndim.
  rewrite require_equal_spacing_passes by (intros i Hi; apply Hall, In_range, Hi).
  rewrite par_reduce_pure. do 2 f_equal.
  unfold interior_cells, Mesh.GetDim5. cbn [Mesh.owner Mesh.PackVariables].
  apply fold_left_ext. intros sum [[[b k] j] i].
  set (v := Mesh.PackVariables st u _).
  assert (Hrho : Mesh.slot v (Mesh.imap_first v "density") = Some ("density", 0%nat))
    by (apply slot_imap_first; simpl; auto).
  unfold Mesh.pack_get. rewrite Hrho. reflexivity.
Qed.

(** The theorem at the same partition and an accumulator that holds 100:
    it ends as 100 + (3 * 4 + 5 * 4) = 132. *)
Lemma SumMass_postcondition_witness :
  poisson_package.SumMass 1 2 (PoissonExample.store 2) 0%nat (double_of_Z 100)
  = (inr complete, PoissonExample.store 2, double_of_Z 132).
Proof.
  rewrite (SumMass_postcondition 1 2 (PoissonExample.store 2) 0%nat (double_of_Z 100)).
  - vm_compute. reflexivity.
  - intros i Hi. simpl in Hi. replace i with 2 by lia. reflexivity.
  - intros nm _. reflexivity.
Defined.

(* --------------------------------------------------------------------- *)
(** ** The Poisson package: what Initialize registers *)
(* --------------------------------------------------------------------- *)

Arguments poisson_package.params {R Stencil_t SparseMatrixAccessor_t} s.
Arguments poisson_package.GetOrAddBoolean {R} p block name def.

Section PackageParameters.

Import poisson_package.
Context {R : Type} {RO : RealOps R} {Stencil_t SparseMatrixAccessor_t : Type}.
Implicit Types (pkg : StateDescriptor R Stencil_t SparseMatrixAccessor_t).

Lemma params_AddParam pkg key value key' :
  key' <> key -> params (AddParam key value pkg) !! key' = params pkg !! key'.
Proof. intros Hne. unfold AddParam. simpl. apply lookup_insert_ne. congruence. Qed.

Lemma params_AddField pkg name flags shape :
  params (AddField name flags shape pkg) = params pkg.
Proof. reflexivity. Qed.

End PackageParameters.

(** X19. The package Initialize builds holds neither a "stencil" nor a
    "sparse_accessor", whatever the input, as long as the constructor of
    the CG solver registers neither; so on the package dictionary that
    holds it UpdatePhi with equal spacings never completes: it stops at
    the look-up of one of the two, with the mesh data as they were. *)
Theorem Initialize_registers_no_kernel_object
    {R : Type} {RO : RealOps R} {Stencil_t SparseMatrixAccessor_t : Type}
    (make_Stencil : string -> Z -> list R -> list (list Z) -> Stencil_t)
    (make_SparseMatrixAccessor : string -> Z -> list (list Z) -> SparseMatrixAccessor_t)
    (CG_Solver :
       poisson_package.StateDescriptor R Stencil_t SparseMatrixAccessor_t -> R ->
       Stencil_t + SparseMatrixAccessor_t ->
       poisson_package.StateDescriptor R Stencil_t SparseMatrixAccessor_t)
    (pin : poisson_package.ParameterInput R) :
  (forall pkg tol m key,
     In key ["stencil"; "sparse_accessor"] ->
     poisson_package.params (CG_Solver pkg tol m) !! key = poisson_package.params pkg !! key) ->
  let pkg := poisson_package.Initialize make_Stencil make_SparseMatrixAccessor CG_Solver pin in
  poisson_package.params pkg !! "stencil" = None /\
  poisson_package.params pkg !! "sparse_accessor" = None /\
  forall X1DIR X2DIR stencil_Jacobi sp_accessor_Jacobi (st : Mesh.Store R) (u du : Mesh.Ptr),
    (forall i, X2DIR <= i <= Mesh.GetNdim (st u) ->
               Reqb (Mesh.Dx (st u) X1DIR) (Mesh.Dx (st u) i) = true) ->
    exists key,
      In key ["stencil"; "sparse_accessor"] /\
      poisson_package.UpdatePhi X1DIR X2DIR stencil_Jacobi sp_accessor_Jacobi
                                {[ "poisson_package" := pkg ]} st u du
      = (inl (poisson_package.not_held key), st).
Proof.
  intros HCG pkg.
  assert (Hnone : forall key, In key ["stencil"; "sparse_accessor"] ->
                              poisson_package.params pkg !! key = None).
  { intros key Hkey. subst pkg. unfold poisson_package.Initialize.
    destruct (poisson_package.GetOrAddBoolean pin "poisson" "use_stencil" true);
      rewrite params_AddParam by (simpl in Hkey; destruct Hkey as [<-|[<-|[]]]; discriminate);
      rewrite HCG by exact Hkey;
      rewrite ?params_AddField;
      repeat (rewrite params_AddParam
                by (simpl in Hkey; destruct Hkey as [<-|[<-|[]]]; discriminate);
              rewrite ?params_AddField);
      reflexivity. }
  split; [apply Hnone; simpl; auto|]. split; [apply Hnone; simpl; auto|].
  intros X1DIR X2DIR stencil_Jacobi sp_accessor_Jacobi st u du Hall.
  unfold poisson_package.UpdatePhi.
  rewrite require_equal_spacing_passes by (intros i Hi; apply Hall, In_range, Hi).
  rewrite lookup_singleton. rewrite decide_True by reflexivity. cbv beta iota.
  unfold poisson_package.Param_Stencil, poisson_package.Param_SparseMatrixAccessor.
  rewrite !Hnone by (simpl; auto).
  destruct (_ <? 0); eexists; (split; [|reflexivity]); simpl; auto.
Qed.

(** The theorem at the package of [PackageExample], whose CG constructor
    leaves the package as it finds it. *)
Lemma Initialize_registers_no_kernel_object_witness :
  poisson_package.params
    (poisson_package.Initialize PackageExample.make_Stencil
       PackageExample.make_SparseMatrixAccessor PackageExample.CG_Solver
       (PackageExample.pin true)) !! "stencil" = None.
Proof.
  refine (proj1 (Initialize_registers_no_kernel_object
                   PackageExample.make_Stencil PackageExample.make_SparseMatrixAccessor
                   PackageExample.CG_Solver (PackageExample.pin true) _)).
  intros pkg tol m key _. reflexivity.
Defined.

(* --------------------------------------------------------------------- *)
(** ** The block timer: the cost over a sequence of timers *)
(* --------------------------------------------------------------------- *)

(** The cost after the timers with the given start and stop readings were
    destroyed one after the other, all constructed on the same cost. *)
Definition cost_after (cost : double) (readings : list (Z * Z)) : double :=
  fold_left (fun cost '(start, stop) =>
               BlockTimer.destroy {| BlockTimer.cost_ := cost; BlockTimer.start_ := start |}
                                  stop)
            readings cost.

(** X20. A cost that is non-negative (and so not a NaN) stays so under any
    sequence of timers with 64-bit clock readings, whether or not the
    clock wrapped around between a start and its stop. *)
Theorem cost_stays_nonnegative (cost : double) (readings : list (Z * Z)) :
  double_nonneg cost = true ->
  Forall (fun '(start, stop) => 0 <= start < 2 ^ 64 /\ 0 <= stop < 2 ^ 64) readings ->
  double_nonneg (cost_after cost readings) = true.
Proof.
  intros Hcost Hall. unfold cost_after. revert cost Hcost.
  induction Hall as [|[start stop] readings [Hs Hp] _ IH]; intros cost Hcost;
    [exact Hcost|].
  cbn [fold_left]. apply IH. unfold BlockTimer.destroy.
  apply SFadd_nonneg; [exact Hcost|].
  unfold BlockTimer.diff. cbn [BlockTimer.start_].
  destruct (stop <? start).
  - apply SFadd_nonneg; apply binary_normalize_nonneg.
    + unfold BlockTimer.sub64, BlockTimer.wrap64. apply Z.mod_pos_bound. lia.
    + lia.
  - apply binary_normalize_nonneg.
    unfold BlockTimer.sub64, BlockTimer.wrap64. apply Z.mod_pos_bound. lia.
Qed.

(** The theorem at a cost of 100 and two timers, the second of which saw
    the clock wrap around: the cost ends as 100 + 15 + 7 = 122. *)
Lemma cost_stays_nonnegative_witness :
  cost_after (double_of_Z 100) [(10, 25); (2 ^ 64 - 3, 5)] = double_of_Z 122 /\
  double_nonneg (cost_after (double_of_Z 100) [(10, 25); (2 ^ 64 - 3, 5)]) = true.
Proof.
  split; [vm_compute; reflexivity|].
  apply cost_stays_nonnegative; [reflexivity|].
  repeat constructor; lia.
Defined.
